(** * yaegi seed interpreter: lowering of the Go syntax tree (interp/ast.go)

    A shallow embedding of [interp/ast.go]: the [Kind] and [Action]
    enumerations with their name tables and [String] methods, the node
    arena built by [addChild], the ancestor stack, and the visitor that
    [Ast] hands to [ast.Inspect].  The library functions the file calls
    ([strconv.Itoa], [strconv.ParseInt], [ast.Inspect]) are embedded from
    the Go standard library so that every definition evaluates. *)

From Stdlib Require Import ZArith Lia Bool Ascii String.
From stdpp Require Import gmap strings list.

Local Open Scope string_scope.
Local Open Scope list_scope.
Local Open Scope Z_scope.

(** ** Outcomes of Go calls

    A Go call either returns or panics.  The two panics [ast.go] can raise
    are [panic(err)] on a parser error and the runtime's index-out-of-range
    panic of an array or slice access. *)

Record error := mkError { Error : string }.

Inductive panic :=
| PanicError (e : error)
| PanicIndex (i len : Z).

Inductive result (A : Type) :=
| Returns (a : A)
| Panics (p : panic).
Arguments Returns {A} a.
Arguments Panics {A} p.

Definition bind {A B} (r : result A) (k : A -> result B) : result B :=
  match r with
  | Returns a => k a
  | Panics p => Panics p
  end.

Notation "'let*' x ':=' r 'in' k" := (bind r (fun x => k))
  (at level 10, x name, r at level 100, k at level 200).

(** Go's [a[i]] on an array or slice of strings. *)
Definition index_string (a : list string) (i : Z) : result string :=
  if (0 <=? i) && (i <? Z.of_nat (length a))
  then match a !! Z.to_nat i with
       | Some s => Returns s
       | None => Panics (PanicIndex i (Z.of_nat (length a)))
       end
  else Panics (PanicIndex i (Z.of_nat (length a))).

(** A keyed array literal [[...]string{k1: s1, ...}]: its length is the
    largest key plus one and the slots no key names hold the empty
    string. *)
Definition arrayLit (entries : list (Z * string)) : list string :=
  let n := foldr (fun e m => Z.max (fst e + 1) m) 0 entries in
  foldl (fun a e => <[Z.to_nat (fst e) := snd e]> a)
        (replicate (Z.to_nat n) "") entries.

(** ** strconv *)

Module strconv.

Definition intSize : Z := 64.

Definition digitChar (d : Z) : ascii :=
  ascii_of_nat (Z.to_nat (48 + d)).

(** The digit loop of [formatBits] for base 10: the digits of [u] are
    put in front of [acc], least significant first.  A 64-bit value has
    at most 20 decimal digits. *)
Fixpoint formatBits (fuel : nat) (u : Z) (acc : string) : string :=
  match fuel with
  | O => acc
  | S fuel' =>
      let acc' := String (digitChar (u mod 10)) acc in
      if u <? 10 then acc' else formatBits fuel' (u / 10) acc'
  end.

Definition Itoa (i : Z) : string :=
  if i <? 0 then "-" +:+ formatBits 20 (- i) "" else formatBits 20 i "".

(** *** ParseUint and ParseInt

    A Go string is a sequence of bytes; [byte c] is the value of one.
    Unsigned 64-bit arithmetic wraps modulo [2^64]. *)

Definition byte (c : ascii) : Z := Z.of_nat (nat_of_ascii c).

Definition wrap64 (z : Z) : Z := z mod 2 ^ 64.

Definition maxUint64 : Z := 2 ^ 64 - 1.

(** [lower(c)] is [c | ('x' - 'X')]. *)
Definition lower (c : Z) : Z := Z.lor c 32.

Inductive NumError := ErrSyntax | ErrRange | ErrBase | ErrBitSize.

(** [underscoreOK]: the scan over the number proper.  [saw] is the rune
    the source keeps: 94 (^) at the start, 48 (0) after a digit or a base
    prefix, 95 (_) after an underscore, 33 (!) after anything else;
    [None] is the early [return false]. *)
Fixpoint underscoreScan (hex : bool) (s : string) (saw : Z) : option Z :=
  match s with
  | EmptyString => Some saw
  | String c s' =>
      let c := byte c in
      if ((48 <=? c) && (c <=? 57))
         || (hex && (97 <=? lower c) && (lower c <=? 102))
      then underscoreScan hex s' 48
      else if c =? 95
      then (if negb (saw =? 48) then None else underscoreScan hex s' 95)
      else if saw =? 95 then None
      else underscoreScan hex s' 33
  end.

Definition isSign (c : ascii) : bool :=
  (byte c =? 45) || (byte c =? 43).

Definition isBasePrefix (c0 c1 : ascii) : bool :=
  (byte c0 =? 48)
  && ((lower (byte c1) =? 98) || (lower (byte c1) =? 111)
      || (lower (byte c1) =? 120)).

Definition underscoreOK (s : string) : bool :=
  let s := match s with
           | String c s' => if isSign c then s' else s
           | EmptyString => s
           end in
  let r := match s with
           | String c0 (String c1 s') =>
               if isBasePrefix c0 c1
               then underscoreScan (lower (byte c1) =? 120) s' 48
               else underscoreScan false s 94
           | _ => underscoreScan false s 94
           end in
  match r with
  | Some saw => negb (saw =? 95)
  | None => false
  end.

(** The value of one byte as a digit, before the comparison with the
    base: [None] is the [default] case of the source's switch. *)
Definition digitVal (c : Z) : option Z :=
  if (48 <=? c) && (c <=? 57) then Some (c - 48)
  else if (97 <=? lower c) && (lower c <=? 122) then Some (lower c - 97 + 10)
  else None.

(** The loop of [ParseUint] over the bytes left of [s]; the result is
    the pair the function returns from inside the loop, or the final
    [n] with the [underscores] flag. *)
Fixpoint parseLoop (base0 : bool) (base cutoff maxVal : Z) (s : string)
         (n : Z) (underscores : bool) : (Z * NumError) + (Z * bool) :=
  match s with
  | EmptyString => inr (n, underscores)
  | String c s' =>
      let c := byte c in
      if (c =? 95) && base0
      then parseLoop base0 base cutoff maxVal s' n true
      else
        match digitVal c with
        | None => inl (0, ErrSyntax)
        | Some d =>
            if d >=? base then inl (0, ErrSyntax)
            else if n >=? cutoff then inl (maxVal, ErrRange)
            else
              let n := wrap64 (n * base) in
              let n1 := wrap64 (n + d) in
              if (n1 <? n) || (n1 >? maxVal) then inl (maxVal, ErrRange)
              else parseLoop base0 base cutoff maxVal s' n1 underscores
        end
  end.

(** The base and the rest of the string that [ParseUint] settles on when
    [base == 0]. *)
Definition detectBase (s : string) : Z * string :=
  match s with
  | String c0 rest =>
      if byte c0 =? 48
      then match rest with
           | String c1 s2 =>
               if (3 <=? Z.of_nat (String.length s)) && (lower (byte c1) =? 98)
               then (2, s2)
               else if (3 <=? Z.of_nat (String.length s)) && (lower (byte c1) =? 111)
               then (8, s2)
               else if (3 <=? Z.of_nat (String.length s)) && (lower (byte c1) =? 120)
               then (16, s2)
               else (8, rest)
           | EmptyString => (8, rest)
           end
      else (10, s)
  | EmptyString => (10, s)
  end.

(** No byte of [s] is an underscore. *)
Fixpoint noUnderscore (s : string) : bool :=
  match s with
  | EmptyString => true
  | String c s' => negb (byte c =? 95) && noUnderscore s'
  end.

Definition ParseUint (s : string) (base bitSize : Z) : Z * option NumError :=
  if String.eqb s "" then (0, Some ErrSyntax)
  else
    let base0 := base =? 0 in
    let s0 := s in
    match (if (2 <=? base) && (base <=? 36) then Some (base, s)
           else if base =? 0 then Some (detectBase s)
           else None) with
    | None => (0, Some ErrBase)
    | Some (base, s) =>
        match (if bitSize =? 0 then Some intSize
               else if (bitSize <? 0) || (bitSize >? 64) then None
               else Some bitSize) with
        | None => (0, Some ErrBitSize)
        | Some bitSize =>
            let cutoff := maxUint64 / base + 1 in
            let maxVal := wrap64 (wrap64 (Z.shiftl 1 bitSize) - 1) in
            match parseLoop base0 base cutoff maxVal s 0 false with
            | inl (v, e) => (v, Some e)
            | inr (n, underscores) =>
                if underscores && negb (underscoreOK s0)
                then (0, Some ErrSyntax)
                else (n, None)
            end
        end
    end.

Definition ParseInt (s : string) (base bitSize : Z) : Z * option NumError :=
  if String.eqb s "" then (0, Some ErrSyntax)
  else
    let s0 := s in
    let '(neg, s) :=
      match s with
      | String c s' =>
          if byte c =? 43 then (false, s')
          else if byte c =? 45 then (true, s')
          else (false, s)
      | EmptyString => (false, s)
      end in
    match ParseUint s base bitSize with
    | (_, Some ErrSyntax) => (0, Some ErrSyntax)
    | (_, Some ErrBase) => (0, Some ErrBase)
    | (_, Some ErrBitSize) => (0, Some ErrBitSize)
    | (un, _) =>
        let bitSize := if bitSize =? 0 then intSize else bitSize in
        let cutoff := wrap64 (Z.shiftl 1 (bitSize - 1)) in
        if negb neg && (un >=? cutoff) then (cutoff - 1, Some ErrRange)
        else if neg && (un >? cutoff) then (- cutoff, Some ErrRange)
        else (if neg then - un else un, None)
    end.

End strconv.

(** ** Kinds *)

Definition Kind := Z.

Definition Undef : Kind := 0.
Definition ArrayType : Kind := 1.
Definition AssignStmt : Kind := 2.
Definition BasicLit : Kind := 3.
Definition BinaryExpr : Kind := 4.
Definition BlockStmt : Kind := 5.
Definition BranchStmt : Kind := 6.
Definition Break : Kind := 7.
Definition CallExpr : Kind := 8.
Definition CompositeLit : Kind := 9.
Definition Continue : Kind := 10.
Definition ExprStmt : Kind := 11.
Definition Fallthrough : Kind := 12.
Definition Field : Kind := 13.
Definition FieldList : Kind := 14.
Definition File : Kind := 15.
Definition For0 : Kind := 16.
Definition For1 : Kind := 17.
Definition For2 : Kind := 18.
Definition For3 : Kind := 19.
Definition For4 : Kind := 20.
Definition ForRangeStmt : Kind := 21.
Definition ForStmt : Kind := 22.
Definition FuncDecl : Kind := 23.
Definition FuncType : Kind := 24.
Definition Goto : Kind := 25.
Definition Ident : Kind := 26.
Definition If0 : Kind := 27.
Definition If1 : Kind := 28.
Definition If2 : Kind := 29.
Definition If3 : Kind := 30.
Definition IfStmt : Kind := 31.
Definition IncDecStmt : Kind := 32.
Definition IndexExpr : Kind := 33.
Definition ParenExpr : Kind := 34.
Definition RangeStmt : Kind := 35.
Definition ReturnStmt : Kind := 36.

Definition kinds : list string := arrayLit
  [ (Undef, "Undef"); (ArrayType, "ArrayType"); (AssignStmt, "AssignStmt");
    (BasicLit, "BasicLit"); (BinaryExpr, "BinaryExpr");
    (BlockStmt, "BlockStmt"); (BranchStmt, "BranchStmt"); (Break, "Break");
    (CallExpr, "CallExpr"); (CompositeLit, "CompositLit");
    (Continue, "Continue"); (ExprStmt, "ExprStmt"); (Field, "Field");
    (FieldList, "FieldList"); (File, "File"); (For0, "For0"); (For1, "For1");
    (For2, "For2"); (For3, "For3"); (For4, "For4");
    (ForRangeStmt, "ForRangeStmt"); (ForStmt, "ForStmt");
    (FuncDecl, "FuncDecl"); (FuncType, "FuncType"); (Goto, "Goto");
    (Ident, "Ident"); (If0, "If0"); (If1, "If1"); (If2, "If2"); (If3, "If3");
    (IfStmt, "IfStmt"); (IncDecStmt, "IncDecStmt"); (IndexExpr, "IndexExpr");
    (ParenExpr, "ParenExpr"); (RangeStmt, "RangeStmt");
    (ReturnStmt, "ReturnStmt") ].

Definition Kind_String (k : Kind) : result string :=
  let* s := (if (0 <=? k) && (k <=? Z.of_nat (length kinds))
             then index_string kinds k
             else Returns "") in
  Returns (if String.eqb s "" then "kind(" +:+ strconv.Itoa k +:+ ")" else s).

(** ** Actions *)

Definition Action := Z.

Definition Nop : Action := 0.
Definition ArrayLit : Action := 1.
Definition Assign : Action := 2.
Definition AssignX : Action := 3.
Definition Add : Action := 4.
Definition And : Action := 5.
Definition Call : Action := 6.
Definition Dec : Action := 7.
Definition Equal : Action := 8.
Definition Greater : Action := 9.
Definition GetIndex : Action := 10.
Definition Inc : Action := 11.
Definition Lower : Action := 12.
Definition Println : Action := 13.
Definition Range : Action := 14.
Definition Return : Action := 15.
Definition Sub : Action := 16.

Definition actions : list string := arrayLit
  [ (Nop, "nop"); (ArrayLit, "arraylit"); (Assign, "="); (AssignX, "=");
    (Add, "+"); (And, "&"); (Call, "call"); (Dec, "--"); (Equal, "==");
    (Greater, ">"); (GetIndex, "getindex"); (Inc, "++"); (Lower, "<");
    (Println, "println"); (Range, "range"); (Return, "return"); (Sub, "-") ].

Definition Action_String (a : Action) : result string :=
  let* s := (if (0 <=? a) && (a <=? Z.of_nat (length actions))
             then index_string actions a
             else Returns "") in
  Returns (if String.eqb s "" then "action(" +:+ strconv.Itoa a +:+ ")" else s).

(** ** go/token and go/ast

    The tokens of [go/token] and the syntax tree of [go/ast], with the
    node types [Ast] switches on.  A field of type [*ast.Ident] is kept as
    the identifier's name; every other syntax node type of [go/ast] is an
    [Other] node, which keeps the name [%T] prints and the children
    [ast.Walk] visits. *)

Module token.

Inductive Token :=
| ILLEGAL | EOF | COMMENT
| IDENT | INT | FLOAT | IMAG | CHAR | STRING
| ADD | SUB | MUL | QUO | REM
| AND | OR | XOR | SHL | SHR | AND_NOT
| ADD_ASSIGN | SUB_ASSIGN | MUL_ASSIGN | QUO_ASSIGN | REM_ASSIGN
| AND_ASSIGN | OR_ASSIGN | XOR_ASSIGN | SHL_ASSIGN | SHR_ASSIGN
| AND_NOT_ASSIGN
| LAND | LOR | ARROW | INC | DEC
| EQL | LSS | GTR | ASSIGN | NOT
| NEQ | LEQ | GEQ | DEFINE | ELLIPSIS
| LPAREN | LBRACK | LBRACE | COMMA | PERIOD
| RPAREN | RBRACK | RBRACE | SEMICOLON | COLON
| BREAK | CASE | CHAN | CONST | CONTINUE
| DEFAULT | DEFER | ELSE | FALLTHROUGH | FOR
| FUNC | GO | GOTO | IF | IMPORT
| INTERFACE | MAP | PACKAGE | RANGE | RETURN
| SELECT | STRUCT | SWITCH | TYPE | VAR
| TILDE.

End token.

Scheme All for list.
Scheme All for option.

Module ast.

Inductive Node :=
| ArrayType (Len : option Node) (Elt : Node)
| AssignStmt (Lhs : list Node) (Tok : token.Token) (Rhs : list Node)
| BasicLit (Kind : token.Token) (Value : string)
| BinaryExpr (X : Node) (Op : token.Token) (Y : Node)
| BlockStmt (List_ : list Node)
| BranchStmt (Tok : token.Token) (Label : option string)
| CallExpr (Fun_ : Node) (Args : list Node)
| CompositeLit (Type_ : option Node) (Elts : list Node)
| ExprStmt (X : Node)
| Field (Names : list string) (Type_ : option Node) (Tag : option Node)
| FieldList (List_ : list Node)
| File (Name : string) (Decls : list Node)
| ForStmt (Init Cond Post : option Node) (Body : Node)
| FuncDecl (Recv : option Node) (Name : string) (Type_ : Node)
           (Body : option Node)
| FuncType (Params Results : option Node)
| Ident (Name : string)
| IfStmt (Init : option Node) (Cond Body : Node) (Else_ : option Node)
| IncDecStmt (X : Node) (Tok : token.Token)
| IndexExpr (X Index : Node)
| ParenExpr (X : Node)
| RangeStmt (Key Value : option Node) (Tok : token.Token) (X Body : Node)
| ReturnStmt (Results : list Node)
| Other (typeName : string) (children : list Node).

Definition walkOpt {A B} (f : A -> list B) (o : option A) : list B :=
  match o with
  | Some x => f x
  | None => []
  end.

Definition walkList {A B} (f : A -> list B) (l : list A) : list B :=
  concat (map f l).

(** [Inspect n] is the sequence of arguments with which
    [ast.Inspect(n, f)] calls [f] when [f] always returns true, as the
    visitor of [Ast] does: the node, then its children in the order of
    [ast.Walk], then the nil sentinel. *)
Fixpoint Inspect (n : Node) : list (option Node) :=
  let ident := fun name => [Some (Ident name); None] in
  Some n ::
  match n with
  | ArrayType Len Elt => walkOpt Inspect Len ++ Inspect Elt
  | AssignStmt Lhs _ Rhs => walkList Inspect Lhs ++ walkList Inspect Rhs
  | BasicLit _ _ => []
  | BinaryExpr X _ Y => Inspect X ++ Inspect Y
  | BlockStmt l => walkList Inspect l
  | BranchStmt _ Label => walkOpt ident Label
  | CallExpr Fun_ Args => Inspect Fun_ ++ walkList Inspect Args
  | CompositeLit Type_ Elts => walkOpt Inspect Type_ ++ walkList Inspect Elts
  | ExprStmt X => Inspect X
  | Field Names Type_ Tag =>
      walkList ident Names ++ walkOpt Inspect Type_ ++ walkOpt Inspect Tag
  | FieldList l => walkList Inspect l
  | File Name Decls => ident Name ++ walkList Inspect Decls
  | ForStmt Init Cond Post Body =>
      walkOpt Inspect Init ++ walkOpt Inspect Cond ++ walkOpt Inspect Post
      ++ Inspect Body
  | FuncDecl Recv Name Type_ Body =>
      walkOpt Inspect Recv ++ ident Name ++ Inspect Type_
      ++ walkOpt Inspect Body
  | FuncType Params Results =>
      walkOpt Inspect Params ++ walkOpt Inspect Results
  | Ident _ => []
  | IfStmt Init Cond Body Else_ =>
      walkOpt Inspect Init ++ Inspect Cond ++ Inspect Body
      ++ walkOpt Inspect Else_
  | IncDecStmt X _ => Inspect X
  | IndexExpr X Index => Inspect X ++ Inspect Index
  | ParenExpr X => Inspect X
  | RangeStmt Key Value _ X Body =>
      walkOpt Inspect Key ++ walkOpt Inspect Value ++ Inspect X
      ++ Inspect Body
  | ReturnStmt Results => walkList Inspect Results
  | Other _ children => walkList Inspect children
  end ++ [None].

End ast.

(** [x == nil] for a field that holds a node or nil. *)
Definition isNil {A} (o : option A) : bool :=
  match o with
  | None => true
  | Some _ => false
  end.

(** ** Nodes and the arena

    A [*Node] is the position of the node in the arena of the nodes
    allocated so far; [&Node{...}] allocates at the end of the arena.  The
    [Node] struct is declared outside [ast.go]; its fields are the ones
    [ast.go] writes.  [run] holds [builtin[action]], kept as the action
    that selects the handler. *)

Abbreviation ptr := nat.

Inductive value :=
| NilCell
| IntVal (v : Z)
| StringVal (s : string).

Record Node := mkNode {
  anc : option ptr;
  index : Z;
  kind : Kind;
  action : Action;
  ident : string;
  val : value;
  run : Action;
  Start : ptr;
  Child : list ptr
}.

Definition set_ident (s : string) (n : Node) : Node :=
  mkNode (anc n) (index n) (kind n) (action n) s (val n) (run n) (Start n)
         (Child n).

Definition set_val (v : value) (n : Node) : Node :=
  mkNode (anc n) (index n) (kind n) (action n) (ident n) v (run n) (Start n)
         (Child n).

Definition append_Child (c : ptr) (n : Node) : Node :=
  mkNode (anc n) (index n) (kind n) (action n) (ident n) (val n) (run n)
         (Start n) (Child n ++ [c]).

(** Go's [int] is 64 bits wide and [++] wraps. *)
Definition wrapInt (z : Z) : Z := (z + 2 ^ 63) mod 2 ^ 64 - 2 ^ 63.

(** The memory [addChild] reads and writes: the arena and the two
    variables of [Ast] it receives by address. *)
Record store := mkStore {
  heap : list Node;
  root : option ptr;
  idx : Z
}.

Definition addChild (m : store) (anc : option ptr) (kind : Kind)
           (action : Action) : ptr * store :=
  let index' := wrapInt (idx m + 1) in
  let n := length (heap m) in
  let node := mkNode anc index' kind action "" NilCell action n [] in
  let h := heap m ++ [node] in
  match anc with
  | None => (n, mkStore h (Some n) index')
  | Some a => (n, mkStore (alter (append_Child n) a h) (root m) index')
  end.

(** The node [addChild] allocates, as the composite literal and the
    assignment to [Start] leave it. *)
Definition fresh (m : store) (anc : option ptr) (k : Kind) (act : Action)
  : Node :=
  mkNode anc (wrapInt (idx m + 1)) k act "" NilCell act (length (heap m)) [].

(** ** The ancestor stack *)

Abbreviation nodestack := (list ptr).

Definition push (s : nodestack) (v : ptr) : nodestack := s ++ [v].

Definition pop (s : nodestack) : result (ptr * nodestack) :=
  let l := (Z.of_nat (length s) - 1)%Z in
  match s !! Z.to_nat l with
  | Some res => if 0 <=? l then Returns (res, take (Z.to_nat l) s)
                else Panics (PanicIndex l (Z.of_nat (length s)))
  | None => Panics (PanicIndex l (Z.of_nat (length s)))
  end.

Definition top (s : nodestack) : option ptr :=
  let l := Z.of_nat (length s) in
  if l >? 0 then s !! Z.to_nat (l - 1) else None.

(** ** Ast *)

Record env := mkEnv {
  mem : store;
  st : nodestack;
  def : gmap string ptr;
  stdout : list string
}.

Definition newline : string := String (ascii_of_nat 10) EmptyString.

(** [st.push(addChild(&root, anc, &index, kind, action, &node))] *)
Definition pushChild (e : env) (anc : option ptr) (kind : Kind)
           (action : Action) : env :=
  let '(n, m) := addChild (mem e) anc kind action in
  mkEnv m (push (st e) n) (def e) (stdout e).

Definition update (m : store) (n : ptr) (f : Node -> Node) : store :=
  mkStore (alter f n (heap m)) (root m) (idx m).

(** One call of the function literal that [Ast] passes to
    [ast.Inspect].  A [switch] in which no case matches leaves the
    variable declared before it at its zero value, 0. *)
Definition visit (e : env) (node : option ast.Node) : result env :=
  let anc := top (st e) in
  match node with
  | None =>
      let* r := pop (st e) in
      Returns (mkEnv (mem e) (snd r) (def e) (stdout e))
  | Some a =>
      Returns
        match a with
        | ast.ArrayType _ _ => pushChild e anc ArrayType Nop
        | ast.AssignStmt Lhs _ Rhs =>
            let action :=
              if (Z.of_nat (length Lhs) >? 1) && (Z.of_nat (length Rhs) =? 1)
              then AssignX else Assign in
            pushChild e anc AssignStmt action
        | ast.BasicLit _ Value =>
            let '(n, m) := addChild (mem e) anc BasicLit Nop in
            let m := update m n (set_ident Value) in
            let m :=
              match strconv.ParseInt Value 0 0 with
              | (v, None) => update m n (set_val (IntVal v))
              | (_, Some _) => update m n (set_val (StringVal Value))
              end in
            mkEnv m (push (st e) n) (def e) (stdout e)
        | ast.BinaryExpr _ Op _ =>
            let action :=
              match Op with
              | token.ADD => Add
              | token.AND => And
              | token.EQL => Equal
              | token.GTR => Greater
              | token.LSS => Lower
              | token.SUB => Sub
              | _ => 0
              end in
            pushChild e anc BinaryExpr action
        | ast.BlockStmt _ => pushChild e anc BlockStmt Nop
        | ast.BranchStmt Tok _ =>
            let kind :=
              match Tok with
              | token.BREAK => Break
              | token.CONTINUE => Continue
              | _ => 0
              end in
            pushChild e anc kind Nop
        | ast.CallExpr _ _ => pushChild e anc CallExpr Call
        | ast.CompositeLit _ _ => pushChild e anc CompositeLit ArrayLit
        | ast.ExprStmt _ => pushChild e anc ExprStmt Nop
        | ast.Field _ _ _ => pushChild e anc Field Nop
        | ast.FieldList _ => pushChild e anc FieldList Nop
        | ast.File _ _ => pushChild e anc File Nop
        | ast.ForStmt Init Cond Post _ =>
            let kind :=
              if isNil Cond then For0
              else if isNil Init && isNil Post then For1
              else if negb (isNil Init) && isNil Post then For2
              else if isNil Init && negb (isNil Post) then For3
              else For4 in
            pushChild e anc kind Nop
        | ast.FuncDecl _ Name _ _ =>
            let '(n, m) := addChild (mem e) anc FuncDecl Nop in
            mkEnv m (push (st e) n) (<[Name := n]> (def e)) (stdout e)
        | ast.FuncType _ _ => pushChild e anc FuncType Nop
        | ast.Ident Name =>
            let '(n, m) := addChild (mem e) anc Ident Nop in
            mkEnv (update m n (set_ident Name)) (push (st e) n) (def e)
                  (stdout e)
        | ast.IfStmt Init _ _ Else_ =>
            let kind :=
              if isNil Init && isNil Else_ then If0
              else if isNil Init && negb (isNil Else_) then If1
              else if isNil Else_ then If2
              else If3 in
            pushChild e anc kind Nop
        | ast.IncDecStmt _ Tok =>
            let action :=
              match Tok with
              | token.INC => Inc
              | token.DEC => Dec
              | _ => 0
              end in
            pushChild e anc IncDecStmt action
        | ast.IndexExpr _ _ => pushChild e anc IndexExpr GetIndex
        | ast.ParenExpr _ => pushChild e anc ParenExpr Nop
        | ast.RangeStmt _ _ _ _ _ =>
            let '(n, m) := addChild (mem e) anc ForRangeStmt Nop in
            let '(c, m) := addChild m (Some n) RangeStmt Range in
            mkEnv m (push (st e) c) (def e) (stdout e)
        | ast.ReturnStmt _ => pushChild e anc ReturnStmt Return
        | ast.Other typeName _ =>
            let e := mkEnv (mem e) (st e) (def e)
                       (stdout e ++ ["Unknown kind for " +:+ typeName +:+ newline]) in
            pushChild e anc Undef Nop
        end
  end.

(** The calls [ast.Inspect] makes, one after the other. *)
Fixpoint visitAll (e : env) (calls : list (option ast.Node)) : result env :=
  match calls with
  | [] => Returns e
  | node :: calls' => let* e' := visit e node in visitAll e' calls'
  end.

Definition initial : env :=
  mkEnv (mkStore [] None 0) [] ∅ [].

(** What [Ast] leaves behind when it returns: the two results and the
    memory they point into. *)
Record lowered := mkLowered {
  l_root : option ptr;
  l_def : gmap string ptr;
  l_heap : list Node;
  l_stdout : list string
}.

Section Ast.

(** [parser.ParseFile(fset, "sample.go", src, 0)]: the surface parser,
    which either fails with an error or yields the file's syntax
    tree. *)
Variable ParseFile : string -> error + ast.Node.

Definition Ast (src : string) : result lowered :=
  match ParseFile src with
  | inl err => Panics (PanicError err)
  | inr f =>
      let* e := visitAll initial (ast.Inspect f) in
      Returns (mkLowered (root (mem e)) (def e) (heap (mem e)) (stdout e))
  end.

End Ast.

(** What [parser.ParseFile] answers on the empty source: it reports that
    the package clause is missing.  [rejectEmpty] stands for the parser on
    that one input. *)
Definition eofError : error :=
  mkError "sample.go:1:1: expected 'package', found 'EOF'".

Definition rejectEmpty (src : string) : error + ast.Node := inl eofError.

(** A sample program and its syntax tree, as [go/parser] builds it:

      package main
      func sum(a []int) int {
        s := 0
        for _, v := range a { s = s + v }
        return s
      }

    [parseSample] stands for the parser on this source; it rejects every
    other source. *)
Definition sampleSrc : string :=
  "package main; func sum(a []int) int { s := 0; for _, v := range a { s = s + v }; return s }".

Definition sampleFile : ast.Node :=
  ast.File "main"
    [ast.FuncDecl None "sum"
       (ast.FuncType
          (Some (ast.FieldList
                   [ast.Field ["a"]
                      (Some (ast.ArrayType None (ast.Ident "int"))) None]))
          (Some (ast.FieldList [ast.Field [] (Some (ast.Ident "int")) None])))
       (Some (ast.BlockStmt
                [ast.AssignStmt [ast.Ident "s"] token.DEFINE
                   [ast.BasicLit token.INT "0"];
                 ast.RangeStmt (Some (ast.Ident "_")) (Some (ast.Ident "v"))
                   token.DEFINE (ast.Ident "a")
                   (ast.BlockStmt
                      [ast.AssignStmt [ast.Ident "s"] token.ASSIGN
                         [ast.BinaryExpr (ast.Ident "s") token.ADD
                            (ast.Ident "v")]]);
                 ast.ReturnStmt [ast.Ident "s"]]))].

Definition parseSample (src : string) : error + ast.Node :=
  if String.eqb src sampleSrc then inr sampleFile else inl eofError.

(** The memory after the root node of a file has been added. *)
Definition rootStore : store :=
  snd (addChild (mkStore [] None 0) None File Nop).

(** The value [Ast] stores in a [BasicLit] node for the lexeme [s]. *)
Definition litVal (s : string) : value :=
  match strconv.ParseInt s 0 0 with
  | (v, None) => IntVal v
  | (_, Some _) => StringVal s
  end.

(** ** Integer literals, read from the words

    The value a lexeme denotes when it is read as a signed integer
    literal, in unbounded integers and on characters rather than on the
    bytes and masks of [strconv]: an optional sign; then a base prefix
    ([0b], [0o] or [0x] followed by at least one more character, or a
    bare leading [0] for octal) or none for base 10; then digits of that
    base, with underscores only between digits or between the prefix and
    a digit.  This is the reading [strconv.ParseInt(s, 0, 0)] is compared
    with. *)

Module IntLiteral.

Definition code (c : ascii) : Z := Z.of_nat (nat_of_ascii c).

Definition between (lo hi c : ascii) : bool :=
  (code lo <=? code c) && (code c <=? code hi).

Definition letter (lo up c : ascii) : bool :=
  Ascii.eqb c lo || Ascii.eqb c up.

Definition splitSign (s : string) : bool * string :=
  match s with
  | String c s' =>
      if Ascii.eqb c "+" then (false, s')
      else if Ascii.eqb c "-" then (true, s')
      else (false, s)
  | EmptyString => (false, s)
  end.

(** The base, whether a prefix (or the leading zero) stands before the
    digits, and the digits. *)
Definition splitBase (body : string) : Z * bool * string :=
  match body with
  | String c0 rest =>
      if Ascii.eqb c0 "0"
      then match rest with
           | String c1 (String c2 rest2) =>
               if letter "b" "B" c1 then (2, true, String c2 rest2)
               else if letter "o" "O" c1 then (8, true, String c2 rest2)
               else if letter "x" "X" c1 then (16, true, String c2 rest2)
               else (8, true, rest)
           | _ => (8, true, rest)
           end
      else (10, false, body)
  | EmptyString => (10, false, body)
  end.

(** The value of a character as a digit: [0] to [9], then the letters,
    in either case, from 10 on. *)
Definition digit (c : ascii) : option Z :=
  if between "0" "9" c then Some (code c - code "0")
  else if between "a" "z" c then Some (code c - code "a" + 10)
  else if between "A" "Z" c then Some (code c - code "A" + 10)
  else None.

Definition digitOf (base : Z) (c : ascii) : option Z :=
  match digit c with
  | Some d => if d <? base then Some d else None
  | None => None
  end.

(** Horner's rule over the digits, underscores skipped. *)
Fixpoint digitsValue (base : Z) (s : string) (acc : Z) : option Z :=
  match s with
  | EmptyString => Some acc
  | String c s' =>
      if Ascii.eqb c "_" then digitsValue base s' acc
      else match digitOf base c with
           | Some d => digitsValue base s' (acc * base + d)
           | None => None
           end
  end.

(** Underscores separate digits: each one follows a digit (or the
    prefix) and the string does not end with one; [afterDigit] says that
    a digit or the prefix stands just before [s]. *)
Fixpoint separated (afterDigit : bool) (s : string) : bool :=
  match s with
  | EmptyString => afterDigit
  | String c s' =>
      if Ascii.eqb c "_" then afterDigit && separated false s'
      else separated true s'
  end.

Definition value (s : string) : option Z :=
  let '(neg, body) := splitSign s in
  let '(base, prefixed, digits) := splitBase body in
  if separated prefixed digits
  then match digitsValue base digits 0 with
       | Some u => Some (if neg then - u else u)
       | None => None
       end
  else None.

Definition minInt : Z := - 2 ^ 63.
Definition maxInt : Z := 2 ^ 63 - 1.

(** The reading of the lexeme the specification gives: an optional
    sign, then decimal digits, or one of the prefixes [0x], [0o], [0b]
    followed by digits of that base. *)
Fixpoint allDigits (base : Z) (s : string) : bool :=
  match s with
  | EmptyString => true
  | String c s' => negb (isNil (digitOf base c)) && allDigits base s'
  end.

Definition someDigits (base : Z) (s : string) : bool :=
  negb (String.eqb s "") && allDigits base s.

Definition matches (s : string) : bool :=
  let body := snd (splitSign s) in
  match body with
  | String c0 (String c1 rest) =>
      if negb (Ascii.eqb c0 "0") then someDigits 10 body
      else if letter "x" "X" c1 then someDigits 16 rest
      else if letter "o" "O" c1 then someDigits 8 rest
      else if letter "b" "B" c1 then someDigits 2 rest
      else someDigits 10 body
  | _ => someDigits 10 body
  end.

End IntLiteral.

Definition node_at (e : env) (p : ptr) : option Node := heap (mem e) !! p.

(** ** The two shapes of a visit

    Every visit of a syntax node other than a range statement allocates
    one node under the current ancestor, writes some of its fields other
    than the links, and pushes it; [pushed] is that step with the written
    fields as [f].  A range statement takes the step [rangePushed]. *)

Definition frame (f : Node -> Node) : Prop :=
  forall x,
    anc (f x) = anc x /\ index (f x) = index x /\ kind (f x) = kind x
    /\ action (f x) = action x /\ Start (f x) = Start x
    /\ Child (f x) = Child x.

Definition pushed (e : env) (k : Kind) (act : Action) (f : Node -> Node)
           (d : gmap string ptr) (out : list string) : env :=
  let '(n, m) := addChild (mem e) (top (st e)) k act in
  mkEnv (update m n f) (push (st e) n) d out.

Definition rangePushed (e : env) : env :=
  let '(n, m) := addChild (mem e) (top (st e)) ForRangeStmt Nop in
  let '(c, m) := addChild m (Some n) RangeStmt Range in
  mkEnv m (push (st e) c) (def e) (stdout e).

(** ** Invariants of the lowering

    [stack_ok]: every pointer on the ancestor stack is a node of the arena
    whose kind is not [ForRangeStmt].  [ranges_ok]: every [ForRangeStmt]
    node of the arena has exactly one child, a [RangeStmt] node with the
    [Range] action whose ancestor it is.  [indexes_ok]: the counter is the
    number of nodes allocated and the node at position [i] carries the
    index [i + 1], both as a wrapped [int]. *)

Definition stack_ok (e : env) : Prop :=
  forall p, p ∈ st e ->
    exists nd, node_at e p = Some nd /\ kind nd <> ForRangeStmt.

Definition ranges_ok (e : env) : Prop :=
  forall p nd, node_at e p = Some nd -> kind nd = ForRangeStmt ->
    exists c cn,
      Child nd = [c] /\ node_at e c = Some cn /\ kind cn = RangeStmt
      /\ action cn = Range /\ anc cn = Some p.

Definition indexes_ok (e : env) : Prop :=
  idx (mem e) = wrapInt (Z.of_nat (length (heap (mem e))))
  /\ forall i nd, node_at e i = Some nd -> index nd = wrapInt (Z.of_nat i + 1).

(** How a node of the arena before a step reads after it: the tags are
    kept and the children grow only by appending. *)
Definition kept (nd nd' : Node) : Prop :=
  kind nd' = kind nd /\ action nd' = action nd /\ anc nd' = anc nd
  /\ index nd' = index nd.

Definition lowering_inv (e : env) : Prop :=
  stack_ok e /\ ranges_ok e /\ indexes_ok e.

(** A sequence of calls is balanced when, from every state, the visitor
    returns on all of them and leaves the ancestor stack as it found
    it. *)
Definition balanced (calls : list (option ast.Node)) : Prop :=
  forall e, exists e', visitAll e calls = Returns e' /\ st e' = st e.

(** ** Observations on the result of one visit

    [lowered_node e a] is the node that the visit of the syntax node [a]
    leaves on top of the ancestor stack: the node created for [a]. *)

Definition lowered_node (e : env) (a : ast.Node) : option Node :=
  match visit e (Some a) with
  | Returns e' =>
      match top (st e') with
      | Some n => node_at e' n
      | None => None
      end
  | Panics _ => None
  end.


(** ** The package loader

    Modelled from the spec: the package loader (section 4.3 of the
    specification, with the error format of section 6), whose code is not
    among the source files; only its test, [example/pkg/pkg_test.go], is.
    A path is the list of its elements and prints with [/] between them.
    The file system is what the loader reads: for a directory, the source
    files in it with the package name each declares.  The text of the
    error for a path that resolves to no directory is not given by the
    specification and is a parameter. *)

Module Loader.

Abbreviation path := (list string).

Fixpoint join (sep : string) (l : list string) : string :=
  match l with
  | [] => ""
  | [x] => x
  | x :: l' => x +:+ sep +:+ join sep l'
  end.

Definition showPath (p : path) : string := join "/" p.

Record sourceFile := mkSource {
  package : string;
  source : string
}.

Abbreviation filesystem := (path -> option (list sourceFile)).

Record position := mkPos { line : Z; col : Z }.

Definition parent (p : path) : path := take (length p - 1) p.

(** Step 1 of the search order: walk from [A] upward, [n] levels at
    most, probing [A/vendor/P] at each directory; the first hit wins. *)
Fixpoint vendorWalk (fs : filesystem) (P : path) (n : nat) (A : path)
  : option path :=
  match fs (A ++ ["vendor"] ++ P) with
  | Some _ => Some (A ++ ["vendor"] ++ P)
  | None =>
      match n with
      | O => None
      | S n' => vendorWalk fs P n' (parent A)
      end
  end.

(** The search order for an import of [P] from the package at [Q] in
    the workspace rooted at [R]: the vendor walk from [Q] up to [R],
    then [R/src/P]; with module mode on and a manifest present
    ([modcache] is [Some]), the module cache instead. *)
Definition resolve (fs : filesystem) (modcache : option (path -> option path))
           (R Q P : path) : option path :=
  match modcache with
  | Some cache => cache P
  | None =>
      match vendorWalk fs P (length Q - length R) Q with
      | Some dir => Some dir
      | None =>
          match fs (R ++ ["src"] ++ P) with
          | Some _ => Some (R ++ ["src"] ++ P)
          | None => None
          end
      end
  end.

(** The package identity contract: the name the first file declares,
    and the first name after it that differs, if any. *)
Fixpoint otherName (A : string) (files : list sourceFile) : option string :=
  match files with
  | [] => None
  | f :: files' =>
      if String.eqb (package f) A then otherName A files'
      else Some (package f)
  end.

Inductive loaded :=
| Sources (contents : list string) (name : string)
| Failed (detail : string).

Section WithNotFound.

Variable notFound : path -> string.

Definition loadDir (dir : path) (P : path) (files : list sourceFile)
  : loaded :=
  match files with
  | [] => Failed (notFound P)
  | f :: files' =>
      match otherName (package f) files' with
      | Some B =>
          Failed ("found packages " +:+ package f +:+ " and " +:+ B
                  +:+ " in " +:+ showPath dir)
      | None => Sources (map source files) (package f)
      end
  end.

Definition load (fs : filesystem) (modcache : option (path -> option path))
           (R Q P : path) : loaded :=
  match resolve fs modcache R Q P with
  | Some dir =>
      match fs dir with
      | Some files => loadDir dir P files
      | None => Failed (notFound P)
      end
  | None => Failed (notFound P)
  end.

(** The error the host receives for a failed import at [pos]:
    [<line>:<col>: import "<path>" error: <detail>]. *)
Definition importError (pos : position) (P : path) (detail : string)
  : string :=
  strconv.Itoa (line pos) +:+ ":" +:+ strconv.Itoa (col pos)
  +:+ ": import " +:+ String (ascii_of_nat 34) (showPath P)
  +:+ String (ascii_of_nat 34) " error: " +:+ detail.

(** Importing [P] at [pos]: the sources and the package name, or the
    error message. *)
Definition import (fs : filesystem)
           (modcache : option (path -> option path))
           (R Q P : path) (pos : position)
  : string + (list string * string) :=
  match load fs modcache R Q P with
  | Sources contents name => inr (contents, name)
  | Failed detail => inl (importError pos P detail)
  end.

End WithNotFound.

(** The workspace [_pkg9/] of the test: one directory, whose two files
    declare the packages [pkg] and [pkgfalse]. *)
Definition pkg9 : filesystem := fun dir =>
  if decide (dir = ["_pkg9"; "src"; "github.com"; "foo"; "pkg"])
  then Some [mkSource "pkg" "package pkg"; mkSource "pkgfalse" "package pkgfalse"]
  else None.

Definition fooPkg : path := ["github.com"; "foo"; "pkg"].

Definition quote : string := String (ascii_of_nat 34) "".

(** The message the test expects for the workspace [_pkg9/]. *)
Definition pkg9Message : string :=
  "1:21: import " +:+ quote +:+ "github.com/foo/pkg" +:+ quote
  +:+ " error: found packages pkg and pkgfalse in _pkg9/src/github.com/foo/pkg".

End Loader.

(** ** Further invariants of the lowering

    [emits k act f] lists the ways in which the visitor creates a node:
    the kind and the action it passes to [addChild] and the fields it
    writes afterwards ([f]).  The pairs without a field write are the
    rows of [plain]; a basic literal writes [ident] and [val], an
    identifier writes [ident]. *)

Definition plain : list (Kind * Action) :=
  [ (ArrayType, Nop); (AssignStmt, AssignX); (AssignStmt, Assign);
    (BinaryExpr, Add); (BinaryExpr, And); (BinaryExpr, Equal);
    (BinaryExpr, Greater); (BinaryExpr, Lower); (BinaryExpr, Sub);
    (BinaryExpr, Nop); (BlockStmt, Nop); (Break, Nop); (Continue, Nop);
    (Undef, Nop); (CallExpr, Call); (CompositeLit, ArrayLit);
    (ExprStmt, Nop); (Field, Nop); (FieldList, Nop); (File, Nop);
    (For0, Nop); (For1, Nop); (For2, Nop); (For3, Nop); (For4, Nop);
    (FuncDecl, Nop); (FuncType, Nop); (If0, Nop); (If1, Nop); (If2, Nop);
    (If3, Nop); (IncDecStmt, Inc); (IncDecStmt, Dec); (IncDecStmt, Nop);
    (IndexExpr, GetIndex); (ParenExpr, Nop); (ForRangeStmt, Nop);
    (RangeStmt, Range); (ReturnStmt, Return) ].

Inductive emits : Kind -> Action -> (Node -> Node) -> Prop :=
| emits_plain k act : (k, act) ∈ plain -> emits k act (fun x => x)
| emits_lit s :
    emits BasicLit Nop (fun x => set_val (litVal s) (set_ident s x))
| emits_ident name : emits Ident Nop (set_ident name).

(** The line [fmt.Printf("Unknown kind for %T\n", a)] prints. *)
Definition unknownKind (typeName : string) : string :=
  "Unknown kind for " +:+ typeName +:+ newline.

(** What the nodes of an arena satisfy one by one. *)
Definition nodes_ok (P : ptr -> Node -> Prop) (e : env) : Prop :=
  forall i nd, node_at e i = Some nd -> P i nd.

(** The links of the arena form a forest: the ancestor of a node is an
    earlier node that lists it as a child; a child of a node is a later
    node that has it as ancestor; and the children of a node stand in
    the order of their construction. *)
Definition tree_ok (m : store) : Prop :=
  (forall i nd p,
      heap m !! i = Some nd -> anc nd = Some p ->
      (p < i)%nat /\ exists pn, heap m !! p = Some pn /\ i ∈ Child pn)
  /\ (forall p pn c,
         heap m !! p = Some pn -> c ∈ Child pn ->
         (p < c)%nat /\ exists cn, heap m !! c = Some cn /\ anc cn = Some p)
  /\ (forall p pn j1 j2 c1 c2,
         heap m !! p = Some pn -> (j1 < j2)%nat ->
         Child pn !! j1 = Some c1 -> Child pn !! j2 = Some c2 ->
         (c1 < c2)%nat).

Definition valid_parent (m : store) (parent : option ptr) : Prop :=
  forall a, parent = Some a -> (a < length (heap m))%nat.

(** The number of nodes one call of the visitor allocates. *)
Definition allocated (call : option ast.Node) : nat :=
  match call with
  | None => 0
  | Some (ast.RangeStmt _ _ _ _ _) => 2
  | Some _ => 1
  end.

(** The lines the visitor prints on a sequence of calls. *)
Definition diagnostics (calls : list (option ast.Node)) : list string :=
  omap (fun call =>
          match call with
          | Some (ast.Other typeName _) => Some (unknownKind typeName)
          | _ => None
          end) calls.

(** Every pair of kind and action with which the visitor creates a
    node. *)
Definition pairs : list (Kind * Action) :=
  (BasicLit, Nop) :: (Ident, Nop) :: plain.

(** The kind and the action both have a name in their table. *)
Definition named (ka : Kind * Action) : bool :=
  match Kind_String (fst ka), Action_String (snd ka) with
  | Returns s, Returns t =>
      negb (String.eqb s "") && negb (String.eqb t "")
      && bool_decide (s ∈ kinds) && bool_decide (t ∈ actions)
  | _, _ => false
  end.

(** The action goes with the kind: five kinds have an action of their
    own, and only eight kinds have an action other than [Nop]. *)
Definition consistent (ka : Kind * Action) : bool :=
  let '(k, a) := ka in
  implb (k =? CallExpr) (a =? Call)
  && implb (k =? CompositeLit) (a =? ArrayLit)
  && implb (k =? IndexExpr) (a =? GetIndex)
  && implb (k =? RangeStmt) (a =? Range)
  && implb (k =? ReturnStmt) (a =? Return)
  && implb (negb (a =? Nop))
           (existsb (Z.eqb k)
              [AssignStmt; BinaryExpr; CallExpr; CompositeLit; IncDecStmt;
               IndexExpr; RangeStmt; ReturnStmt])
  && negb (existsb (Z.eqb k)
             [BranchStmt; Fallthrough; ForStmt; Goto; IfStmt])
  && negb (a =? Println).


(** A sequence of calls is deep for [Q] when, from every state with a
    non-empty ancestor stack that satisfies [Q], the visitor returns on
    all of them, leaves the stack as it found it and keeps [Q].  A
    syntax node is rooted for [Q] when the calls of [ast.Inspect] on it
    do the same from any state, provided [Q] holds after the first
    call. *)
Definition deep (Q : env -> Prop) (calls : list (option ast.Node)) : Prop :=
  forall e, st e <> [] -> Q e ->
    exists e', visitAll e calls = Returns e' /\ st e' = st e /\ Q e'.

Definition rooted (Q : env -> Prop) (n : ast.Node) : Prop :=
  forall e e1, visit e (Some n) = Returns e1 -> Q e1 ->
    exists e', visitAll e (ast.Inspect n) = Returns e' /\ st e' = st e
               /\ Q e'.

(** The arena has one root: the root pointer is the first node, which
    has no ancestor and the kind [k], and every other node has an
    ancestor. *)
Definition single_root (k : Kind) (e : env) : Prop :=
  root (mem e) = Some 0%nat
  /\ (exists r, node_at e 0%nat = Some r /\ anc r = None /\ kind r = k)
  /\ forall i nd, node_at e i = Some nd -> anc nd = None -> i = 0%nat.

Definition rooted_inv (k : Kind) (e : env) : Prop :=
  lowering_inv e /\ single_root k e.


(** The definitions [Ast] records on one call of the visitor, [n] being
    the number of nodes allocated before the call. *)
Definition defines (call : option ast.Node) (n : ptr)
           (d : gmap string ptr) : gmap string ptr :=
  match call with
  | Some (ast.FuncDecl _ Name _ _) => <[Name := n]> d
  | _ => d
  end.

(** The definitions recorded on a sequence of calls that starts with [n]
    nodes allocated. *)
Fixpoint definitions (calls : list (option ast.Node)) (n : ptr)
         (d : gmap string ptr) : gmap string ptr :=
  match calls with
  | [] => d
  | call :: calls' =>
      definitions calls' (n + allocated call)%nat (defines call n d)
  end.

(** How a node of the arena reads later on: every field is as it was,
    except that children may have been appended. *)
Definition grown (nd nd' : Node) : Prop :=
  anc nd' = anc nd /\ index nd' = index nd /\ kind nd' = kind nd
  /\ action nd' = action nd /\ ident nd' = ident nd /\ val nd' = val nd
  /\ run nd' = run nd /\ Start nd' = Start nd
  /\ Child nd `prefix_of` Child nd'.

(** Every definition points to a node of the arena that was created for
    a function declaration. *)
Definition def_ok (e : env) : Prop :=
  forall name p, def e !! name = Some p ->
    exists nd, node_at e p = Some nd /\ kind nd = FuncDecl /\ action nd = Nop.

(** The fields of a node that do not depend on where it stands in the
    arena. *)
Definition tag (nd : Node) : Kind * Action * string * value :=
  (kind nd, action nd, ident nd, val nd).

(** The nodes one call of the visitor creates, read off the call alone:
    the arena after the same call on the initial state. *)
Definition created (call : option ast.Node)
  : list (Kind * Action * string * value) :=
  match call with
  | Some a =>
      match visit initial (Some a) with
      | Returns e1 => tag <$> heap (mem e1)
      | Panics _ => []
      end
  | None => []
  end.

(** A source with a declaration the visitor has no case for, and its
    syntax tree as [go/parser] builds it:

      package main
      var x int

    [parseDecl] stands for the parser on this source; it rejects every
    other source. *)
Definition declSrc : string := "package main; var x int".

Definition declFile : ast.Node :=
  ast.File "main"
    [ast.Other "*ast.GenDecl"
       [ast.Other "*ast.ValueSpec" [ast.Ident "x"; ast.Ident "int"]]].

Definition parseDecl (src : string) : error + ast.Node :=
  if String.eqb src declSrc then inr declFile else inl eofError.

(** The state of [Ast] after the visit of the root of a file. *)
Definition fileEnv : env := mkEnv rootStore [0%nat] ∅ [].

(** Identifiers and basic literals have no children in the syntax tree:
    [ast.Inspect] calls the visitor on them and then, at once, on nil. *)
Definition leaf (a : ast.Node) : bool :=
  match a with
  | ast.Ident _ | ast.BasicLit _ _ => true
  | _ => false
  end.

Definition leafkind (k : Kind) : bool := (k =? Ident) || (k =? BasicLit).

(** Between the visits of the children of a node, no node on the
    ancestor stack and no ancestor of a node of the arena is an
    identifier or a basic literal. *)
Definition inner_ok (e : env) : Prop :=
  lowering_inv e
  /\ (forall p, p ∈ st e ->
        exists pn, node_at e p = Some pn /\ leafkind (kind pn) = false)
  /\ (forall i nd p, node_at e i = Some nd -> anc nd = Some p ->
        exists pn, node_at e p = Some pn /\ leafkind (kind pn) = false).

(** A sequence of calls keeps [Q] when, from every state that satisfies
    [Q], the visitor returns on all of them, leaves the stack as it
    found it and keeps [Q]. *)
Definition keeps (Q : env -> Prop) (calls : list (option ast.Node)) : Prop :=
  forall e, Q e ->
    exists e', visitAll e calls = Returns e' /\ st e' = st e /\ Q e'.
(** * Properties *)

(** ** The embedding on concrete inputs *)

Example ParseInt_examples :
  strconv.ParseInt "42" 0 0 = (42, None)
  /\ strconv.ParseInt "0x1F" 0 0 = (31, None)
  /\ strconv.ParseInt "-0b101" 0 0 = (-5, None)
  /\ strconv.ParseInt "0777" 0 0 = (511, None)
  /\ strconv.ParseInt "0" 0 0 = (0, None)
  /\ strconv.ParseInt "1_000" 0 0 = (1000, None)
  /\ strconv.ParseInt "1__000" 0 0 = (0, Some strconv.ErrSyntax)
  /\ strconv.ParseInt "0x" 0 0 = (0, Some strconv.ErrSyntax)
  /\ strconv.ParseInt "3.14" 0 0 = (0, Some strconv.ErrSyntax)
  /\ strconv.ParseInt "9223372036854775807" 0 0
     = (9223372036854775807, None)
  /\ strconv.ParseInt "9223372036854775808" 0 0
     = (9223372036854775807, Some strconv.ErrRange)
  /\ strconv.ParseInt "-9223372036854775808" 0 0
     = (-9223372036854775808, None)
  /\ strconv.ParseInt "99999999999999999999999" 0 0
     = (9223372036854775807, Some strconv.ErrRange).
Proof. repeat split. Qed.

Example value_examples :
  IntLiteral.value "42" = Some 42
  /\ IntLiteral.value "-0b101" = Some (-5)
  /\ IntLiteral.value "0x1F" = Some 31
  /\ IntLiteral.value "0777" = Some 511
  /\ IntLiteral.value "0_7" = Some 7
  /\ IntLiteral.value "1_000" = Some 1000
  /\ IntLiteral.value "1__000" = None
  /\ IntLiteral.value "_1" = None
  /\ IntLiteral.value "1_" = None
  /\ IntLiteral.value "08" = None
  /\ IntLiteral.value "0x" = None
  /\ IntLiteral.value "+" = None
  /\ IntLiteral.value "" = None
  /\ IntLiteral.value "3.14" = None
  /\ IntLiteral.value "9223372036854775808" = Some 9223372036854775808.
Proof. repeat split. Qed.

Example String_examples :
  length kinds = 37%nat
  /\ Kind_String File = Returns "File"
  /\ Kind_String CompositeLit = Returns "CompositLit"
  /\ Kind_String Fallthrough = Returns "kind(12)"
  /\ Kind_String (-5) = Returns "kind(-5)"
  /\ Kind_String 38 = Returns "kind(38)"
  /\ Kind_String 37 = Panics (PanicIndex 37 37)
  /\ Action_String Assign = Returns "="
  /\ Action_String Sub = Returns "-"
  /\ Action_String 100 = Returns "action(100)".
Proof. repeat split. Qed.

(** Comparisons in [bool] as propositions, for [lia]. *)
Ltac zbool :=
  repeat match goal with
         | H : (_ >? _) = _ |- _ => rewrite Z.gtb_ltb in H
         | H : (_ >=? _) = _ |- _ => rewrite Z.geb_leb in H
         | H : (_ <=? _) = true |- _ => apply Z.leb_le in H
         | H : (_ <=? _) = false |- _ => apply Z.leb_gt in H
         | H : (_ <? _) = true |- _ => apply Z.ltb_lt in H
         | H : (_ <? _) = false |- _ => apply Z.ltb_ge in H
         | H : (_ =? _) = true |- _ => apply Z.eqb_eq in H
         | H : (_ =? _) = false |- _ => apply Z.eqb_neq in H
         end.

(** ** strconv.ParseInt against the reading of integer literals *)

Module ParseIntFacts.
Import strconv IntLiteral.

(** *** Characters and bytes *)

Ltac each_ascii c :=
  destruct c as [b0 b1 b2 b3 b4 b5 b6 b7];
  destruct b0, b1, b2, b3, b4, b5, b6, b7.

Lemma digit_digitVal c : digit c = digitVal (byte c).
Proof. each_ascii c; reflexivity. Qed.

Lemma underscore_byte c : Ascii.eqb c "_" = (byte c =? 95).
Proof. each_ascii c; reflexivity. Qed.

Lemma plus_byte c : Ascii.eqb c "+" = (byte c =? 43).
Proof. each_ascii c; reflexivity. Qed.

Lemma minus_byte c : Ascii.eqb c "-" = (byte c =? 45).
Proof. each_ascii c; reflexivity. Qed.

Lemma zero_byte c : Ascii.eqb c "0" = (byte c =? 48).
Proof. each_ascii c; reflexivity. Qed.

Lemma letter_b c : letter "b" "B" c = (lower (byte c) =? 98).
Proof. each_ascii c; reflexivity. Qed.

Lemma letter_o c : letter "o" "O" c = (lower (byte c) =? 111).
Proof. each_ascii c; reflexivity. Qed.

Lemma letter_x c : letter "x" "X" c = (lower (byte c) =? 120).
Proof. each_ascii c; reflexivity. Qed.

Lemma prefix_letter_no_octal c :
  (lower (byte c) =? 98) || (lower (byte c) =? 111) || (lower (byte c) =? 120)
  = true ->
  Ascii.eqb c "_" = false /\ digitOf 8 c = None.
Proof.
  each_ascii c; vm_compute; intros H;
    first [discriminate H | split; reflexivity].
Qed.

Lemma digitOf_digitVal base c :
  digitOf base c =
  match digitVal (byte c) with
  | Some d => if d <? base then Some d else None
  | None => None
  end.
Proof. unfold digitOf. rewrite digit_digitVal. reflexivity. Qed.

(** *** The digit loop *)

Lemma byte_nonneg c : 0 <= byte c.
Proof. unfold byte. lia. Qed.

Lemma digitVal_nonneg c d : digitVal c = Some d -> 0 <= d.
Proof.
  unfold digitVal.
  destruct ((48 <=? c) && (c <=? 57)) eqn:E1.
  - intros [= <-]. apply andb_true_iff in E1 as [H _]. lia.
  - destruct ((97 <=? lower c) && (lower c <=? 122)) eqn:E2; [|discriminate].
    intros [= <-]. apply andb_true_iff in E2 as [H _]. lia.
Qed.

Lemma digitOf_range base c d : digitOf base c = Some d -> 0 <= d < base.
Proof.
  rewrite digitOf_digitVal.
  destruct (digitVal (byte c)) as [d'|] eqn:E; [|discriminate].
  destruct (d' <? base) eqn:Hlt; [|discriminate].
  intros [= <-]. apply digitVal_nonneg in E. lia.
Qed.

Lemma digitsValue_ge base s : forall acc v,
  1 <= base -> 0 <= acc -> digitsValue base s acc = Some v -> acc <= v.
Proof.
  induction s as [|c s IH]; simpl; intros acc v Hb Hacc H.
  - injection H as <-. lia.
  - destruct (Ascii.eqb c "_"); [eauto|].
    destruct (digitOf base c) as [d|] eqn:Hd; [|discriminate].
    apply digitOf_range in Hd. apply IH in H; nia.
Qed.

Lemma cutoff_mul base n :
  2 <= base -> 0 <= n ->
  (n < maxUint64 / base + 1 <-> n * base <= maxUint64).
Proof.
  intros Hb Hn.
  pose proof (Z.div_mod maxUint64 base ltac:(lia)) as Hdm.
  pose proof (Z.mod_pos_bound maxUint64 base ltac:(lia)) as Hm.
  split; intros H; nia.
Qed.

(** The loop of [ParseUint] computes the value of the digits exactly, and
    leaves early only for a byte that is no digit of the base or for a
    value beyond [maxUint64]. *)
Lemma parseLoop_spec base s : forall n u,
  2 <= base <= 36 -> 0 <= n <= maxUint64 ->
  match parseLoop true base (maxUint64 / base + 1) maxUint64 s n u with
  | inr (n', u') =>
      digitsValue base s n = Some n' /\ 0 <= n' <= maxUint64
      /\ (u' = false -> u = false /\ noUnderscore s = true)
  | inl (x, e) =>
      ((e = ErrSyntax /\ x = 0) \/ (e = ErrRange /\ x = maxUint64))
      /\ forall v, digitsValue base s n = Some v -> maxUint64 < v
  end.
Proof.
  induction s as [|c s IH]; intros n u Hb Hn; simpl.
  - auto.
  - rewrite underscore_byte.
    destruct (byte c =? 95) eqn:Hus; simpl.
    + specialize (IH n true Hb Hn).
      destruct (parseLoop true base _ maxUint64 s n true) as [[x e]|[n' u']].
      * exact IH.
      * destruct IH as (H1 & H2 & H3).
        split; [exact H1|]. split; [exact H2|].
        intros Hu. destruct (H3 Hu); discriminate.
    + rewrite digitOf_digitVal.
      destruct (digitVal (byte c)) as [d|] eqn:Hd.
      2:{ split; [auto|discriminate]. }
      pose proof (digitVal_nonneg _ _ Hd) as Hd0.
      destruct (d >=? base) eqn:Hge.
      { assert ((d <? base) = false) as -> by lia.
        split; [auto|discriminate]. }
      assert ((d <? base) = true) as -> by lia.
      pose proof (cutoff_mul base n ltac:(lia) ltac:(lia)) as Hcut.
      destruct (n >=? maxUint64 / base + 1) eqn:Hc.
      { split; [auto|]. intros v Hv.
        apply digitsValue_ge in Hv; [|lia|nia].
        assert (~ n * base <= maxUint64) by (intros ?; lia). lia. }
      assert (Hnb : n * base <= maxUint64) by (apply Hcut; lia).
      assert (Hw : wrap64 (n * base) = n * base).
      { unfold wrap64. apply Z.mod_small. unfold maxUint64 in *. nia. }
      rewrite Hw.
      destruct (Z_lt_ge_dec (n * base + d) (2 ^ 64)) as [Hsmall|Hbig].
      * assert (Hw1 : wrap64 (n * base + d) = n * base + d).
        { unfold wrap64. apply Z.mod_small. nia. }
        rewrite Hw1.
        assert ((n * base + d <? n * base) || (n * base + d >? maxUint64) = false) as ->.
        { apply orb_false_iff. unfold maxUint64. split; lia. }
        specialize (IH (n * base + d) u Hb).
        destruct (parseLoop true base _ maxUint64 s (n * base + d) u) as [[x e]|[n' u']].
        -- apply IH. unfold maxUint64. nia.
        -- destruct IH as (H1 & H2 & H3); [unfold maxUint64; nia|].
           split; [exact H1|]. split; [exact H2|].
           intros Hu. destruct (H3 Hu) as [-> ->]. auto.
      * assert (Hw1 : wrap64 (n * base + d) = n * base + d - 2 ^ 64).
        { unfold wrap64. symmetry.
          apply (Z.mod_unique (n * base + d) (2 ^ 64) 1); unfold maxUint64 in *; lia. }
        rewrite Hw1.
        assert ((n * base + d - 2 ^ 64 <? n * base) || (n * base + d - 2 ^ 64 >? maxUint64) = true) as ->.
        { apply orb_true_iff. left. unfold maxUint64 in *. lia. }
        split; [auto|]. intros v Hv.
        apply digitsValue_ge in Hv; unfold maxUint64 in *; lia.
Qed.

Lemma scan_noUnderscore hex s : forall saw,
  noUnderscore s = true -> saw <> 95 ->
  exists saw', underscoreScan hex s saw = Some saw' /\ saw' <> 95.
Proof.
  induction s as [|c s IH]; simpl; intros saw Hs Hsaw.
  - eauto.
  - apply andb_true_iff in Hs as [Hc Hs].
    apply negb_true_iff in Hc. rewrite Hc.
    destruct (_ || _).
    + apply IH; [assumption|lia].
    + assert ((saw =? 95) = false) as -> by lia.
      apply IH; [assumption|lia].
Qed.

Lemma underscoreOK_noUnderscore s :
  noUnderscore s = true -> underscoreOK s = true.
Proof.
  intros Hs. unfold underscoreOK.
  set (s1 := match s with
             | String c s' => if isSign c then s' else s
             | EmptyString => s
             end).
  assert (Hs1 : noUnderscore s1 = true).
  { subst s1. destruct s as [|c s']; [reflexivity|].
    destruct (isSign c); [|assumption].
    simpl in Hs. apply andb_true_iff in Hs. tauto. }
  clearbody s1.
  assert (Hscan : forall hex t, noUnderscore t = true ->
            match underscoreScan hex t 94 with
            | Some saw => negb (saw =? 95)
            | None => false
            end = true
            /\ match underscoreScan hex t 48 with
               | Some saw => negb (saw =? 95)
               | None => false
               end = true).
  { intros hex t Ht. split.
    - destruct (scan_noUnderscore hex t 94 Ht ltac:(lia)) as (w & -> & Hw).
      apply negb_true_iff. lia.
    - destruct (scan_noUnderscore hex t 48 Ht ltac:(lia)) as (w & -> & Hw).
      apply negb_true_iff. lia. }
  destruct s1 as [|c0 [|c1 s2]].
  - reflexivity.
  - apply Hscan. assumption.
  - destruct (isBasePrefix c0 c1).
    + apply Hscan. simpl in Hs1.
      apply andb_true_iff in Hs1 as [_ Hs1].
      apply andb_true_iff in Hs1 as [_ Hs1]. assumption.
    + apply Hscan. assumption.
Qed.

Lemma lower_95 c : byte c = 95 -> lower (byte c) = 127.
Proof. intros ->. reflexivity. Qed.

Lemma detectBase_spec body :
  2 <= fst (detectBase body) <= 36
  /\ (noUnderscore (snd (detectBase body)) = true ->
      noUnderscore body = true).
Proof.
  unfold detectBase.
  destruct body as [|c0 rest]; [simpl; split; [lia|auto]|].
  destruct (byte c0 =? 48) eqn:H0; [|simpl; split; [lia|auto]].
  assert (Hc0 : (byte c0 =? 95) = false) by lia.
  destruct rest as [|c1 s2]; [simpl; rewrite Hc0; split; [lia|auto]|].
  assert (Hc1 : forall k, k <> 127 -> (lower (byte c1) =? k) = true ->
                           (byte c1 =? 95) = false).
  { intros k Hk H. destruct (byte c1 =? 95) eqn:E; [|reflexivity].
    apply Z.eqb_eq in E. rewrite (lower_95 _ E) in H. lia. }
  destruct (3 <=? _); cbn [andb].
  2:{ simpl. rewrite Hc0. split; [lia|auto]. }
  destruct (lower (byte c1) =? 98) eqn:E1.
  { simpl. rewrite Hc0, (Hc1 98) by (assumption || lia). split; [lia|auto]. }
  destruct (lower (byte c1) =? 111) eqn:E2.
  { simpl. rewrite Hc0, (Hc1 111) by (assumption || lia). split; [lia|auto]. }
  destruct (lower (byte c1) =? 120) eqn:E3.
  { simpl. rewrite Hc0, (Hc1 120) by (assumption || lia). split; [lia|auto]. }
  simpl. rewrite Hc0. split; [lia|auto].
Qed.

Lemma maxVal_64 : wrap64 (wrap64 (Z.shiftl 1 intSize) - 1) = maxUint64.
Proof. reflexivity. Qed.

(** [ParseUint(body, 0, 0)] on a non-empty string. *)
Lemma ParseUint_spec body :
  body <> "" ->
  match ParseUint body 0 0 with
  | (n, None) =>
      underscoreOK body = true
      /\ digitsValue (fst (detectBase body)) (snd (detectBase body)) 0 = Some n
      /\ 0 <= n <= maxUint64
  | (x, Some e) =>
      ((e = ErrSyntax /\ x = 0) \/ (e = ErrRange /\ x = maxUint64))
      /\ (underscoreOK body = true ->
          forall v, digitsValue (fst (detectBase body))
                                (snd (detectBase body)) 0 = Some v ->
                    maxUint64 < v)
  end.
Proof.
  intros Hne. unfold ParseUint.
  assert (String.eqb body "" = false) as ->.
  { apply String.eqb_neq. assumption. }
  cbn -[detectBase parseLoop underscoreOK maxUint64 Z.div wrap64 Z.shiftl intSize].
  destruct (detectBase_spec body) as [Hbase Hus].
  destruct (detectBase body) as [base digits]. simpl in Hbase, Hus.
  rewrite maxVal_64.
  pose proof (parseLoop_spec base digits 0 false Hbase
                ltac:(unfold maxUint64; lia)) as Hloop.
  cbn [fst snd].
  destruct (parseLoop true base _ maxUint64 digits 0 false) as [[x e]|[n u]].
  - destruct Hloop as [He Hv]. split; [exact He|]. intros _. exact Hv.
  - destruct Hloop as (Hval & Hn & Hu).
    destruct u; simpl.
    + destruct (underscoreOK body) eqn:Hok; simpl.
      * auto.
      * split; [auto|discriminate].
    + destruct (Hu eq_refl) as [_ Hno].
      rewrite (underscoreOK_noUnderscore body (Hus Hno)). auto.
Qed.

(** *** The reading on characters against the bytes of strconv *)

Lemma splitSign_bytes s :
  splitSign s =
  match s with
  | String c s' =>
      if byte c =? 43 then (false, s')
      else if byte c =? 45 then (true, s')
      else (false, s)
  | EmptyString => (false, s)
  end.
Proof.
  destruct s as [|c s']; [reflexivity|].
  unfold splitSign. rewrite plus_byte, minus_byte. reflexivity.
Qed.

Lemma splitBase_detectBase body :
  detectBase body = (fst (fst (splitBase body)), snd (splitBase body)).
Proof.
  unfold detectBase, splitBase.
  destruct body as [|c0 rest]; [reflexivity|].
  rewrite zero_byte. destruct (byte c0 =? 48); [|reflexivity].
  destruct rest as [|c1 [|c2 rest2]]; [reflexivity| |].
  - cbn [String.length Z.of_nat]. cbn [Z.leb Z.compare Pos.compare Pos.compare_cont Pos.of_succ_nat Pos.succ andb].
    reflexivity.
  - assert ((3 <=? Z.of_nat (String.length (String c0 (String c1 (String c2 rest2))))) = true) as ->.
    { apply Z.leb_le. cbn [String.length]. lia. }
    cbn [andb]. rewrite letter_b, letter_o, letter_x.
    destruct (lower (byte c1) =? 98); [reflexivity|].
    destruct (lower (byte c1) =? 111); [reflexivity|].
    destruct (lower (byte c1) =? 120); reflexivity.
Qed.

Lemma splitBase_base body :
  let base := fst (fst (splitBase body)) in
  base = 2 \/ base = 8 \/ base = 10 \/ base = 16.
Proof.
  unfold splitBase. destruct body as [|c0 rest]; [simpl; auto|].
  destruct (Ascii.eqb c0 "0"); [|simpl; auto].
  destruct rest as [|c1 [|c2 rest2]]; [simpl; auto|simpl; auto|].
  destruct (letter "b" "B" c1); [simpl; auto|].
  destruct (letter "o" "O" c1); [simpl; auto|].
  destruct (letter "x" "X" c1); simpl; auto.
Qed.

(** A digit of the base passes the digit test of [underscoreOK]. *)
Lemma scan_digit_test base hex c d :
  digitOf base c = Some d ->
  base <= 10 \/ (base <= 16 /\ hex = true) ->
  ((48 <=? byte c) && (byte c <=? 57))
  || (hex && (97 <=? lower (byte c)) && (lower (byte c) <=? 102)) = true.
Proof.
  rewrite digitOf_digitVal. unfold digitVal. intros Hd Hb.
  destruct ((48 <=? byte c) && (byte c <=? 57)) eqn:E1; [reflexivity|].
  destruct ((97 <=? lower (byte c)) && (lower (byte c) <=? 122)) eqn:E2;
    [|discriminate].
  destruct (lower (byte c) - 97 + 10 <? base) eqn:E3; [|discriminate].
  apply andb_true_iff in E2 as [H1 H2]. zbool.
  destruct Hb as [Hb|[Hb ->]]; [lia|].
  cbn [orb andb]. apply andb_true_iff. split; lia.
Qed.

Lemma scan_separated base hex s : forall saw acc u,
  base <= 10 \/ (base <= 16 /\ hex = true) ->
  digitsValue base s acc = Some u ->
  saw = 48 \/ saw = 95 \/ (saw = 94 /\ s <> EmptyString) ->
  match underscoreScan hex s saw with
  | Some w => negb (w =? 95)
  | None => false
  end = separated (saw =? 48) s.
Proof.
  induction s as [|c s IH]; intros saw acc u Hb Hv Hsaw.
  - destruct Hsaw as [->|[->|[_ H]]]; [reflexivity|reflexivity|congruence].
  - cbn [underscoreScan separated digitsValue] in *.
    rewrite underscore_byte in *.
    destruct (byte c =? 95) eqn:Hus.
    + apply Z.eqb_eq in Hus. rewrite Hus.
      replace (lower 95) with 127 by reflexivity.
      cbn [Z.leb Z.compare Pos.compare Pos.compare_cont andb orb negb].
      rewrite andb_false_r. cbn [Z.eqb Pos.eqb].
      destruct (saw =? 48) eqn:H48; cbn [negb andb]; [|reflexivity].
      rewrite (IH 95 acc u Hb Hv) by auto. reflexivity.
    + destruct (digitOf base c) as [d|] eqn:Hd; [|discriminate].
      rewrite (scan_digit_test base hex c d Hd Hb).
      rewrite (IH 48 _ u Hb Hv) by auto. reflexivity.
Qed.

Lemma scan_decimal hex c s saw :
  (48 <=? byte c) && (byte c <=? 57) = true ->
  underscoreScan hex (String c s) saw = underscoreScan hex s 48.
Proof. intros H. cbn [underscoreScan]. rewrite H. reflexivity. Qed.

(** On a string whose digits are digits of the base, [underscoreOK]
    decides that the underscores separate digits. *)
Lemma underscoreOK_separated body u :
  digitsValue (fst (fst (splitBase body))) (snd (splitBase body)) 0 = Some u ->
  body <> EmptyString ->
  underscoreOK body = separated (snd (fst (splitBase body))) (snd (splitBase body)).
Proof.
  intros Hv Hne. destruct body as [|c0 rest]; [congruence|].
  unfold splitBase in *. rewrite zero_byte in *.
  destruct (byte c0 =? 48) eqn:H0.
  - (* a leading zero *)
    assert (Hs : isSign c0 = false).
    { unfold isSign. apply Z.eqb_eq in H0. rewrite H0. reflexivity. }
    unfold underscoreOK. rewrite Hs.
    assert (Hz : ((48 <=? byte c0) && (byte c0 <=? 57)) = true).
    { apply Z.eqb_eq in H0. rewrite H0. reflexivity. }
    destruct rest as [|c1 [|c2 rest2]].
    + rewrite scan_decimal by exact Hz. reflexivity.
    + cbn [fst snd] in *.
      unfold isBasePrefix. rewrite H0. cbn [andb].
      destruct ((lower (byte c1) =? 98) || (lower (byte c1) =? 111)
                || (lower (byte c1) =? 120)) eqn:Hp.
      * exfalso. cbn [digitsValue] in Hv.
        destruct (prefix_letter_no_octal c1 Hp) as [Hus Hd].
        rewrite Hus, Hd in Hv. discriminate Hv.
      * rewrite scan_decimal by exact Hz.
        apply (scan_separated 8 false _ 48 0 u); [lia|exact Hv|auto].
    + destruct (letter "b" "B" c1) eqn:Lb;
        [|destruct (letter "o" "O" c1) eqn:Lo;
          [|destruct (letter "x" "X" c1) eqn:Lx]];
        cbn [fst snd] in *;
        rewrite ?letter_b, ?letter_o, ?letter_x in *;
        unfold isBasePrefix; rewrite H0; cbn [andb];
        rewrite ?Lb, ?Lo, ?Lx; cbn [orb].
      * assert (Hx : (lower (byte c1) =? 120) = false) by (zbool; lia).
        rewrite Hx.
        apply (scan_separated 2 false _ 48 0 u); [lia|exact Hv|auto].
      * assert (Hx : (lower (byte c1) =? 120) = false) by (zbool; lia).
        rewrite Hx.
        apply (scan_separated 8 false _ 48 0 u); [lia|exact Hv|auto].
      * apply (scan_separated 16 true _ 48 0 u); [right; split; [lia|reflexivity]|exact Hv|auto].
      * rewrite scan_decimal by exact Hz.
        apply (scan_separated 8 false _ 48 0 u); [lia|exact Hv|auto].
  - (* base 10 *)
    cbn [fst snd] in *.
    assert (Hs : isSign c0 = false).
    { unfold isSign. cbn [digitsValue] in Hv. rewrite underscore_byte in Hv.
      destruct (byte c0 =? 95) eqn:Hus.
      - apply Z.eqb_eq in Hus. rewrite Hus. reflexivity.
      - rewrite digitOf_digitVal in Hv. unfold digitVal in Hv.
        destruct (byte c0 =? 45) eqn:H45; [zbool; rewrite H45 in Hv; discriminate Hv|].
        destruct (byte c0 =? 43) eqn:H43; [zbool; rewrite H43 in Hv; discriminate Hv|].
        reflexivity. }
    unfold underscoreOK. rewrite Hs.
    assert (Hnp : forall c1, isBasePrefix c0 c1 = false).
    { intros c1. unfold isBasePrefix. rewrite H0. reflexivity. }
    destruct rest as [|c1 s']; [|rewrite Hnp];
      apply (scan_separated 10 false _ 94 0 u); auto; lia.
Qed.

Lemma ParseInt_unfold s :
  ParseInt s 0 0 =
  if String.eqb s "" then (0, Some ErrSyntax)
  else
    match ParseUint (snd (splitSign s)) 0 0 with
    | (_, Some ErrSyntax) => (0, Some ErrSyntax)
    | (_, Some ErrBase) => (0, Some ErrBase)
    | (_, Some ErrBitSize) => (0, Some ErrBitSize)
    | (un, _) =>
        if negb (fst (splitSign s)) && (un >=? 2 ^ 63)
        then (2 ^ 63 - 1, Some ErrRange)
        else if fst (splitSign s) && (un >? 2 ^ 63)
        then (- 2 ^ 63, Some ErrRange)
        else (if fst (splitSign s) then - un else un, None)
    end.
Proof.
  rewrite splitSign_bytes. unfold ParseInt.
  destruct (String.eqb s ""); [reflexivity|].
  destruct s as [|c s']; [reflexivity|].
  destruct (byte c =? 43); [reflexivity|].
  destruct (byte c =? 45); reflexivity.
Qed.

(** [strconv.ParseInt(s, 0, 0)] succeeds with [v] exactly when [s] reads
    as an integer literal of value [v] and [v] fits a 64-bit [int]. *)
Lemma ParseInt_spec s v :
  ParseInt s 0 0 = (v, None)
  <-> value s = Some v /\ minInt <= v <= maxInt.
Proof.
  rewrite ParseInt_unfold. unfold value, minInt, maxInt.
  destruct (String.eqb s "") eqn:Hs.
  { apply String.eqb_eq in Hs. subst s. simpl. split; [discriminate|].
    intros [H _]. discriminate. }
  destruct (splitSign s) as [neg body]. cbn [fst snd].
  destruct (String.eqb body "") eqn:Hb.
  { apply String.eqb_eq in Hb. subst body. simpl. split; [discriminate|].
    intros [H _]. discriminate. }
  apply String.eqb_neq in Hb.
  pose proof (ParseUint_spec body Hb) as Hu.
  pose proof (underscoreOK_separated body) as Hsep.
  rewrite splitBase_detectBase in Hu. cbn [fst snd] in Hu.
  destruct (splitBase body) as [[base prefixed] digits]. cbn [fst snd] in *.
  destruct (ParseUint body 0 0) as [x [e|]].
  - destruct Hu as [He Hv].
    assert (Hrhs : ~ ((if separated prefixed digits
                       then match digitsValue base digits 0 with
                            | Some u => Some (if neg then - u else u)
                            | None => None
                            end
                       else None) = Some v /\ - 2 ^ 63 <= v <= 2 ^ 63 - 1)).
    { intros [H Hr].
      destruct (digitsValue base digits 0) as [u|] eqn:Hd;
        [|destruct (separated prefixed digits); discriminate].
      rewrite <- (Hsep u eq_refl Hb) in H.
      destruct (underscoreOK body); [|discriminate].
      specialize (Hv eq_refl u eq_refl). unfold maxUint64 in Hv.
      injection H as <-. destruct neg; lia. }
    destruct He as [[-> ->]|[-> ->]].
    + split; [discriminate|]. intros H. destruct (Hrhs H).
    + split; [|intros H; destruct (Hrhs H)].
      unfold maxUint64. destruct neg; simpl; discriminate.
  - destruct Hu as (Hok & Hval & Hn).
    rewrite <- (Hsep x Hval Hb), Hok, Hval.
    unfold maxUint64 in Hn.
    destruct neg; cbn [negb andb].
    + destruct (x >? 2 ^ 63) eqn:Hc.
      * split; [discriminate|]. intros [[= <-] Hr]. lia.
      * split; [intros [= <-]; split; [reflexivity|lia]|].
        intros [[= <-] _]. reflexivity.
    + destruct (x >=? 2 ^ 63) eqn:Hc.
      * split; [discriminate|]. intros [[= <-] Hr]. lia.
      * split; [intros [= <-]; split; [reflexivity|lia]|].
        intros [[= <-] _]. reflexivity.
Qed.

Lemma ParseInt_total s :
  (exists v, ParseInt s 0 0 = (v, None))
  \/ (exists v e, ParseInt s 0 0 = (v, Some e)).
Proof.
  destruct (ParseInt s 0 0) as [v [e|]]; eauto.
Qed.

End ParseIntFacts.

(** ** The arena under addChild *)

Section Arena.

Implicit Types (m : store) (e : env) (p n : ptr) (f : Node -> Node).

Lemma addChild_fst m anc k act :
  fst (addChild m anc k act) = length (heap m).
Proof. unfold addChild. destruct anc; reflexivity. Qed.

Lemma addChild_length m anc k act :
  length (heap (snd (addChild m anc k act))) = S (length (heap m)).
Proof.
  unfold addChild. destruct anc; simpl;
    rewrite ?length_alter, length_app; simpl; lia.
Qed.

Lemma addChild_idx m anc k act :
  idx (snd (addChild m anc k act)) = wrapInt (idx m + 1).
Proof. unfold addChild. destruct anc; reflexivity. Qed.

Lemma addChild_root m anc k act :
  root (snd (addChild m anc k act)) =
  match anc with
  | None => Some (length (heap m))
  | Some _ => root m
  end.
Proof. unfold addChild. destruct anc; reflexivity. Qed.

Lemma addChild_heap m anc k act :
  heap (snd (addChild m anc k act)) =
  match anc with
  | None => heap m ++ [fresh m anc k act]
  | Some a =>
      alter (append_Child (length (heap m))) a
            (heap m ++ [fresh m anc k act])
  end.
Proof. unfold addChild. destruct anc; reflexivity. Qed.

Lemma addChild_lookup_new m anc k act :
  anc <> Some (length (heap m)) ->
  heap (snd (addChild m anc k act)) !! length (heap m)
  = Some (fresh m anc k act).
Proof.
  intros Hanc. rewrite addChild_heap. destruct anc as [a|].
  - rewrite list_lookup_alter_ne by congruence.
    apply list_lookup_middle. reflexivity.
  - apply list_lookup_middle. reflexivity.
Qed.

Lemma addChild_lookup_old m anc k act p :
  (p < length (heap m))%nat ->
  heap (snd (addChild m anc k act)) !! p =
  if decide (anc = Some p)
  then append_Child (length (heap m)) <$> heap m !! p
  else heap m !! p.
Proof.
  intros Hp. rewrite addChild_heap. destruct anc as [a|].
  - destruct (decide (Some a = Some p)) as [[= ->]|Hne].
    + rewrite list_lookup_alter_eq, lookup_app_l by assumption. reflexivity.
    + rewrite list_lookup_alter_ne by congruence.
      apply lookup_app_l. assumption.
  - destruct (decide (None = Some p)); [discriminate|].
    apply lookup_app_l. assumption.
Qed.

Lemma update_id m n : update m n (fun x => x) = m.
Proof.
  unfold update. rewrite list_alter_id by reflexivity.
  destruct m; reflexivity.
Qed.

Lemma update_update m n f g :
  update (update m n f) n g = update m n (fun x => g (f x)).
Proof.
  unfold update. simpl. rewrite list_alter_alter_eq. reflexivity.
Qed.

Lemma frame_id : frame (fun x => x).
Proof. intros x. tauto. Qed.

Lemma frame_set_ident s : frame (set_ident s).
Proof. intros x. simpl. tauto. Qed.

Lemma frame_set_val v : frame (set_val v).
Proof. intros x. simpl. tauto. Qed.

Lemma frame_compose f g : frame f -> frame g -> frame (fun x => g (f x)).
Proof.
  intros Hf Hg x. specialize (Hf x). specialize (Hg (f x)).
  intuition congruence.
Qed.

Lemma pushChild_pushed e k act :
  pushChild e (top (st e)) k act
  = pushed e k act (fun x => x) (def e) (stdout e).
Proof.
  unfold pushChild, pushed.
  destruct (addChild (mem e) (top (st e)) k act) as [n m].
  rewrite update_id. reflexivity.
Qed.

End Arena.

(** ** The shape of a visit *)

Ltac shape_push :=
  left; rewrite pushChild_pushed;
  match goal with
  | |- context [Returns (pushed ?e ?k ?act ?f ?d ?out)] =>
      exists k, act, f, d, out
  end;
  split; [| split; [apply frame_id | reflexivity]].

Lemma visit_BasicLit e tk lexeme :
  visit e (Some (ast.BasicLit tk lexeme))
  = Returns (pushed e BasicLit Nop
               (fun x => set_val (litVal lexeme) (set_ident lexeme x))
               (def e) (stdout e)).
Proof.
  cbn [visit]. unfold pushed, litVal.
  destruct (addChild (mem e) (top (st e)) BasicLit Nop) as [n m].
  destruct (strconv.ParseInt lexeme 0 0) as [v [err|]];
    rewrite update_update; reflexivity.
Qed.

Lemma visit_Some e a :
  (exists k act f d out,
      k <> ForRangeStmt /\ frame f
      /\ visit e (Some a) = Returns (pushed e k act f d out))
  \/ visit e (Some a) = Returns (rangePushed e).
Proof.
  destruct a; try (cbn [visit]; shape_push; discriminate).
  - (* BasicLit *)
    left. rewrite visit_BasicLit. eexists _, _, _, _, _.
    split; [|split; [|reflexivity]]; [discriminate|].
    apply frame_compose; [apply frame_set_ident|apply frame_set_val].
  - (* BranchStmt *)
    cbn [visit]. shape_push. destruct Tok; discriminate.
  - (* ForStmt *)
    cbn [visit]. shape_push. destruct Cond, Init, Post; discriminate.
  - (* FuncDecl *)
    cbn [visit]. left.
    exists FuncDecl, Nop, (fun x => x),
      (<[Name := length (heap (mem e))]> (def e)), (stdout e).
    split; [discriminate|]. split; [apply frame_id|].
    unfold pushed.
    pose proof (addChild_fst (mem e) (top (st e)) FuncDecl Nop) as Hn.
    destruct (addChild (mem e) (top (st e)) FuncDecl Nop) as [n m].
    simpl in Hn. subst n. rewrite update_id. reflexivity.
  - (* Ident *)
    cbn [visit]. left. exists Ident, Nop, (set_ident Name), (def e), (stdout e).
    split; [discriminate|]. split; [apply frame_set_ident|].
    unfold pushed.
    destruct (addChild (mem e) (top (st e)) Ident Nop) as [n m]. reflexivity.
  - (* IfStmt *)
    cbn [visit]. shape_push. destruct Init, Else_; discriminate.
  - (* RangeStmt *)
    cbn [visit]. right. reflexivity.
  - (* Other *)
    cbn [visit]. left. exists Undef, Nop, (fun x => x). eexists _, _.
    split; [discriminate|]. split; [apply frame_id|].
    unfold pushChild, pushed. cbn [mem st def stdout].
    destruct (addChild (mem e) (top (st e)) Undef Nop) as [n m].
    rewrite update_id. reflexivity.
Qed.

(** ** The ancestor stack *)

Lemma top_push s n : top (push s n) = Some n.
Proof.
  unfold top, push. rewrite length_app. simpl.
  destruct (Z.of_nat (length s + 1) >? 0) eqn:H.
  2:{ exfalso. zbool. lia. }
  replace (Z.to_nat (Z.of_nat (length s + 1) - 1)) with (length s) by lia.
  apply list_lookup_middle. reflexivity.
Qed.

Lemma pop_push s n : pop (push s n) = Returns (n, s).
Proof.
  unfold pop, push. rewrite length_app. simpl.
  replace (Z.to_nat (Z.of_nat (length s + 1) - 1)) with (length s) by lia.
  rewrite list_lookup_middle by reflexivity.
  destruct (0 <=? Z.of_nat (length s + 1) - 1) eqn:H; [|exfalso; zbool; lia].
  rewrite take_app_length. reflexivity.
Qed.

Lemma top_elem s p : top s = Some p -> p ∈ s.
Proof.
  unfold top. destruct (_ >? 0); [|discriminate].
  intros H. eapply list_elem_of_lookup_2. exact H.
Qed.

(** ** The node a visit creates *)

Lemma addChild_new_fields m parent k act :
  exists nd,
    heap (snd (addChild m parent k act)) !! length (heap m) = Some nd
    /\ kind nd = k /\ action nd = act /\ index nd = wrapInt (idx m + 1)
    /\ Start nd = length (heap m) /\ anc nd = parent
    /\ ident nd = "" /\ val nd = NilCell /\ run nd = act.
Proof.
  rewrite addChild_heap. destruct parent as [a|].
  - destruct (decide (a = length (heap m))) as [->|Hne].
    + rewrite list_lookup_alter_eq, list_lookup_middle by reflexivity.
      eexists. split; [reflexivity|]. simpl. tauto.
    + rewrite list_lookup_alter_ne, list_lookup_middle by done.
      eexists. split; [reflexivity|]. simpl. tauto.
  - rewrite list_lookup_middle by reflexivity.
    eexists. split; [reflexivity|]. simpl. tauto.
Qed.

Lemma lowered_node_pushed e a k act f d out :
  visit e (Some a) = Returns (pushed e k act f d out) ->
  exists nd,
    heap (snd (addChild (mem e) (top (st e)) k act)) !! length (heap (mem e))
    = Some nd
    /\ lowered_node e a = Some (f nd).
Proof.
  intros Hv. unfold lowered_node. rewrite Hv. unfold pushed, node_at.
  destruct (addChild_new_fields (mem e) (top (st e)) k act)
    as (nd & Hnd & _).
  pose proof (addChild_fst (mem e) (top (st e)) k act) as Hn.
  destruct (addChild (mem e) (top (st e)) k act) as [n m].
  simpl in Hn, Hnd. subst n. cbn [st mem]. rewrite top_push.
  exists nd. split; [assumption|].
  unfold update. simpl. rewrite list_lookup_alter_eq, Hnd. reflexivity.
Qed.

(** The kind and the action of the node pushed by
    [st.push(addChild(&root, anc, &index, kind, action, &node))]. *)
Lemma lowered_node_pushChild e a k act :
  visit e (Some a) = Returns (pushChild e (top (st e)) k act) ->
  exists nd, lowered_node e a = Some nd /\ kind nd = k /\ action nd = act.
Proof.
  rewrite pushChild_pushed. intros Hv.
  destruct (lowered_node_pushed _ _ _ _ _ _ _ Hv) as (nd & Hnd & Hl).
  destruct (addChild_new_fields (mem e) (top (st e)) k act)
    as (nd' & Hnd' & Hk & Ha & _).
  rewrite Hnd in Hnd'. injection Hnd' as <-. eauto.
Qed.

Lemma lowered_kind e a k act :
  visit e (Some a) = Returns (pushChild e (top (st e)) k act) ->
  kind <$> lowered_node e a = Some k.
Proof.
  intros Hv. destruct (lowered_node_pushChild _ _ _ _ Hv) as (nd & -> & <- & <-).
  reflexivity.
Qed.

Lemma lowered_action e a k act :
  visit e (Some a) = Returns (pushChild e (top (st e)) k act) ->
  action <$> lowered_node e a = Some act.
Proof.
  intros Hv. destruct (lowered_node_pushChild _ _ _ _ Hv) as (nd & -> & <- & <-).
  reflexivity.
Qed.

(** ** The arena after each of the two steps *)

Section Steps.

Variables (e : env) (k : Kind) (act : Action) (f : Node -> Node)
          (d : gmap string ptr) (out : list string).

Local Abbreviation n := (length (heap (mem e))).

Lemma pushed_st : st (pushed e k act f d out) = st e ++ [n].
Proof.
  unfold pushed.
  pose proof (addChild_fst (mem e) (top (st e)) k act) as Hn.
  destruct (addChild (mem e) (top (st e)) k act) as [n' m].
  simpl in *. subst n'. reflexivity.
Qed.

Lemma pushed_heap :
  heap (mem (pushed e k act f d out))
  = alter f n (heap (snd (addChild (mem e) (top (st e)) k act))).
Proof.
  unfold pushed.
  pose proof (addChild_fst (mem e) (top (st e)) k act) as Hn.
  destruct (addChild (mem e) (top (st e)) k act) as [n' m].
  simpl in *. subst n'. reflexivity.
Qed.

Lemma pushed_idx :
  idx (mem (pushed e k act f d out)) = wrapInt (idx (mem e) + 1).
Proof.
  unfold pushed.
  pose proof (addChild_idx (mem e) (top (st e)) k act) as Hn.
  destruct (addChild (mem e) (top (st e)) k act) as [n' m].
  simpl in *. assumption.
Qed.

Lemma pushed_length :
  length (heap (mem (pushed e k act f d out))) = S n.
Proof. rewrite pushed_heap, length_alter. apply addChild_length. Qed.

Lemma pushed_node_old p :
  (p < n)%nat ->
  node_at (pushed e k act f d out) p =
  if decide (top (st e) = Some p)
  then append_Child n <$> node_at e p
  else node_at e p.
Proof.
  intros Hp. unfold node_at. rewrite pushed_heap.
  rewrite list_lookup_alter_ne by lia.
  apply addChild_lookup_old. assumption.
Qed.

Lemma pushed_node_new :
  top (st e) <> Some n ->
  node_at (pushed e k act f d out) n
  = Some (f (fresh (mem e) (top (st e)) k act)).
Proof.
  intros Ht. unfold node_at. rewrite pushed_heap.
  rewrite list_lookup_alter_eq, addChild_lookup_new by assumption.
  reflexivity.
Qed.

Lemma rangePushed_unfold :
  rangePushed e =
  mkEnv (snd (addChild (snd (addChild (mem e) (top (st e)) ForRangeStmt Nop))
                       (Some n) RangeStmt Range))
        (push (st e) (S n)) (def e) (stdout e).
Proof.
  unfold rangePushed.
  pose proof (addChild_fst (mem e) (top (st e)) ForRangeStmt Nop) as Hn.
  pose proof (addChild_length (mem e) (top (st e)) ForRangeStmt Nop) as Hl.
  destruct (addChild (mem e) (top (st e)) ForRangeStmt Nop) as [n' m].
  cbn [fst snd] in *. subst n'.
  pose proof (addChild_fst m (Some n) RangeStmt Range) as Hc.
  destruct (addChild m (Some n) RangeStmt Range) as [c m'].
  cbn [fst snd] in *. subst c. rewrite Hl. reflexivity.
Qed.

Lemma rangePushed_st : st (rangePushed e) = st e ++ [S n].
Proof. rewrite rangePushed_unfold. reflexivity. Qed.

Lemma rangePushed_mem :
  mem (rangePushed e)
  = snd (addChild (snd (addChild (mem e) (top (st e)) ForRangeStmt Nop))
                  (Some n) RangeStmt Range).
Proof. rewrite rangePushed_unfold. reflexivity. Qed.

Lemma rangePushed_length : length (heap (mem (rangePushed e))) = S (S n).
Proof. rewrite rangePushed_mem, !addChild_length. reflexivity. Qed.

Lemma rangePushed_idx :
  idx (mem (rangePushed e)) = wrapInt (wrapInt (idx (mem e) + 1) + 1).
Proof. rewrite rangePushed_mem, !addChild_idx. reflexivity. Qed.

Lemma rangePushed_node_old p :
  (p < n)%nat ->
  node_at (rangePushed e) p =
  if decide (top (st e) = Some p)
  then append_Child n <$> node_at e p
  else node_at e p.
Proof.
  intros Hp. unfold node_at. rewrite rangePushed_mem.
  rewrite addChild_lookup_old by (rewrite addChild_length; lia).
  rewrite addChild_length.
  destruct (decide (Some n = Some p)) as [Heq|_];
    [injection Heq as Heq; lia|].
  apply addChild_lookup_old. assumption.
Qed.

Lemma rangePushed_node_parent :
  top (st e) <> Some n ->
  node_at (rangePushed e) n
  = Some (append_Child (S n)
            (fresh (mem e) (top (st e)) ForRangeStmt Nop)).
Proof.
  intros Ht. unfold node_at. rewrite rangePushed_mem.
  rewrite addChild_lookup_old by (rewrite addChild_length; lia).
  rewrite addChild_length.
  destruct (decide (Some n = Some n)) as [_|Hne]; [|congruence].
  rewrite addChild_lookup_new by assumption. reflexivity.
Qed.

Lemma rangePushed_node_child :
  exists cn,
    node_at (rangePushed e) (S n) = Some cn
    /\ kind cn = RangeStmt /\ action cn = Range /\ anc cn = Some n
    /\ index cn = wrapInt (wrapInt (idx (mem e) + 1) + 1)
    /\ Start cn = S n /\ Child cn = [].
Proof.
  unfold node_at. rewrite rangePushed_mem.
  pose proof (addChild_length (mem e) (top (st e)) ForRangeStmt Nop) as Hl.
  rewrite <- Hl.
  rewrite addChild_lookup_new by (rewrite Hl; intros [= H]; lia).
  eexists. split; [reflexivity|]. simpl.
  rewrite addChild_idx. tauto.
Qed.

End Steps.

(** ** The invariants are kept by every visit *)

Lemma wrapInt_add x y : wrapInt (wrapInt x + y) = wrapInt (x + y).
Proof.
  unfold wrapInt. f_equal.
  replace ((x + 2 ^ 63) mod 2 ^ 64 - 2 ^ 63 + y + 2 ^ 63)
    with ((x + 2 ^ 63) mod 2 ^ 64 + y) by lia.
  rewrite Z.add_mod_idemp_l by lia. f_equal. lia.
Qed.

Lemma wrapInt_succ x : wrapInt (wrapInt x + 1) = wrapInt (x + 1).
Proof. apply wrapInt_add. Qed.

Lemma wrapInt_small x : - 2 ^ 63 <= x < 2 ^ 63 -> wrapInt x = x.
Proof.
  intros H. unfold wrapInt. rewrite Z.mod_small by lia. lia.
Qed.

Lemma node_at_lt e p nd : node_at e p = Some nd -> (p < length (heap (mem e)))%nat.
Proof. unfold node_at. apply lookup_lt_Some. Qed.

Lemma top_valid e p :
  stack_ok e -> top (st e) = Some p ->
  (p < length (heap (mem e)))%nat
  /\ exists nd, node_at e p = Some nd /\ kind nd <> ForRangeStmt.
Proof.
  intros Hs Ht. apply top_elem in Ht.
  destruct (Hs p Ht) as (nd & Hnd & Hk).
  split; [eapply node_at_lt; eassumption|eauto].
Qed.

Lemma top_fresh e : stack_ok e -> top (st e) <> Some (length (heap (mem e))).
Proof.
  intros Hs Ht. apply (top_valid e _ Hs) in Ht as [Hlt _]. lia.
Qed.

Lemma kept_refl nd : kept nd nd.
Proof. unfold kept. tauto. Qed.

Lemma kept_append c nd : kept nd (append_Child c nd).
Proof. unfold kept. simpl. tauto. Qed.

Section Preservation.

Variables (e : env).
Hypothesis Hinv : lowering_inv e.

Local Abbreviation n := (length (heap (mem e))).

Lemma old_node_after (e' : env) p :
  (forall q, (q < n)%nat ->
     node_at e' q = if decide (top (st e) = Some q)
                    then append_Child n <$> node_at e q
                    else node_at e q) ->
  (p < n)%nat ->
  exists nd nd',
    node_at e p = Some nd /\ node_at e' p = Some nd' /\ kept nd nd'
    /\ (kind nd = ForRangeStmt -> Child nd' = Child nd).
Proof.
  intros Hold Hp. destruct Hinv as (Hs & _ & _).
  destruct (lookup_lt_is_Some_2 (heap (mem e)) p Hp) as [nd Hnd].
  fold (node_at e p) in Hnd.
  rewrite (Hold p Hp).
  destruct (decide (top (st e) = Some p)) as [Ht|Ht].
  - rewrite Hnd. simpl. eexists _, _. split; [reflexivity|].
    split; [reflexivity|]. split; [apply kept_append|].
    intros Hk. apply (top_valid e p Hs) in Ht as (_ & nd0 & Hnd0 & Hk0).
    congruence.
  - eexists _, _. split; [exact Hnd|]. split; [exact Hnd|].
    split; [apply kept_refl|]. reflexivity.
Qed.

Lemma inv_pushed k act f d out :
  k <> ForRangeStmt -> frame f ->
  lowering_inv (pushed e k act f d out).
Proof.
  intros Hk Hf.
  pose proof (old_node_after (pushed e k act f d out)) as Hold.
  specialize (fun p => Hold p (pushed_node_old e k act f d out)).
  destruct Hinv as (Hs & Hr & Hi).
  pose proof (pushed_node_new e k act f d out (top_fresh e Hs)) as Hnew.
  pose proof (pushed_length e k act f d out) as Hlen.
  destruct (Hf (fresh (mem e) (top (st e)) k act))
    as (Hfa & Hfi & Hfk & Hfact & _ & Hfc).
  split; [|split].
  - (* the stack *)
    intros p Hp. rewrite pushed_st in Hp.
    apply elem_of_app in Hp as [Hp|Hp].
    + destruct (Hs p Hp) as (nd & Hnd & Hkd).
      destruct (Hold p (node_at_lt _ _ _ Hnd)) as (nd0 & nd' & H0 & H' & Hkept & _).
      exists nd'. split; [assumption|].
      destruct Hkept as (-> & _). congruence.
    + apply list_elem_of_singleton in Hp. subst p.
      eexists. split; [exact Hnew|]. rewrite Hfk. exact Hk.
  - (* the range statements *)
    intros p nd' Hp Hkd.
    pose proof (node_at_lt _ _ _ Hp) as Hlt. rewrite Hlen in Hlt.
    destruct (decide (p = n)) as [->|Hne].
    { rewrite Hnew in Hp. injection Hp as <-. rewrite Hfk in Hkd.
      contradiction. }
    destruct (Hold p ltac:(lia)) as (nd & nd1 & H0 & H1 & Hkept & Hch).
    rewrite Hp in H1. injection H1 as <-.
    destruct Hkept as (Hk1 & _).
    destruct (Hr p nd H0 ltac:(congruence)) as (c & cn & Hc & Hcn & Hck & Hca & Hcanc).
    destruct (Hold c (node_at_lt _ _ _ Hcn)) as (cn0 & cn' & Hc0 & Hc' & (Kk & Ka & Kanc & _) & _).
    rewrite Hcn in Hc0. injection Hc0 as <-.
    exists c, cn'. split; [rewrite Hch by congruence; assumption|].
    split; [assumption|]. repeat split; congruence.
  - (* the indexes *)
    destruct Hi as [Hidx Hnodes]. split.
    + rewrite pushed_idx, Hlen, Hidx, wrapInt_succ. f_equal. lia.
    + intros i nd' Hi.
      pose proof (node_at_lt _ _ _ Hi) as Hlt. rewrite Hlen in Hlt.
      destruct (decide (i = n)) as [->|Hne].
      * rewrite Hnew in Hi. injection Hi as <-. rewrite Hfi. simpl.
        rewrite Hidx. apply wrapInt_succ.
      * destruct (Hold i ltac:(lia)) as (nd & nd1 & H0 & H1 & (_ & _ & _ & Kx) & _).
        rewrite Hi in H1. injection H1 as <-. rewrite Kx. auto.
Qed.

Lemma inv_rangePushed : lowering_inv (rangePushed e).
Proof.
  pose proof (old_node_after (rangePushed e)) as Hold.
  specialize (fun p => Hold p (rangePushed_node_old e)).
  destruct Hinv as (Hs & Hr & Hi).
  pose proof (rangePushed_node_parent e (top_fresh e Hs)) as Hpar.
  destruct (rangePushed_node_child e)
    as (cn & Hcn & Hck & Hcact & Hcanc & Hcidx & _).
  pose proof (rangePushed_length e) as Hlen.
  split; [|split].
  - intros p Hp. rewrite rangePushed_st in Hp.
    apply elem_of_app in Hp as [Hp|Hp].
    + destruct (Hs p Hp) as (nd & Hnd & Hkd).
      destruct (Hold p (node_at_lt _ _ _ Hnd)) as (nd0 & nd' & H0 & H' & Hkept & _).
      exists nd'. split; [assumption|].
      destruct Hkept as (-> & _). congruence.
    + apply list_elem_of_singleton in Hp. subst p.
      exists cn. split; [assumption|]. rewrite Hck. discriminate.
  - intros p nd' Hp Hkd.
    pose proof (node_at_lt _ _ _ Hp) as Hlt. rewrite Hlen in Hlt.
    destruct (decide (p = S n)) as [->|Hne1].
    { rewrite Hcn in Hp. injection Hp as <-. rewrite Hck in Hkd.
      discriminate. }
    destruct (decide (p = n)) as [->|Hne].
    { rewrite Hpar in Hp. injection Hp as <-.
      exists (S n), cn. simpl. auto. }
    destruct (Hold p ltac:(lia)) as (nd & nd1 & H0 & H1 & Hkept & Hch).
    rewrite Hp in H1. injection H1 as <-.
    destruct Hkept as (Hk1 & _).
    destruct (Hr p nd H0 ltac:(congruence)) as (c & cn1 & Hc & Hcn1 & Hck1 & Hca & Hcanc1).
    destruct (Hold c (node_at_lt _ _ _ Hcn1)) as (cn0 & cn' & Hc0 & Hc' & (Kk & Ka & Kanc & _) & _).
    rewrite Hcn1 in Hc0. injection Hc0 as <-.
    exists c, cn'. split; [rewrite Hch by congruence; assumption|].
    split; [assumption|]. repeat split; congruence.
  - destruct Hi as [Hidx Hnodes]. split.
    + rewrite rangePushed_idx, Hlen, Hidx.
      rewrite wrapInt_add, <- Z.add_assoc, wrapInt_add. f_equal. lia.
    + intros i nd' Hi.
      pose proof (node_at_lt _ _ _ Hi) as Hlt. rewrite Hlen in Hlt.
      destruct (decide (i = S n)) as [->|Hne1].
      { rewrite Hcn in Hi. injection Hi as <-. rewrite Hcidx, Hidx.
        rewrite wrapInt_add, <- Z.add_assoc, wrapInt_add. f_equal. lia. }
      destruct (decide (i = n)) as [->|Hne].
      { rewrite Hpar in Hi. injection Hi as <-. simpl.
        rewrite Hidx. apply wrapInt_succ. }
      destruct (Hold i ltac:(lia)) as (nd & nd1 & H0 & H1 & (_ & _ & _ & Kx) & _).
      rewrite Hi in H1. injection H1 as <-. rewrite Kx. auto.
Qed.

Lemma inv_pop e' : visit e None = Returns e' -> lowering_inv e'.
Proof.
  unfold visit, pop.
  destruct (st e !! _) as [res|] eqn:Hres; [|discriminate].
  destruct (0 <=? _); [|discriminate].
  simpl. intros [= <-].
  destruct Hinv as (Hs & Hr & Hi).
  split; [|split]; [|exact Hr|exact Hi].
  intros p Hp. apply Hs. cbn [st] in Hp.
  eapply subseteq_take. exact Hp.
Qed.

Lemma inv_visit node e' : visit e node = Returns e' -> lowering_inv e'.
Proof.
  destruct node as [a|]; [|apply inv_pop].
  destruct (visit_Some e a) as [(k & act & f & d & out & Hk & Hf & ->)| ->];
    intros [= <-].
  - apply inv_pushed; assumption.
  - apply inv_rangePushed.
Qed.

End Preservation.

Lemma inv_visitAll calls : forall e e',
  lowering_inv e -> visitAll e calls = Returns e' -> lowering_inv e'.
Proof.
  induction calls as [|node calls IH]; simpl; intros e e' Hinv H.
  - injection H as <-. assumption.
  - destruct (visit e node) as [e1|] eqn:Hv; [|discriminate].
    simpl in H. eapply IH; [|exact H].
    eapply inv_visit; eassumption.
Qed.

Lemma inv_initial : lowering_inv initial.
Proof.
  split; [|split].
  - intros p Hp. cbn in Hp. apply elem_of_nil in Hp. contradiction.
  - intros p nd Hp. discriminate.
  - split; [reflexivity|]. intros i nd Hi. discriminate.
Qed.

(** ** ast.Inspect drives the visitor to the end *)

Lemma visitAll_app l1 l2 : forall e,
  visitAll e (l1 ++ l2) = bind (visitAll e l1) (fun e' => visitAll e' l2).
Proof.
  induction l1 as [|c l1 IH]; intros e; simpl; [reflexivity|].
  destruct (visit e c) as [e1|p]; simpl; [apply IH|reflexivity].
Qed.

Lemma balanced_nil : balanced [].
Proof. intros e. exists e. split; reflexivity. Qed.

Lemma balanced_app l1 l2 : balanced l1 -> balanced l2 -> balanced (l1 ++ l2).
Proof.
  intros H1 H2 e. rewrite visitAll_app.
  destruct (H1 e) as (e1 & -> & Hs1). simpl.
  destruct (H2 e1) as (e2 & -> & Hs2). exists e2.
  split; [reflexivity|congruence].
Qed.

Lemma visit_Some_st e a :
  exists e' n, visit e (Some a) = Returns e' /\ st e' = st e ++ [n].
Proof.
  destruct (visit_Some e a) as [(k & act & f & d & out & _ & _ & ->)| ->].
  - eexists _, _. split; [reflexivity|apply pushed_st].
  - eexists _, _. split; [reflexivity|apply rangePushed_st].
Qed.

Lemma visit_None_st e s n :
  st e = s ++ [n] -> exists e', visit e None = Returns e' /\ st e' = s.
Proof.
  intros Hs. unfold visit. rewrite Hs. fold (push s n). rewrite pop_push.
  simpl. eexists. split; reflexivity.
Qed.

Lemma balanced_wrap a l : balanced l -> balanced (Some a :: l ++ [None]).
Proof.
  intros Hl e. cbn [visitAll app].
  destruct (visit_Some_st e a) as (e1 & n & -> & Hs1). cbn [bind].
  rewrite visitAll_app.
  destruct (Hl e1) as (e2 & -> & Hs2). cbn [bind visitAll].
  destruct (visit_None_st e2 (st e) n ltac:(congruence)) as (e3 & -> & Hs3).
  cbn [bind]. exists e3. auto.
Qed.

Lemma balanced_ident name : balanced [Some (ast.Ident name); None].
Proof. apply (balanced_wrap _ []). apply balanced_nil. Qed.

Lemma balanced_walkList {A} (f : A -> list (option ast.Node)) l :
  (forall x, x ∈ l -> balanced (f x)) -> balanced (ast.walkList f l).
Proof.
  unfold ast.walkList. induction l as [|x l IH]; intros H; simpl.
  - apply balanced_nil.
  - apply balanced_app.
    + apply H. apply list_elem_of_here.
    + apply IH. intros y Hy. apply H. apply list_elem_of_further. assumption.
Qed.

Lemma balanced_walkOpt {A} (f : A -> list (option ast.Node)) o :
  (forall x, o = Some x -> balanced (f x)) -> balanced (ast.walkOpt f o).
Proof.
  destruct o as [x|]; intros H; simpl; [auto|apply balanced_nil].
Qed.

Lemma balanced_walkList_all l :
  list_all ast.Node (fun n => balanced (ast.Inspect n)) l ->
  balanced (ast.walkList ast.Inspect l).
Proof.
  induction 1 as [|a Ha l Hl IH]; unfold ast.walkList; cbn [map concat].
  - apply balanced_nil.
  - apply balanced_app; assumption.
Qed.

Lemma balanced_walkOpt_all o :
  option_all ast.Node (fun n => balanced (ast.Inspect n)) o ->
  balanced (ast.walkOpt ast.Inspect o).
Proof.
  destruct 1; unfold ast.walkOpt; [assumption|apply balanced_nil].
Qed.

(** Every call sequence of [ast.Inspect] is balanced: the visitor never
    pops an empty stack, and the stack is empty again at the end. *)
Lemma balanced_Inspect n : balanced (ast.Inspect n).
Proof.
  induction n; cbn [ast.Inspect];
    apply balanced_wrap;
    repeat first
      [ apply balanced_nil
      | apply balanced_ident
      | assumption
      | apply balanced_app
      | apply balanced_walkList_all; assumption
      | apply balanced_walkOpt_all; assumption
      | apply balanced_walkList; intros; apply balanced_ident
      | apply balanced_walkOpt; intros; apply balanced_ident ].
Qed.

(** ** Ast returns on every parsed file *)

Lemma lowering_returns f :
  exists e,
    visitAll initial (ast.Inspect f) = Returns e
    /\ st e = [] /\ lowering_inv e.
Proof.
  destruct (balanced_Inspect f initial) as (e & He & Hst).
  exists e. split; [assumption|]. split; [assumption|].
  eapply inv_visitAll; [apply inv_initial|eassumption].
Qed.

Lemma Ast_returns ParseFile src f :
  ParseFile src = inr f ->
  exists e,
    lowering_inv e
    /\ Ast ParseFile src
       = Returns (mkLowered (root (mem e)) (def e) (heap (mem e)) (stdout e)).
Proof.
  intros Hp. unfold Ast. rewrite Hp.
  destruct (lowering_returns f) as (e & -> & _ & Hinv).
  exists e. split; [assumption|reflexivity].
Qed.

(** * The claims *)

(** ** Kinds of for and if statements, actions of expressions *)

Lemma for_kind e Init Cond Post Body :
  kind <$> lowered_node e (ast.ForStmt Init Cond Post Body)
  = Some (if isNil Cond then For0
          else if isNil Init && isNil Post then For1
          else if negb (isNil Init) && isNil Post then For2
          else if isNil Init && negb (isNil Post) then For3
          else For4).
Proof. eapply lowered_kind. reflexivity. Qed.

(** C1 (the code departs from the claim).  A for statement with an init
    and a post statement but no condition, such as
    [for i := 0; ; i++ {}], is lowered to a node of kind [For0], the kind
    the source documents as [for {}]: the visitor tests the condition
    alone before it looks at init and post. *)
Theorem for_without_cond_is_For0 :
  forall e init post body,
    kind <$> lowered_node e (ast.ForStmt (Some init) None (Some post) body)
    = Some For0.
Proof. intros. apply for_kind. Qed.

(** The loop [for i := 0; ; i++ {}] as [go/parser] builds it. *)
Example for_init_post_example :
  kind <$> lowered_node initial
             (ast.ForStmt
                (Some (ast.AssignStmt [ast.Ident "i"] token.DEFINE
                         [ast.BasicLit token.INT "0"]))
                None
                (Some (ast.IncDecStmt (ast.Ident "i") token.INC))
                (ast.BlockStmt []))
  = Some For0.
Proof. apply for_kind. Qed.

(** With a condition, and without condition, init and post, the kind
    follows the shape of the loop. *)
Lemma for_with_cond_kinds e c i p body :
  kind <$> lowered_node e (ast.ForStmt None (Some c) None body) = Some For1
  /\ kind <$> lowered_node e (ast.ForStmt (Some i) (Some c) None body)
     = Some For2
  /\ kind <$> lowered_node e (ast.ForStmt None (Some c) (Some p) body)
     = Some For3
  /\ kind <$> lowered_node e (ast.ForStmt (Some i) (Some c) (Some p) body)
     = Some For4
  /\ kind <$> lowered_node e (ast.ForStmt None None None body) = Some For0.
Proof. repeat split; apply for_kind. Qed.

(** C7.  An if statement is lowered to [If0] without init and else, to
    [If1] without init and with else, to [If2] with init and without
    else, and to [If3] with both. *)
Theorem if_kinds :
  forall e i c b el,
    kind <$> lowered_node e (ast.IfStmt None c b None) = Some If0
    /\ kind <$> lowered_node e (ast.IfStmt None c b (Some el)) = Some If1
    /\ kind <$> lowered_node e (ast.IfStmt (Some i) c b None) = Some If2
    /\ kind <$> lowered_node e (ast.IfStmt (Some i) c b (Some el)) = Some If3.
Proof.
  intros. repeat split; eapply lowered_kind; reflexivity.
Qed.

(** C8.  A binary expression gets the action of its operator: [+] gives
    [Add], [-] gives [Sub], [&] gives [And], [==] gives [Equal], [>]
    gives [Greater] and [<] gives [Lower].  An assignment gets [AssignX]
    exactly when it has more than one left-hand side and one right-hand
    side, and [Assign] otherwise. *)
Theorem binary_and_assign_actions :
  forall e,
    (forall x y,
        action <$> lowered_node e (ast.BinaryExpr x token.ADD y) = Some Add
        /\ action <$> lowered_node e (ast.BinaryExpr x token.SUB y) = Some Sub
        /\ action <$> lowered_node e (ast.BinaryExpr x token.AND y) = Some And
        /\ action <$> lowered_node e (ast.BinaryExpr x token.EQL y)
           = Some Equal
        /\ action <$> lowered_node e (ast.BinaryExpr x token.GTR y)
           = Some Greater
        /\ action <$> lowered_node e (ast.BinaryExpr x token.LSS y)
           = Some Lower)
    /\ (forall lhs tok rhs,
          (action <$> lowered_node e (ast.AssignStmt lhs tok rhs)
           = Some AssignX
           <-> (1 < length lhs)%nat /\ length rhs = 1%nat)
          /\ (action <$> lowered_node e (ast.AssignStmt lhs tok rhs)
              = Some Assign
              <-> ~ ((1 < length lhs)%nat /\ length rhs = 1%nat))).
Proof.
  intros e. split.
  - intros x y. repeat split; eapply lowered_action; reflexivity.
  - intros lhs tok rhs.
    assert (Hact :
      action <$> lowered_node e (ast.AssignStmt lhs tok rhs)
      = Some (if (Z.of_nat (length lhs) >? 1) && (Z.of_nat (length rhs) =? 1)
              then AssignX else Assign)).
    { eapply lowered_action. reflexivity. }
    rewrite Hact.
    destruct (Z.of_nat (length lhs) >? 1) eqn:H1;
      destruct (Z.of_nat (length rhs) =? 1) eqn:H2; zbool; cbn [andb];
      (split; (split; intros Hp));
      first [ discriminate | reflexivity | lia
            | exfalso; apply Hp; lia | intros [? ?]; lia ].
Qed.

(** ** Branch statements *)

Lemma branch_kind e tok label :
  kind <$> lowered_node e (ast.BranchStmt tok label)
  = Some match tok with
         | token.BREAK => Break
         | token.CONTINUE => Continue
         | _ => 0
         end.
Proof. eapply lowered_kind. reflexivity. Qed.

(** C4, as the code has it.  A branch statement is lowered to kind
    [Break] exactly when its token is [break] and to kind [Continue]
    exactly when its token is [continue]. *)
Theorem branch_kinds :
  forall e tok label,
    (kind <$> lowered_node e (ast.BranchStmt tok label) = Some Break
     <-> tok = token.BREAK)
    /\ (kind <$> lowered_node e (ast.BranchStmt tok label) = Some Continue
        <-> tok = token.CONTINUE).
Proof.
  intros e tok label. rewrite branch_kind.
  split; (split; [destruct tok; intros H; try reflexivity; discriminate H
                 | intros ->; reflexivity]).
Qed.

(** C4 fails as stated: the statement [goto L] is a branch statement and
    is lowered to a node of kind [Undef], which is neither [Break] nor
    [Continue]. *)
Lemma goto_is_not_Break_or_Continue :
  kind <$> lowered_node initial (ast.BranchStmt token.GOTO (Some "L"))
  = Some Undef
  /\ ~ (kind <$> lowered_node initial (ast.BranchStmt token.GOTO (Some "L"))
        = Some Break
        \/ kind <$> lowered_node initial (ast.BranchStmt token.GOTO (Some "L"))
           = Some Continue).
Proof.
  rewrite branch_kind. split; [reflexivity|].
  intros [H|H]; discriminate H.
Qed.

(** ** Parser failures *)

(** C2, as the code has it.  When the parser fails on the source, [Ast]
    panics with the parser's error, which carries the message; nothing is
    returned. *)
Theorem parse_failure_panics :
  forall ParseFile src err,
    ParseFile src = inl err ->
    Ast ParseFile src = Panics (PanicError err).
Proof.
  intros ParseFile src err H. unfold Ast. rewrite H. reflexivity.
Qed.

Lemma parse_failure_panics_witness :
  rejectEmpty "" = inl eofError
  /\ Ast rejectEmpty "" = Panics (PanicError eofError).
Proof.
  split; [reflexivity|].
  apply (parse_failure_panics rejectEmpty "" eofError). reflexivity.
Defined.

(** C2 fails as stated: on the empty source the parser fails, and [Ast]
    does not return any value, an error or another; it panics. *)
Lemma parse_failure_is_not_returned :
  rejectEmpty "" = inl eofError
  /\ Ast rejectEmpty "" = Panics (PanicError eofError)
  /\ ~ (exists l, Ast rejectEmpty "" = Returns l).
Proof.
  split; [reflexivity|]. split; [reflexivity|].
  intros [l H]. discriminate H.
Qed.

(** ** Kind.String and Action.String *)

Lemma Kind_String_outside k :
  k < 0 \/ Z.of_nat (length kinds) < k ->
  Kind_String k = Returns ("kind(" +:+ strconv.Itoa k +:+ ")").
Proof.
  intros H. unfold Kind_String.
  assert ((0 <=? k) && (k <=? Z.of_nat (length kinds)) = false) as ->.
  { apply andb_false_iff. destruct H; [left|right]; lia. }
  reflexivity.
Qed.

Lemma Action_String_outside a :
  a < 0 \/ Z.of_nat (length actions) < a ->
  Action_String a = Returns ("action(" +:+ strconv.Itoa a +:+ ")").
Proof.
  intros H. unfold Action_String.
  assert ((0 <=? a) && (a <=? Z.of_nat (length actions)) = false) as ->.
  { apply andb_false_iff. destruct H; [left|right]; lia. }
  reflexivity.
Qed.

Lemma Kind_String_inside k :
  0 <= k < Z.of_nat (length kinds) ->
  exists s,
    kinds !! Z.to_nat k = Some s
    /\ Kind_String k
       = Returns (if String.eqb s ""
                  then "kind(" +:+ strconv.Itoa k +:+ ")" else s).
Proof.
  intros H. unfold Kind_String, index_string.
  assert ((0 <=? k) && (k <=? Z.of_nat (length kinds)) = true) as ->.
  { apply andb_true_iff. split; lia. }
  assert ((0 <=? k) && (k <? Z.of_nat (length kinds)) = true) as ->.
  { apply andb_true_iff. split; lia. }
  destruct (lookup_lt_is_Some_2 kinds (Z.to_nat k) ltac:(lia)) as [s Hs].
  rewrite Hs. exists s. split; reflexivity.
Qed.

Lemma Action_String_inside a :
  0 <= a < Z.of_nat (length actions) ->
  exists s,
    actions !! Z.to_nat a = Some s
    /\ Action_String a
       = Returns (if String.eqb s ""
                  then "action(" +:+ strconv.Itoa a +:+ ")" else s).
Proof.
  intros H. unfold Action_String, index_string.
  assert ((0 <=? a) && (a <=? Z.of_nat (length actions)) = true) as ->.
  { apply andb_true_iff. split; lia. }
  assert ((0 <=? a) && (a <? Z.of_nat (length actions)) = true) as ->.
  { apply andb_true_iff. split; lia. }
  destruct (lookup_lt_is_Some_2 actions (Z.to_nat a) ltac:(lia)) as [s Hs].
  rewrite Hs. exists s. split; reflexivity.
Qed.

(** C10 (the code departs from the claim).  The guard of [String] lets
    the table's length through: [Kind(37).String()] indexes [kinds], an
    array of 37 strings, at 37 and panics, and [Action(17).String()]
    indexes [actions], an array of 17 strings, at 17 and panics.  Inside
    the table, [kinds] has no name for [Fallthrough], which prints as
    [kind(12)]. *)
Theorem String_panics_at_table_length :
  length kinds = 37%nat
  /\ Kind_String 37 = Panics (PanicIndex 37 37)
  /\ length actions = 17%nat
  /\ Action_String 17 = Panics (PanicIndex 17 17)
  /\ Kind_String Fallthrough = Returns "kind(12)".
Proof. repeat split. Qed.

(** ** Basic literals *)

Lemma basiclit_node e tk lexeme :
  exists nd,
    lowered_node e (ast.BasicLit tk lexeme) = Some nd
    /\ kind nd = BasicLit /\ action nd = Nop
    /\ ident nd = lexeme /\ val nd = litVal lexeme.
Proof.
  destruct (lowered_node_pushed _ _ _ _ _ _ _ (visit_BasicLit e tk lexeme))
    as (nd & Hnd & Hl).
  destruct (addChild_new_fields (mem e) (top (st e)) BasicLit Nop)
    as (nd' & Hnd' & Hk & Ha & _).
  rewrite Hnd in Hnd'. injection Hnd' as <-.
  eexists. split; [exact Hl|]. simpl. auto.
Qed.

(** The value stored for a lexeme, by the reading of the lexeme as an
    integer literal. *)
Lemma litVal_spec s :
  litVal s =
  match IntLiteral.value s with
  | Some v =>
      if (IntLiteral.minInt <=? v) && (v <=? IntLiteral.maxInt)
      then IntVal v else StringVal s
  | None => StringVal s
  end.
Proof.
  unfold litVal.
  destruct (strconv.ParseInt s 0 0) as [v [err|]] eqn:HP.
  - destruct (IntLiteral.value s) as [u|] eqn:Hu; [|reflexivity].
    destruct ((IntLiteral.minInt <=? u) && (u <=? IntLiteral.maxInt)) eqn:Hr;
      [|reflexivity].
    apply andb_true_iff in Hr as [H1 H2]. zbool.
    assert (Hok : strconv.ParseInt s 0 0 = (u, None)).
    { apply ParseIntFacts.ParseInt_spec. rewrite Hu. auto. }
    rewrite HP in Hok. discriminate Hok.
  - apply ParseIntFacts.ParseInt_spec in HP as [-> [H1 H2]].
    assert ((IntLiteral.minInt <=? v) && (v <=? IntLiteral.maxInt) = true) as ->.
    { apply andb_true_iff. split; lia. }
    reflexivity.
Qed.

(** C3, as the code has it.  For every basic literal the lexeme is stored
    in [ident] and [val] is set during the lowering: to the integer the
    lexeme denotes when the lexeme reads as an integer literal (an
    optional sign, then digits in base 10, after a prefix [0x], [0o] or
    [0b], or after a leading [0] for octal, with underscores between
    digits) and that integer fits a 64-bit [int]; to the lexeme itself in
    every other case. *)
Theorem basic_lit_ident_and_val :
  forall e tk lexeme,
    exists nd,
      lowered_node e (ast.BasicLit tk lexeme) = Some nd
      /\ kind nd = BasicLit
      /\ ident nd = lexeme
      /\ val nd =
         match IntLiteral.value lexeme with
         | Some v =>
             if (IntLiteral.minInt <=? v) && (v <=? IntLiteral.maxInt)
             then IntVal v else StringVal lexeme
         | None => StringVal lexeme
         end.
Proof.
  intros e tk lexeme.
  destruct (basiclit_node e tk lexeme) as (nd & Hl & Hk & _ & Hi & Hv).
  exists nd. rewrite <- litVal_spec. auto.
Qed.

(** C3 fails as stated: the lexeme [9223372036854775808] is a signed
    integer literal in base 10, and the value stored for it is the lexeme,
    not an integer, because it does not fit Go's [int]. *)
Lemma basic_lit_beyond_int :
  IntLiteral.matches "9223372036854775808" = true
  /\ val <$> lowered_node initial
               (ast.BasicLit token.INT "9223372036854775808")
     = Some (StringVal "9223372036854775808").
Proof.
  split; [reflexivity|].
  destruct (basiclit_node initial token.INT "9223372036854775808")
    as (nd & -> & _ & _ & _ & Hv).
  simpl. rewrite Hv. reflexivity.
Qed.

(** ** The sample program *)

Example sample_lowered :
  exists l,
    Ast parseSample sampleSrc = Returns l
    /\ l_root l = Some 0%nat
    /\ (kind <$> l_heap l) =
       [File; Ident; FuncDecl; Ident; FuncType; FieldList; Field; Ident;
        ArrayType; Ident; FieldList; Field; Ident; BlockStmt; AssignStmt;
        Ident; BasicLit; ForRangeStmt; RangeStmt; Ident; Ident; Ident;
        BlockStmt; AssignStmt; Ident; BinaryExpr; Ident; Ident; ReturnStmt;
        Ident]
    /\ (index <$> l_heap l) = Z.of_nat <$> seq 1 30
    /\ (Child <$> l_heap l !! 17%nat) = Some [18%nat]
    /\ (Child <$> l_heap l !! 18%nat) = Some [19; 20; 21; 22]%nat
    /\ l_def l !! "sum" = Some 2%nat.
Proof.
  eexists. split; [vm_compute; reflexivity|].
  cbn [l_root l_heap l_def]. repeat split.
Qed.

(** ** addChild and the indexes *)

(** What one call of [addChild] does to the memory, for an ancestor that
    is nil or a node of the arena. *)
Lemma addChild_contract m parent k act :
  (forall a, parent = Some a -> (a < length (heap m))%nat) ->
  exists nd,
    fst (addChild m parent k act) = length (heap m)
    /\ idx (snd (addChild m parent k act)) = wrapInt (idx m + 1)
    /\ heap (snd (addChild m parent k act)) !! length (heap m) = Some nd
    /\ index nd = idx (snd (addChild m parent k act))
    /\ Start nd = length (heap m)
    /\ kind nd = k /\ action nd = act /\ anc nd = parent /\ Child nd = []
    /\ match parent with
       | None =>
           root (snd (addChild m parent k act)) = Some (length (heap m))
           /\ forall p, (p < length (heap m))%nat ->
                heap (snd (addChild m parent k act)) !! p = heap m !! p
       | Some a =>
           root (snd (addChild m parent k act)) = root m
           /\ (exists old,
                  heap m !! a = Some old
                  /\ heap (snd (addChild m parent k act)) !! a
                     = Some (append_Child (length (heap m)) old)
                  /\ last (Child (append_Child (length (heap m)) old))
                     = Some (length (heap m)))
           /\ forall p, (p < length (heap m))%nat -> p <> a ->
                heap (snd (addChild m parent k act)) !! p = heap m !! p
       end.
Proof.
  intros Hvalid.
  assert (Hfresh : parent <> Some (length (heap m))).
  { intros H. apply Hvalid in H. lia. }
  exists (fresh m parent k act).
  rewrite addChild_fst, addChild_idx, addChild_root.
  rewrite (addChild_lookup_new _ _ _ _ Hfresh).
  repeat (split; [reflexivity|]).
  destruct parent as [a|].
  - split; [reflexivity|]. split.
    + specialize (Hvalid a eq_refl).
      destruct (lookup_lt_is_Some_2 (heap m) a Hvalid) as [old Hold].
      exists old. split; [assumption|]. split.
      * rewrite addChild_lookup_old by assumption.
        destruct (decide (Some a = Some a)); [|congruence].
        rewrite Hold. reflexivity.
      * simpl. apply last_snoc.
    + intros p Hp Hne. rewrite addChild_lookup_old by assumption.
      destruct (decide (Some a = Some p)); [congruence|reflexivity].
  - split; [reflexivity|]. intros p Hp.
    rewrite addChild_lookup_old by assumption.
    destruct (decide (None = Some p)); [discriminate|reflexivity].
Qed.

(** In the arena [Ast] returns, the node at position [i], the [i+1]-th
    node constructed, carries the index [i + 1] as a Go [int]. *)
Lemma Ast_indexes ParseFile src f :
  ParseFile src = inr f ->
  exists l,
    Ast ParseFile src = Returns l
    /\ (forall i nd, l_heap l !! i = Some nd ->
          index nd = wrapInt (Z.of_nat i + 1))
    /\ (Z.of_nat (length (l_heap l)) < 2 ^ 63 ->
        forall i j ni nj,
          (i < j)%nat -> l_heap l !! i = Some ni -> l_heap l !! j = Some nj ->
          index ni < index nj).
Proof.
  intros Hp.
  destruct (Ast_returns ParseFile src f Hp) as (e & (_ & _ & _ & Hidx) & ->).
  eexists. split; [reflexivity|]. cbn [l_heap].
  split; [exact Hidx|].
  intros Hlen i j ni nj Hij Hi Hj.
  rewrite (Hidx i ni Hi), (Hidx j nj Hj).
  apply lookup_lt_Some in Hj.
  rewrite !wrapInt_small by lia. lia.
Qed.

(** C5.  Every call of [addChild] increments the counter behind [index],
    gives the new node the new counter value as its index and itself as
    [Start], and sets the root when there is no ancestor or else appends
    the node as the last child of the ancestor.  In the arena [Ast]
    returns, the indexes therefore follow the order of construction: the
    [i+1]-th node has index [i + 1], so that the indexes strictly increase
    and are distinct, as long as the number of nodes fits Go's [int]. *)
Theorem addChild_contract_and_indexes :
  (forall m parent k act,
      (forall a, parent = Some a -> (a < length (heap m))%nat) ->
      exists nd,
        fst (addChild m parent k act) = length (heap m)
        /\ idx (snd (addChild m parent k act)) = wrapInt (idx m + 1)
        /\ heap (snd (addChild m parent k act)) !! length (heap m) = Some nd
        /\ index nd = idx (snd (addChild m parent k act))
        /\ Start nd = length (heap m)
        /\ kind nd = k /\ action nd = act /\ anc nd = parent /\ Child nd = []
        /\ match parent with
           | None =>
               root (snd (addChild m parent k act)) = Some (length (heap m))
               /\ forall p, (p < length (heap m))%nat ->
                    heap (snd (addChild m parent k act)) !! p = heap m !! p
           | Some a =>
               root (snd (addChild m parent k act)) = root m
               /\ (exists old,
                      heap m !! a = Some old
                      /\ heap (snd (addChild m parent k act)) !! a
                         = Some (append_Child (length (heap m)) old)
                      /\ last (Child (append_Child (length (heap m)) old))
                         = Some (length (heap m)))
               /\ forall p, (p < length (heap m))%nat -> p <> a ->
                    heap (snd (addChild m parent k act)) !! p = heap m !! p
           end)
  /\ (forall ParseFile src f,
        ParseFile src = inr f ->
        exists l,
          Ast ParseFile src = Returns l
          /\ (forall i nd, l_heap l !! i = Some nd ->
                index nd = wrapInt (Z.of_nat i + 1))
          /\ (Z.of_nat (length (l_heap l)) < 2 ^ 63 ->
              forall i j ni nj,
                (i < j)%nat ->
                l_heap l !! i = Some ni -> l_heap l !! j = Some nj ->
                index ni < index nj)).
Proof.
  split.
  - apply addChild_contract.
  - apply Ast_indexes.
Qed.

Lemma addChild_contract_and_indexes_witness :
  (forall a, Some 0%nat = Some a -> (a < length (heap rootStore))%nat)
  /\ parseSample sampleSrc = inr sampleFile
  /\ idx (snd (addChild rootStore (Some 0%nat) Ident Nop)) = 2
  /\ (Child <$> heap (snd (addChild rootStore (Some 0%nat) Ident Nop)) !! 0%nat)
     = Some [1%nat]
  /\ exists l,
      Ast parseSample sampleSrc = Returns l
      /\ forall i j ni nj,
          (i < j)%nat -> l_heap l !! i = Some ni -> l_heap l !! j = Some nj ->
          index ni < index nj.
Proof.
  assert (Hvalid : forall a, Some 0%nat = Some a ->
                             (a < length (heap rootStore))%nat).
  { intros a [= <-]. simpl. lia. }
  destruct addChild_contract_and_indexes as [Hcall Hast].
  split; [exact Hvalid|]. split; [reflexivity|].
  destruct (Hcall rootStore (Some 0%nat) Ident Nop Hvalid)
    as (nd & _ & Hidx & _ & _ & _ & _ & _ & _ & _ & _ & (old & Hold & Hnew & _) & _).
  split; [rewrite Hidx; reflexivity|].
  split.
  { rewrite Hnew. injection Hold as <-. reflexivity. }
  destruct (Hast parseSample sampleSrc sampleFile eq_refl)
    as (l & Hl & _ & Hinc).
  exists l. split; [exact Hl|]. apply Hinc.
  vm_compute in Hl. injection Hl as <-. reflexivity.
Defined.

(** ** Range statements *)

Lemma visit_RangeStmt e key value tok x body :
  visit e (Some (ast.RangeStmt key value tok x body))
  = Returns (rangePushed e).
Proof. reflexivity. Qed.

(** The visit of a range statement adds two nodes: the [ForRangeStmt]
    parent under the current ancestor, and below it the [RangeStmt] node,
    which becomes the current ancestor. *)
Lemma range_visit e key value tok x body :
  stack_ok e ->
  exists e' parent child,
    visit e (Some (ast.RangeStmt key value tok x body)) = Returns e'
    /\ node_at e' (length (heap (mem e))) = Some parent
    /\ kind parent = ForRangeStmt /\ action parent = Nop
    /\ anc parent = top (st e)
    /\ Child parent = [S (length (heap (mem e)))]
    /\ node_at e' (S (length (heap (mem e)))) = Some child
    /\ kind child = RangeStmt /\ action child = Range
    /\ anc child = Some (length (heap (mem e)))
    /\ top (st e') = Some (S (length (heap (mem e)))).
Proof.
  intros Hs. rewrite visit_RangeStmt.
  destruct (rangePushed_node_child e) as (cn & Hcn & Hk & Ha & Hanc & _).
  eexists _, _, cn. split; [reflexivity|].
  split; [apply rangePushed_node_parent, top_fresh, Hs|].
  repeat (split; [reflexivity|]).
  split; [assumption|]. repeat (split; [assumption|]).
  rewrite rangePushed_st. apply top_push.
Qed.

Lemma Ast_ranges ParseFile src f :
  ParseFile src = inr f ->
  exists l,
    Ast ParseFile src = Returns l
    /\ forall p nd,
        l_heap l !! p = Some nd -> kind nd = ForRangeStmt ->
        exists c cn,
          Child nd = [c] /\ l_heap l !! c = Some cn
          /\ kind cn = RangeStmt /\ action cn = Range /\ anc cn = Some p.
Proof.
  intros Hp.
  destruct (Ast_returns ParseFile src f Hp) as (e & (_ & Hr & _) & ->).
  eexists. split; [reflexivity|]. exact Hr.
Qed.

(** C6.  The visit of a range statement creates a [ForRangeStmt] node, for
    which the syntax tree has no node of its own, and a [RangeStmt] node
    with the [Range] action as its child; and in the arena [Ast] returns,
    every [ForRangeStmt] node has exactly one child, which is a
    [RangeStmt] node with the [Range] action and has it as ancestor. *)
Theorem range_stmt_lowering :
  (forall e key value tok x body,
      stack_ok e ->
      exists e' parent child,
        visit e (Some (ast.RangeStmt key value tok x body)) = Returns e'
        /\ node_at e' (length (heap (mem e))) = Some parent
        /\ kind parent = ForRangeStmt /\ action parent = Nop
        /\ anc parent = top (st e)
        /\ Child parent = [S (length (heap (mem e)))]
        /\ node_at e' (S (length (heap (mem e)))) = Some child
        /\ kind child = RangeStmt /\ action child = Range
        /\ anc child = Some (length (heap (mem e)))
        /\ top (st e') = Some (S (length (heap (mem e)))))
  /\ (forall ParseFile src f,
        ParseFile src = inr f ->
        exists l,
          Ast ParseFile src = Returns l
          /\ forall p nd,
              l_heap l !! p = Some nd -> kind nd = ForRangeStmt ->
              exists c cn,
                Child nd = [c] /\ l_heap l !! c = Some cn
                /\ kind cn = RangeStmt /\ action cn = Range
                /\ anc cn = Some p).
Proof.
  split.
  - apply range_visit.
  - apply Ast_ranges.
Qed.

Lemma range_stmt_lowering_witness :
  (exists e',
      visit initial
        (Some (ast.RangeStmt None None token.ILLEGAL (ast.Ident "a")
                 (ast.BlockStmt [])))
      = Returns e'
      /\ (kind <$> heap (mem e')) = [ForRangeStmt; RangeStmt]
      /\ top (st e') = Some 1%nat)
  /\ exists l nd c cn,
      Ast parseSample sampleSrc = Returns l
      /\ l_heap l !! 17%nat = Some nd /\ kind nd = ForRangeStmt
      /\ Child nd = [c] /\ l_heap l !! c = Some cn
      /\ kind cn = RangeStmt /\ action cn = Range /\ anc cn = Some 17%nat.
Proof.
  destruct range_stmt_lowering as [Hvisit Hast].
  split.
  - destruct (Hvisit initial None None token.ILLEGAL (ast.Ident "a")
                (ast.BlockStmt []))
      as (e' & parent & child & Hv & _ & _ & _ & _ & _ & _ & _ & _ & _ & Htop).
    { intros p Hp. apply elem_of_nil in Hp. contradiction. }
    exists e'. split; [exact Hv|]. split; [|exact Htop].
    vm_compute in Hv. injection Hv as <-. reflexivity.
  - destruct (Hast parseSample sampleSrc sampleFile eq_refl) as (l & Hl & Hr).
    assert (Hnd : exists nd, l_heap l !! 17%nat = Some nd /\ kind nd = ForRangeStmt).
    { vm_compute in Hl. injection Hl as <-. eexists. split; reflexivity. }
    destruct Hnd as (nd & Hnd & Hk).
    destruct (Hr 17%nat nd Hnd Hk) as (c & cn & H).
    exists l, nd, c, cn. tauto.
Defined.

(** ** The package loader *)

Lemma otherName_Some A files :
  (exists g, g ∈ files /\ Loader.package g <> A) ->
  exists B,
    Loader.otherName A files = Some B /\ B <> A
    /\ exists g, g ∈ files /\ Loader.package g = B.
Proof.
  induction files as [|f files IH]; intros (g & Hg & Hne).
  - apply elem_of_nil in Hg. contradiction.
  - simpl. destruct (String.eqb (Loader.package f) A) eqn:Hf.
    + apply String.eqb_eq in Hf.
      apply elem_of_cons in Hg as [->|Hg]; [contradiction|].
      destruct IH as (B & HB & HBA & g' & Hg' & Hp); [eauto|].
      exists B. split; [assumption|]. split; [assumption|].
      exists g'. split; [apply list_elem_of_further; assumption|assumption].
    + apply String.eqb_neq in Hf.
      exists (Loader.package f). split; [reflexivity|].
      split; [assumption|]. exists f. split; [apply list_elem_of_here|reflexivity].
Qed.

Lemma mixed_directory_fails notFound fs modcache R Q P pos dir files :
  Loader.resolve fs modcache R Q P = Some dir ->
  fs dir = Some files ->
  (exists f1 f2,
      f1 ∈ files /\ f2 ∈ files /\ Loader.package f1 <> Loader.package f2) ->
  exists A B,
    A <> B
    /\ (exists fa, fa ∈ files /\ Loader.package fa = A)
    /\ (exists fb, fb ∈ files /\ Loader.package fb = B)
    /\ Loader.import notFound fs modcache R Q P pos
       = inl (strconv.Itoa (Loader.line pos) +:+ ":"
              +:+ strconv.Itoa (Loader.col pos)
              +:+ ": import " +:+ Loader.quote +:+ Loader.showPath P
              +:+ Loader.quote +:+ " error: found packages " +:+ A
              +:+ " and " +:+ B +:+ " in " +:+ Loader.showPath dir).
Proof.
  intros Hres Hfs (f1 & f2 & H1 & H2 & Hne).
  destruct files as [|f files]; [apply elem_of_nil in H1; contradiction|].
  destruct (otherName_Some (Loader.package f) files)
    as (B & HB & HBA & g & Hg & Hgp).
  { apply elem_of_cons in H1 as [->|H1]; apply elem_of_cons in H2 as [->|H2].
    - contradiction.
    - exists f2. split; [assumption|congruence].
    - exists f1. split; [assumption|assumption].
    - destruct (String.eqb_spec (Loader.package f1) (Loader.package f)) as [E|E].
      + exists f2. split; [assumption|congruence].
      + exists f1. split; assumption. }
  exists (Loader.package f), B. split; [congruence|].
  split; [exists f; split; [apply list_elem_of_here|reflexivity]|].
  split; [exists g; split; [apply list_elem_of_further; assumption|assumption]|].
  unfold Loader.import, Loader.load. rewrite Hres, Hfs.
  unfold Loader.loadDir. rewrite HB.
  unfold Loader.importError, Loader.quote. reflexivity.
Qed.

Lemma pkg9_import notFound :
  Loader.import notFound Loader.pkg9 None ["_pkg9"] ["_pkg9"] Loader.fooPkg
                (Loader.mkPos 1 21)
  = inl Loader.pkg9Message.
Proof. reflexivity. Qed.

(** C9.  When the import path resolves to a directory in which two files
    declare different package names, the import fails and the host gets
    the message [<line>:<col>: import "<path>" error: found packages <A>
    and <B> in <dir>], with two different names [A] and [B] that files of
    the directory declare.  For the workspace [_pkg9/], the import of
    [github.com/foo/pkg] at line 1, column 21 gives the message
    [1:21: import "github.com/foo/pkg" error: found packages pkg and
    pkgfalse in _pkg9/src/github.com/foo/pkg]. *)
Theorem mixed_packages_error :
  (forall notFound fs modcache R Q P pos dir files,
      Loader.resolve fs modcache R Q P = Some dir ->
      fs dir = Some files ->
      (exists f1 f2,
          f1 ∈ files /\ f2 ∈ files
          /\ Loader.package f1 <> Loader.package f2) ->
      exists A B,
        A <> B
        /\ (exists fa, fa ∈ files /\ Loader.package fa = A)
        /\ (exists fb, fb ∈ files /\ Loader.package fb = B)
        /\ Loader.import notFound fs modcache R Q P pos
           = inl (strconv.Itoa (Loader.line pos) +:+ ":"
                  +:+ strconv.Itoa (Loader.col pos)
                  +:+ ": import " +:+ Loader.quote +:+ Loader.showPath P
                  +:+ Loader.quote +:+ " error: found packages " +:+ A
                  +:+ " and " +:+ B +:+ " in " +:+ Loader.showPath dir))
  /\ (forall notFound,
        Loader.import notFound Loader.pkg9 None ["_pkg9"] ["_pkg9"]
                      Loader.fooPkg (Loader.mkPos 1 21)
        = inl ("1:21: import " +:+ Loader.quote +:+ "github.com/foo/pkg"
               +:+ Loader.quote
               +:+ " error: found packages pkg and pkgfalse in _pkg9/src/github.com/foo/pkg")).
Proof.
  split.
  - apply mixed_directory_fails.
  - apply pkg9_import.
Qed.

Lemma mixed_packages_error_witness :
  exists A B,
    A <> B
    /\ Loader.import (fun _ => "") Loader.pkg9 None ["_pkg9"] ["_pkg9"]
                     Loader.fooPkg (Loader.mkPos 1 21)
       = inl ("1:21: import " +:+ Loader.quote +:+ "github.com/foo/pkg"
              +:+ Loader.quote +:+ " error: found packages " +:+ A
              +:+ " and " +:+ B +:+ " in _pkg9/src/github.com/foo/pkg").
Proof.
  destruct mixed_packages_error as [Hgen _].
  destruct (Hgen (fun _ => "") Loader.pkg9 None ["_pkg9"] ["_pkg9"]
              Loader.fooPkg (Loader.mkPos 1 21)
              ["_pkg9"; "src"; "github.com"; "foo"; "pkg"]
              [Loader.mkSource "pkg" "package pkg";
               Loader.mkSource "pkgfalse" "package pkgfalse"])
    as (A & B & Hne & _ & _ & Himp).
  - reflexivity.
  - reflexivity.
  - eexists _, _. split; [apply list_elem_of_here|].
    split; [apply list_elem_of_further, list_elem_of_here|].
    simpl. discriminate.
  - exists A, B. split; [exact Hne|exact Himp].
Defined.

(** * Further properties of the lowering *)

(** ** What one visit creates *)

Ltac in_plain := solve [repeat constructor].

Lemma visit_emits e a :
  (exists k act f d out,
      k <> ForRangeStmt /\ frame f /\ emits k act f
      /\ visit e (Some a) = Returns (pushed e k act f d out))
  \/ visit e (Some a) = Returns (rangePushed e).
Proof.
  destruct a;
    try (cbn [visit]; left; rewrite pushChild_pushed;
         eexists _, _, _, _, _;
         split; [|split; [|split; [|reflexivity]]];
         [discriminate|apply frame_id|apply emits_plain; in_plain]).
  - (* AssignStmt *)
    cbn [visit]. left. rewrite pushChild_pushed. eexists _, _, _, _, _.
    split; [|split; [|split; [|reflexivity]]];
      [discriminate|apply frame_id|].
    apply emits_plain. destruct (_ && _); in_plain.
  - (* BasicLit *)
    left. rewrite visit_BasicLit. eexists _, _, _, _, _.
    split; [|split; [|split; [|reflexivity]]]; [discriminate| |apply emits_lit].
    apply frame_compose; [apply frame_set_ident|apply frame_set_val].
  - (* BinaryExpr *)
    cbn [visit]. left. rewrite pushChild_pushed. eexists _, _, _, _, _.
    split; [|split; [|split; [|reflexivity]]];
      [discriminate|apply frame_id|].
    apply emits_plain. destruct Op; in_plain.
  - (* BranchStmt *)
    cbn [visit]. left. rewrite pushChild_pushed. eexists _, _, _, _, _.
    split; [|split; [|split; [|reflexivity]]];
      [destruct Tok; discriminate|apply frame_id|].
    apply emits_plain. destruct Tok; in_plain.
  - (* ForStmt *)
    cbn [visit]. left. rewrite pushChild_pushed. eexists _, _, _, _, _.
    split; [|split; [|split; [|reflexivity]]];
      [destruct Cond, Init, Post; discriminate|apply frame_id|].
    apply emits_plain. destruct Cond, Init, Post; in_plain.
  - (* FuncDecl *)
    cbn [visit]. left.
    exists FuncDecl, Nop, (fun x => x),
      (<[Name := length (heap (mem e))]> (def e)), (stdout e).
    split; [discriminate|]. split; [apply frame_id|].
    split; [apply emits_plain; in_plain|].
    unfold pushed.
    pose proof (addChild_fst (mem e) (top (st e)) FuncDecl Nop) as Hn.
    destruct (addChild (mem e) (top (st e)) FuncDecl Nop) as [n m].
    simpl in Hn. subst n. rewrite update_id. reflexivity.
  - (* Ident *)
    cbn [visit]. left.
    exists Ident, Nop, (set_ident Name), (def e), (stdout e).
    split; [discriminate|]. split; [apply frame_set_ident|].
    split; [apply emits_ident|].
    unfold pushed.
    destruct (addChild (mem e) (top (st e)) Ident Nop) as [n m]. reflexivity.
  - (* IfStmt *)
    cbn [visit]. left. rewrite pushChild_pushed. eexists _, _, _, _, _.
    split; [|split; [|split; [|reflexivity]]];
      [destruct Init, Else_; discriminate|apply frame_id|].
    apply emits_plain. destruct Init, Else_; in_plain.
  - (* IncDecStmt *)
    cbn [visit]. left. rewrite pushChild_pushed. eexists _, _, _, _, _.
    split; [|split; [|split; [|reflexivity]]];
      [discriminate|apply frame_id|].
    apply emits_plain. destruct Tok; in_plain.
  - (* RangeStmt *)
    right. reflexivity.
  - (* Other *)
    cbn [visit]. left. exists Undef, Nop, (fun x => x). eexists _, _.
    split; [discriminate|]. split; [apply frame_id|].
    split; [apply emits_plain; in_plain|].
    unfold pushChild, pushed. cbn [mem st def stdout].
    destruct (addChild (mem e) (top (st e)) Undef Nop) as [n m].
    rewrite update_id. reflexivity.
Qed.

(** ** Properties that every node keeps *)

Lemma pushed_mem e k act f d out :
  mem (pushed e k act f d out)
  = update (snd (addChild (mem e) (top (st e)) k act))
           (length (heap (mem e))) f.
Proof.
  unfold pushed.
  pose proof (addChild_fst (mem e) (top (st e)) k act) as Hn.
  destruct (addChild (mem e) (top (st e)) k act) as [n m].
  simpl in *. subst n. reflexivity.
Qed.

Lemma rangePushed_node_child_exact e :
  node_at (rangePushed e) (S (length (heap (mem e))))
  = Some (fresh (snd (addChild (mem e) (top (st e)) ForRangeStmt Nop))
                (Some (length (heap (mem e)))) RangeStmt Range).
Proof.
  unfold node_at. rewrite rangePushed_mem.
  pose proof (addChild_length (mem e) (top (st e)) ForRangeStmt Nop) as Hl.
  rewrite <- Hl.
  apply addChild_lookup_new. rewrite Hl. intros [= H]. lia.
Qed.

Section NodeInvariant.

Variable P : ptr -> Node -> Prop.

Hypothesis P_append : forall i nd c, P i nd -> P i (append_Child c nd).

Hypothesis P_new : forall m parent k act f,
  emits k act f -> P (length (heap m)) (f (fresh m parent k act)).

Lemma nodes_pushed e k act f d out :
  stack_ok e -> emits k act f -> nodes_ok P e ->
  nodes_ok P (pushed e k act f d out).
Proof.
  intros Hs Hem Hok i nd' Hi.
  pose proof (node_at_lt _ _ _ Hi) as Hlt. rewrite pushed_length in Hlt.
  destruct (decide (i = length (heap (mem e)))) as [->|Hne].
  - rewrite (pushed_node_new e k act f d out (top_fresh e Hs)) in Hi.
    injection Hi as <-. apply P_new. assumption.
  - rewrite pushed_node_old in Hi by lia.
    destruct (decide (top (st e) = Some i)).
    + destruct (node_at e i) as [nd|] eqn:Hnd; [|discriminate].
      injection Hi as <-. apply P_append. apply Hok. assumption.
    + apply Hok. assumption.
Qed.

Lemma nodes_rangePushed e :
  stack_ok e -> nodes_ok P e -> nodes_ok P (rangePushed e).
Proof.
  intros Hs Hok i nd' Hi.
  pose proof (node_at_lt _ _ _ Hi) as Hlt. rewrite rangePushed_length in Hlt.
  destruct (decide (i = S (length (heap (mem e))))) as [->|Hne1].
  { rewrite rangePushed_node_child_exact in Hi. injection Hi as <-.
    pose proof (addChild_length (mem e) (top (st e)) ForRangeStmt Nop) as Hl.
    rewrite <- Hl.
    apply (P_new _ _ RangeStmt Range (fun x => x)).
    apply emits_plain. in_plain. }
  destruct (decide (i = length (heap (mem e)))) as [->|Hne].
  { rewrite (rangePushed_node_parent e (top_fresh e Hs)) in Hi.
    injection Hi as <-. apply P_append.
    apply (P_new _ _ ForRangeStmt Nop (fun x => x)).
    apply emits_plain. in_plain. }
  rewrite rangePushed_node_old in Hi by lia.
  destruct (decide (top (st e) = Some i)).
  - destruct (node_at e i) as [nd|] eqn:Hnd; [|discriminate].
    injection Hi as <-. apply P_append. apply Hok. assumption.
  - apply Hok. assumption.
Qed.

Lemma nodes_visit e node e' :
  stack_ok e -> nodes_ok P e -> visit e node = Returns e' -> nodes_ok P e'.
Proof.
  intros Hs Hok. destruct node as [a|].
  - destruct (visit_emits e a)
      as [(k & act & f & d & out & _ & _ & Hem & ->)| ->]; intros [= <-].
    + apply nodes_pushed; assumption.
    + apply nodes_rangePushed; assumption.
  - unfold visit. destruct (pop (st e)) as [r|]; [|discriminate].
    simpl. intros [= <-]. exact Hok.
Qed.

Lemma nodes_visitAll calls : forall e e',
  lowering_inv e -> nodes_ok P e -> visitAll e calls = Returns e' ->
  nodes_ok P e'.
Proof.
  induction calls as [|node calls IH]; simpl; intros e e' Hinv Hok H.
  - injection H as <-. assumption.
  - destruct (visit e node) as [e1|] eqn:Hv; [|discriminate].
    simpl in H. eapply IH; [| |exact H].
    + eapply inv_visit; eassumption.
    + eapply nodes_visit; [apply Hinv| |]; eassumption.
Qed.

Lemma nodes_lowered f e :
  visitAll initial (ast.Inspect f) = Returns e -> nodes_ok P e.
Proof.
  apply nodes_visitAll; [apply inv_initial|].
  intros i nd Hi. discriminate.
Qed.

End NodeInvariant.

Lemma pairs_forall (check : Kind * Action -> bool) :
  forallb check pairs = true ->
  forall k act f, emits k act f -> check (k, act) = true.
Proof.
  intros Hall k act f Hem.
  rewrite forallb_forall in Hall. apply Hall. apply list_elem_of_In.
  unfold pairs. destruct Hem as [k act Hin| |].
  - do 2 apply list_elem_of_further. assumption.
  - apply list_elem_of_here.
  - apply list_elem_of_further, list_elem_of_here.
Qed.

Lemma emits_frame k act f : emits k act f -> frame f.
Proof.
  destruct 1.
  - apply frame_id.
  - apply frame_compose; [apply frame_set_ident|apply frame_set_val].
  - apply frame_set_ident.
Qed.

Lemma emits_kind_action k act f m parent :
  emits k act f ->
  kind (f (fresh m parent k act)) = k
  /\ action (f (fresh m parent k act)) = act.
Proof.
  intros Hem. destruct (emits_frame _ _ _ Hem (fresh m parent k act))
    as (_ & _ & -> & -> & _). split; reflexivity.
Qed.

(** A property of the kind and the action that holds for every pair of
    [pairs] holds for every node of a lowered file. *)
Lemma pairs_lowered (check : Kind * Action -> bool) f e :
  forallb check pairs = true ->
  visitAll initial (ast.Inspect f) = Returns e ->
  nodes_ok (fun _ nd => check (kind nd, action nd) = true) e.
Proof.
  intros Hall. apply nodes_lowered.
  - intros i nd c H. exact H.
  - intros m parent k act g Hem.
    destruct (emits_kind_action k act g m parent Hem) as [-> ->].
    eapply pairs_forall; eassumption.
Qed.

Lemma named_pairs : forallb named pairs = true.
Proof. vm_compute. reflexivity. Qed.

Lemma consistent_pairs : forallb consistent pairs = true.
Proof. vm_compute. reflexivity. Qed.


Lemma start_run_lowered f e :
  visitAll initial (ast.Inspect f) = Returns e ->
  nodes_ok (fun i nd => Start nd = i /\ run nd = action nd) e.
Proof.
  apply nodes_lowered.
  - intros i nd c H. exact H.
  - intros m parent k act g Hem.
    destruct Hem; cbn [set_val set_ident fresh Start run action];
      split; reflexivity.
Qed.

(** ** The links form a tree *)

Lemma tree_update m n f : frame f -> tree_ok m -> tree_ok (update m n f).
Proof.
  intros Hf (T1 & T2 & T3).
  assert (Hlk : forall i nd',
             heap (update m n f) !! i = Some nd' ->
             exists nd, heap m !! i = Some nd
                        /\ anc nd' = anc nd /\ Child nd' = Child nd).
  { intros i nd' Hi. unfold update in Hi. cbn [heap] in Hi.
    destruct (decide (n = i)) as [->|Hne].
    - rewrite list_lookup_alter_eq in Hi.
      destruct (heap m !! i) as [nd|]; [|discriminate].
      injection Hi as <-. exists nd. split; [reflexivity|].
      destruct (Hf nd) as (-> & _ & _ & _ & _ & ->). auto.
    - rewrite list_lookup_alter_ne in Hi by assumption. eauto. }
  assert (Hkl : forall i nd,
             heap m !! i = Some nd ->
             exists nd', heap (update m n f) !! i = Some nd'
                         /\ anc nd' = anc nd /\ Child nd' = Child nd).
  { intros i nd Hi. unfold update. cbn [heap].
    destruct (decide (n = i)) as [->|Hne].
    - rewrite list_lookup_alter_eq, Hi. eexists. split; [reflexivity|].
      destruct (Hf nd) as (-> & _ & _ & _ & _ & ->). auto.
    - rewrite list_lookup_alter_ne by assumption. eauto. }
  split; [|split].
  - intros i nd' p Hi Hp.
    destruct (Hlk i nd' Hi) as (nd & Hnd & Ha & _). rewrite Ha in Hp.
    destruct (T1 i nd p Hnd Hp) as (Hlt & pn & Hpn & Hin).
    split; [assumption|].
    destruct (Hkl p pn Hpn) as (pn' & Hpn' & _ & Hc).
    exists pn'. rewrite Hc. auto.
  - intros p pn' c Hp Hc.
    destruct (Hlk p pn' Hp) as (pn & Hpn & _ & Hch). rewrite Hch in Hc.
    destruct (T2 p pn c Hpn Hc) as (Hlt & cn & Hcn & Hanc).
    split; [assumption|].
    destruct (Hkl c cn Hcn) as (cn' & Hcn' & Ha & _).
    exists cn'. rewrite Ha. auto.
  - intros p pn' j1 j2 c1 c2 Hp Hj H1 H2.
    destruct (Hlk p pn' Hp) as (pn & Hpn & _ & Hch). rewrite Hch in H1, H2.
    exact (T3 p pn j1 j2 c1 c2 Hpn Hj H1 H2).
Qed.

Lemma tree_addChild m parent k act :
  valid_parent m parent -> tree_ok m ->
  tree_ok (snd (addChild m parent k act)).
Proof.
  intros Hvalid (T1 & T2 & T3).
  set (n := length (heap m)).
  set (m' := snd (addChild m parent k act)).
  assert (Hfresh : parent <> Some n).
  { intros H. apply Hvalid in H. unfold n in H. lia. }
  assert (Hnew : heap m' !! n = Some (fresh m parent k act)).
  { apply addChild_lookup_new. assumption. }
  assert (Hold : forall p, (p < n)%nat ->
             heap m' !! p = if decide (parent = Some p)
                            then append_Child n <$> heap m !! p
                            else heap m !! p).
  { intros p Hp. apply addChild_lookup_old. assumption. }
  assert (Hlen : length (heap m') = S n) by apply addChild_length.
  (* an old node after the call *)
  assert (Hkeep : forall p pn, heap m !! p = Some pn ->
             exists pn', heap m' !! p = Some pn' /\ anc pn' = anc pn
                         /\ (forall c, c ∈ Child pn -> c ∈ Child pn')).
  { intros p pn Hp. pose proof (lookup_lt_Some _ _ _ Hp) as Hlt.
    rewrite (Hold p Hlt), Hp.
    destruct (decide (parent = Some p)); eexists; (split; [reflexivity|]);
      (split; [reflexivity|]); cbn [append_Child Child]; intros c Hc;
      [apply elem_of_app; left|]; assumption. }
  (* a node after the call, seen before it *)
  assert (Hback : forall p pn', heap m' !! p = Some pn' ->
             (p = n /\ pn' = fresh m parent k act)
             \/ ((p < n)%nat
                 /\ exists pn, heap m !! p = Some pn /\ anc pn' = anc pn
                    /\ (Child pn' = Child pn
                        \/ (parent = Some p /\ Child pn' = Child pn ++ [n])))).
  { intros p pn' Hp. pose proof (lookup_lt_Some _ _ _ Hp) as Hlt.
    rewrite Hlen in Hlt.
    destruct (decide (p = n)) as [->|Hne].
    - left. rewrite Hnew in Hp. injection Hp as <-. auto.
    - right. split; [lia|]. rewrite Hold in Hp by lia.
      destruct (decide (parent = Some p)) as [Hpar|Hpar].
      + destruct (heap m !! p) as [pn|]; [|discriminate].
        injection Hp as <-. exists pn. cbn [append_Child anc Child]. auto.
      + exists pn'. auto. }
  split; [|split].
  - intros i nd' p Hi Hp.
    destruct (Hback i nd' Hi) as [[-> ->]|(Hlt & nd & Hnd & Ha & _)].
    + cbn [fresh anc] in Hp. pose proof (Hvalid p Hp) as Hv. fold n in Hv.
      split; [assumption|].
      rewrite (Hold p Hv).
      destruct (decide (parent = Some p)); [|contradiction].
      destruct (lookup_lt_is_Some_2 (heap m) p Hv) as [pn Hpn].
      rewrite Hpn. eexists. split; [reflexivity|].
      cbn [append_Child Child]. apply elem_of_app. right.
      apply list_elem_of_here.
    + rewrite Ha in Hp.
      destruct (T1 i nd p Hnd Hp) as (Hpi & pn & Hpn & Hin).
      split; [assumption|].
      destruct (Hkeep p pn Hpn) as (pn' & Hpn' & _ & Hsub).
      exists pn'. auto.
  - intros p pn' c Hp Hc.
    destruct (Hback p pn' Hp) as [[-> ->]|(Hlt & pn & Hpn & _ & Hch)].
    + cbn [fresh Child] in Hc. apply elem_of_nil in Hc. contradiction.
    + destruct Hch as [Hch|[Hpar Hch]]; rewrite Hch in Hc.
      * destruct (T2 p pn c Hpn Hc) as (Hpc & cn & Hcn & Hanc).
        split; [assumption|].
        destruct (Hkeep c cn Hcn) as (cn' & Hcn' & Ha & _).
        exists cn'. rewrite Ha. auto.
      * apply elem_of_app in Hc as [Hc|Hc].
        -- destruct (T2 p pn c Hpn Hc) as (Hpc & cn & Hcn & Hanc).
           split; [assumption|].
           destruct (Hkeep c cn Hcn) as (cn' & Hcn' & Ha & _).
           exists cn'. rewrite Ha. auto.
        -- apply list_elem_of_singleton in Hc. subst c.
           split; [assumption|].
           exists (fresh m parent k act). split; [assumption|].
           cbn [fresh anc]. assumption.
  - intros p pn' j1 j2 c1 c2 Hp Hj H1 H2.
    destruct (Hback p pn' Hp) as [[-> ->]|(Hlt & pn & Hpn & _ & Hch)].
    + cbn [fresh Child] in H1. discriminate H1.
    + destruct Hch as [Hch|[Hpar Hch]]; rewrite Hch in H1, H2.
      * exact (T3 p pn j1 j2 c1 c2 Hpn Hj H1 H2).
      * apply lookup_app_Some in H1, H2.
        destruct H1 as [H1|[Hl1 H1]], H2 as [H2|[Hl2 H2]].
        -- exact (T3 p pn j1 j2 c1 c2 Hpn Hj H1 H2).
        -- apply list_lookup_singleton_Some in H2 as [_ <-].
           apply list_elem_of_lookup_2 in H1.
           destruct (T2 p pn c1 Hpn H1) as (_ & cn & Hcn & _).
           apply lookup_lt_Some in Hcn. assumption.
        -- apply lookup_lt_Some in H2. lia.
        -- apply list_lookup_singleton_Some in H1 as [E1 _].
           apply list_lookup_singleton_Some in H2 as [E2 _]. lia.
Qed.

Lemma top_stack_valid e : stack_ok e -> valid_parent (mem e) (top (st e)).
Proof. intros Hs a Ha. apply (top_valid e a Hs Ha). Qed.

Lemma tree_visit e node e' :
  stack_ok e -> tree_ok (mem e) -> visit e node = Returns e' ->
  tree_ok (mem e').
Proof.
  intros Hs Ht. destruct node as [a|].
  - destruct (visit_Some e a) as [(k & act & f & d & out & _ & Hf & ->)| ->];
      intros [= <-].
    + rewrite pushed_mem. apply tree_update; [assumption|].
      apply tree_addChild; [apply top_stack_valid|]; assumption.
    + rewrite rangePushed_mem. apply tree_addChild.
      * intros a0 [= <-]. rewrite addChild_length. lia.
      * apply tree_addChild; [apply top_stack_valid|]; assumption.
  - unfold visit. destruct (pop (st e)) as [r|]; [|discriminate].
    simpl. intros [= <-]. exact Ht.
Qed.

Lemma tree_visitAll calls : forall e e',
  lowering_inv e -> tree_ok (mem e) -> visitAll e calls = Returns e' ->
  tree_ok (mem e').
Proof.
  induction calls as [|node calls IH]; simpl; intros e e' Hinv Ht H.
  - injection H as <-. assumption.
  - destruct (visit e node) as [e1|] eqn:Hv; [|discriminate].
    simpl in H. eapply IH; [| |exact H].
    + eapply inv_visit; eassumption.
    + eapply tree_visit; [apply Hinv| |]; eassumption.
Qed.

Lemma tree_initial : tree_ok (mem initial).
Proof.
  split; [|split]; intros; discriminate.
Qed.

(** ** One root *)

Section Deep.

Variable Q : env -> Prop.

Hypothesis Q_some : forall e a e',
  st e <> [] -> Q e -> visit e (Some a) = Returns e' -> Q e'.

Hypothesis Q_none : forall e e',
  Q e -> visit e None = Returns e' -> Q e'.

Lemma deep_nil : deep Q [].
Proof. intros e _ HQ. exists e. auto. Qed.

Lemma deep_app l1 l2 : deep Q l1 -> deep Q l2 -> deep Q (l1 ++ l2).
Proof.
  intros H1 H2 e Hne HQ. rewrite visitAll_app.
  destruct (H1 e Hne HQ) as (e1 & -> & Hs1 & HQ1). cbn [bind].
  destruct (H2 e1 ltac:(congruence) HQ1) as (e2 & -> & Hs2 & HQ2).
  exists e2. split; [reflexivity|]. split; [congruence|assumption].
Qed.

Lemma rooted_wrap a l :
  deep Q l ->
  forall e e1, visit e (Some a) = Returns e1 -> Q e1 ->
    exists e', visitAll e (Some a :: l ++ [None]) = Returns e'
               /\ st e' = st e /\ Q e'.
Proof.
  intros Hl e e1 Hv HQ1. cbn [visitAll]. rewrite Hv. cbn [bind].
  destruct (visit_Some_st e a) as (e1' & n & Hv' & Hs1).
  rewrite Hv in Hv'. injection Hv' as <-.
  rewrite visitAll_app.
  assert (Hne : st e1 <> []).
  { rewrite Hs1. intros H. apply app_eq_nil in H as [_ H]. discriminate. }
  destruct (Hl e1 Hne HQ1) as (e2 & -> & Hs2 & HQ2). cbn [bind visitAll].
  destruct (visit_None_st e2 (st e) n ltac:(congruence)) as (e3 & Hv3 & Hs3).
  rewrite Hv3. cbn [bind]. exists e3. split; [reflexivity|].
  split; [assumption|]. eapply Q_none; eassumption.
Qed.

Lemma rooted_deep n : rooted Q n -> deep Q (ast.Inspect n).
Proof.
  intros Hr e Hne HQ.
  destruct (visit_Some_st e n) as (e1 & x & Hv & _).
  apply (Hr e e1 Hv). eapply Q_some; eassumption.
Qed.

Lemma deep_ident name : deep Q [Some (ast.Ident name); None].
Proof.
  intros e Hne HQ.
  destruct (visit_Some_st e (ast.Ident name)) as (e1 & x & Hv & _).
  apply (rooted_wrap (ast.Ident name) [] deep_nil e e1 Hv).
  eapply Q_some; eassumption.
Qed.

Lemma deep_walkList {A} (f : A -> list (option ast.Node)) l :
  (forall x, deep Q (f x)) -> deep Q (ast.walkList f l).
Proof.
  intros H. unfold ast.walkList. induction l as [|x l IH]; simpl.
  - apply deep_nil.
  - apply deep_app; [apply H|apply IH].
Qed.

Lemma deep_walkOpt {A} (f : A -> list (option ast.Node)) o :
  (forall x, deep Q (f x)) -> deep Q (ast.walkOpt f o).
Proof.
  intros H. destruct o as [x|]; simpl; [apply H|apply deep_nil].
Qed.

Lemma deep_walkList_all l :
  list_all ast.Node (rooted Q) l -> deep Q (ast.walkList ast.Inspect l).
Proof.
  induction 1 as [|a Ha l Hl IH]; unfold ast.walkList; cbn [map concat].
  - apply deep_nil.
  - apply deep_app; [apply rooted_deep; assumption|assumption].
Qed.

Lemma deep_walkOpt_all o :
  option_all ast.Node (rooted Q) o -> deep Q (ast.walkOpt ast.Inspect o).
Proof.
  destruct 1; unfold ast.walkOpt; [apply rooted_deep; assumption|apply deep_nil].
Qed.

(** Below the node that [ast.Inspect] starts from, every call finds an
    ancestor on the stack. *)
Lemma rooted_Inspect n : rooted Q n.
Proof.
  induction n; unfold rooted; cbn [ast.Inspect];
    apply rooted_wrap;
    repeat first
      [ apply deep_nil
      | apply deep_ident
      | apply rooted_deep; assumption
      | apply deep_app
      | apply deep_walkList_all; assumption
      | apply deep_walkOpt_all; assumption
      | apply deep_walkList; intros; apply deep_ident
      | apply deep_walkOpt; intros; apply deep_ident ].
Qed.

End Deep.

Lemma top_nonempty s : s <> [] -> exists a, top s = Some a.
Proof.
  destruct s as [|v s' _] using rev_ind; [congruence|].
  intros _. exists v. apply top_push.
Qed.

Lemma root_some k e a e' :
  st e <> [] -> rooted_inv k e -> visit e (Some a) = Returns e' ->
  rooted_inv k e'.
Proof.
  intros Hne [Hinv (Hroot & (r & Hr & Hanc & Hk) & Hall)] Hv.
  split; [eapply inv_visit; eassumption|].
  destruct (top_nonempty _ Hne) as (p & Htop).
  pose proof (top_fresh e (proj1 Hinv)) as Hfresh.
  pose proof (node_at_lt _ _ _ Hr) as H0.
  destruct (visit_Some e a) as [(k' & act & f & d & out & _ & Hf & Heq)|Heq];
    rewrite Heq in Hv; injection Hv as <-.
  - split; [|split].
    + rewrite pushed_mem. unfold update. cbn [root].
      rewrite addChild_root, Htop. exact Hroot.
    + rewrite pushed_node_old by exact H0. rewrite Hr.
      destruct (decide _); eexists; (split; [reflexivity|]); auto.
    + intros i nd Hi Hnone.
      pose proof (node_at_lt _ _ _ Hi) as Hlt. rewrite pushed_length in Hlt.
      destruct (decide (i = length (heap (mem e)))) as [->|Hne'].
      * rewrite pushed_node_new in Hi by exact Hfresh.
        injection Hi as <-. destruct (Hf (fresh (mem e) (top (st e)) k' act))
          as (Ha & _). rewrite Ha in Hnone. cbn [fresh anc] in Hnone.
        congruence.
      * rewrite pushed_node_old in Hi by lia.
        destruct (decide _).
        -- destruct (node_at e i) as [x|] eqn:Hx; [|discriminate].
           injection Hi as <-. apply (Hall i x Hx). exact Hnone.
        -- apply (Hall i nd Hi Hnone).
  - split; [|split].
    + rewrite rangePushed_mem. rewrite addChild_root, addChild_root, Htop.
      exact Hroot.
    + rewrite rangePushed_node_old by exact H0. rewrite Hr.
      destruct (decide _); eexists; (split; [reflexivity|]); auto.
    + intros i nd Hi Hnone.
      pose proof (node_at_lt _ _ _ Hi) as Hlt. rewrite rangePushed_length in Hlt.
      destruct (decide (i = S (length (heap (mem e))))) as [->|Hne1].
      { destruct (rangePushed_node_child e) as (cn & Hcn & _ & _ & Hc & _).
        rewrite Hcn in Hi. injection Hi as <-. congruence. }
      destruct (decide (i = length (heap (mem e)))) as [->|Hne2].
      { rewrite rangePushed_node_parent in Hi by exact Hfresh.
        injection Hi as <-. cbn [append_Child fresh anc] in Hnone.
        congruence. }
      rewrite rangePushed_node_old in Hi by lia.
      destruct (decide _).
      * destruct (node_at e i) as [x|] eqn:Hx; [|discriminate].
        injection Hi as <-. apply (Hall i x Hx). exact Hnone.
      * apply (Hall i nd Hi Hnone).
Qed.

Lemma root_none k e e' :
  rooted_inv k e -> visit e None = Returns e' -> rooted_inv k e'.
Proof.
  intros [Hinv Hroot] Hv.
  split; [eapply inv_visit; eassumption|].
  unfold visit in Hv. destruct (pop (st e)) as [r|]; [|discriminate].
  simpl in Hv. injection Hv as <-. exact Hroot.
Qed.

Lemma root_first f :
  exists e1 r,
    visit initial (Some f) = Returns e1
    /\ node_at e1 0%nat = Some r /\ rooted_inv (kind r) e1.
Proof.
  assert (Hfresh : top (st initial) <> Some (length (heap (mem initial))))
    by discriminate.
  destruct (visit_Some initial f)
    as [(k & act & g & d & out & Hk & Hg & Heq)|Heq].
  - eexists _, _. split; [exact Heq|].
    split; [apply pushed_node_new; exact Hfresh|].
    split; [eapply inv_visit; [apply inv_initial|exact Heq]|].
    split; [|split].
    + rewrite pushed_mem. reflexivity.
    + eexists. split; [apply pushed_node_new; exact Hfresh|].
      split; [|reflexivity].
      destruct (Hg (fresh (mem initial) (top (st initial)) k act)) as (-> & _).
      reflexivity.
    + intros i nd Hi _. apply node_at_lt in Hi. rewrite pushed_length in Hi.
      cbn in Hi. lia.
  - eexists _, _. split; [exact Heq|].
    split; [apply rangePushed_node_parent; exact Hfresh|].
    split; [eapply inv_visit; [apply inv_initial|exact Heq]|].
    split; [|split].
    + reflexivity.
    + eexists. split; [apply rangePushed_node_parent; exact Hfresh|].
      split; reflexivity.
    + intros i nd Hi Hnone.
      destruct i as [|[|i]]; [reflexivity| |].
      * vm_compute in Hi. injection Hi as <-. discriminate.
      * apply node_at_lt in Hi. rewrite rangePushed_length in Hi.
        cbn in Hi. lia.
Qed.

(** The lowering of a syntax tree, with everything that is known of the
    final state. *)
Lemma root_lowered f :
  exists e k,
    visitAll initial (ast.Inspect f) = Returns e
    /\ st e = [] /\ rooted_inv k e
    /\ (forall name decls, f = ast.File name decls -> k = File).
Proof.
  destruct (root_first f) as (e1 & r & Hv & Hr & HQ).
  destruct (rooted_Inspect (rooted_inv (kind r)) (root_some (kind r))
              (root_none (kind r)) f initial e1 Hv HQ) as (e & He & Hst & HQe).
  exists e, (kind r). split; [exact He|]. split; [exact Hst|].
  split; [exact HQe|].
  intros name decls ->. cbn [visit] in Hv. injection Hv as <-.
  vm_compute in Hr. injection Hr as <-. reflexivity.
Qed.

(** ** What one visit allocates, prints and defines *)

Lemma diagnostics_cons call calls :
  diagnostics (call :: calls) = diagnostics [call] ++ diagnostics calls.
Proof.
  unfold diagnostics. cbn [omap list_omap].
  destruct call as [[]|]; reflexivity.
Qed.

Ltac visit_case H :=
  cbn [visit] in H; injection H as <-;
  unfold pushChild; cbn [mem st def stdout];
  repeat match goal with
         | |- context [addChild ?m ?p ?k ?a] =>
             let Hl := fresh "Hl" in
             let Hn := fresh "Hn" in
             pose proof (addChild_length m p k a) as Hl;
             pose proof (addChild_fst m p k a) as Hn;
             destruct (addChild m p k a) as [? ?];
             cbn [fst snd] in Hl, Hn; cbv beta iota
         end;
  cbn [mem st def stdout update heap].

Lemma visit_effects e node e' :
  visit e node = Returns e' ->
  length (heap (mem e')) = (length (heap (mem e)) + allocated node)%nat
  /\ stdout e' = stdout e ++ diagnostics [node]
  /\ def e' = defines node (length (heap (mem e))) (def e).
Proof.
  intros H. destruct node as [a|].
  - destruct a; visit_case H.
    all: cbn [allocated diagnostics omap list_omap defines].
    all: try (split; [lia|split; [symmetry; apply app_nil_r|reflexivity]]).
    + (* BasicLit *)
      destruct (strconv.ParseInt Value 0 0) as [v [err|]];
        cbn [update heap]; rewrite !length_alter;
        (split; [lia|split; [symmetry; apply app_nil_r|reflexivity]]).
    + (* FuncDecl *)
      subst. split; [lia|split; [symmetry; apply app_nil_r|reflexivity]].
    + (* Ident *)
      rewrite length_alter.
      split; [lia|split; [symmetry; apply app_nil_r|reflexivity]].
    + (* RangeStmt *)
      rewrite length_alter, length_app. cbn [length].
      split; [lia|split; [symmetry; apply app_nil_r|reflexivity]].
    + (* Other *)
      split; [lia|split; reflexivity].
  - unfold visit in H. destruct (pop (st e)) as [r|]; [|discriminate].
    simpl in H. injection H as <-. cbn [mem stdout def allocated defines].
    split; [lia|]. split; [symmetry; apply app_nil_r|reflexivity].
Qed.

Lemma visitAll_effects calls : forall e e',
  visitAll e calls = Returns e' ->
  length (heap (mem e'))
  = (length (heap (mem e)) + sum_list (allocated <$> calls))%nat
  /\ stdout e' = stdout e ++ diagnostics calls
  /\ def e' = definitions calls (length (heap (mem e))) (def e).
Proof.
  induction calls as [|call calls IH]; intros e e' H.
  - injection H as <-. cbn. rewrite app_nil_r.
    split; [lia|split; reflexivity].
  - cbn [visitAll] in H.
    destruct (visit e call) as [e1|] eqn:Hv; [|discriminate].
    cbn [bind] in H.
    destruct (visit_effects e call e1 Hv) as (Hl1 & Ho1 & Hd1).
    destruct (IH e1 e' H) as (Hl & Ho & Hd).
    rewrite Hl, Ho, Hd, Hl1, Ho1, Hd1. rewrite (diagnostics_cons call calls).
    cbn [fmap list_fmap sum_list definitions].
    fold (fmap (M := list) allocated calls).
    rewrite <- app_assoc. unfold id.
    split; [lia|split; reflexivity].
Qed.

(** ** Nodes are never rewritten *)

Lemma grown_refl nd : grown nd nd.
Proof. unfold grown. repeat split; reflexivity. Qed.

Lemma grown_append c nd : grown nd (append_Child c nd).
Proof.
  unfold grown. repeat split; try reflexivity.
  apply prefix_app_r. reflexivity.
Qed.

Lemma grown_trans a b c : grown a b -> grown b c -> grown a c.
Proof.
  unfold grown. intros (? & ? & ? & ? & ? & ? & ? & ? & Hab)
                       (? & ? & ? & ? & ? & ? & ? & ? & Hbc).
  repeat split; try congruence. etransitivity; eassumption.
Qed.

Lemma grown_old (e e' : env) p nd :
  node_at e' p = (if decide (top (st e) = Some p)
                  then append_Child (length (heap (mem e))) <$> node_at e p
                  else node_at e p) ->
  node_at e p = Some nd ->
  exists nd', node_at e' p = Some nd' /\ grown nd nd'.
Proof.
  intros -> Hnd. rewrite Hnd. destruct (decide _).
  - eexists. split; [reflexivity|apply grown_append].
  - eexists. split; [reflexivity|apply grown_refl].
Qed.

Lemma visit_grown e node e' p nd :
  visit e node = Returns e' -> node_at e p = Some nd ->
  exists nd', node_at e' p = Some nd' /\ grown nd nd'.
Proof.
  intros Hv Hnd. pose proof (node_at_lt _ _ _ Hnd) as Hp.
  destruct node as [a|].
  - destruct (visit_Some e a) as [(k & act & f & d & out & _ & _ & Heq)|Heq];
      rewrite Heq in Hv; injection Hv as <-.
    + apply (grown_old e); [apply pushed_node_old; exact Hp|exact Hnd].
    + apply (grown_old e); [apply rangePushed_node_old; exact Hp|exact Hnd].
  - unfold visit in Hv. destruct (pop (st e)) as [r|]; [|discriminate].
    simpl in Hv. injection Hv as <-.
    exists nd. split; [exact Hnd|apply grown_refl].
Qed.

Lemma visitAll_grown calls : forall e e' p nd,
  visitAll e calls = Returns e' -> node_at e p = Some nd ->
  exists nd', node_at e' p = Some nd' /\ grown nd nd'.
Proof.
  induction calls as [|call calls IH]; intros e e' p nd H Hnd.
  - injection H as <-. exists nd. split; [exact Hnd|apply grown_refl].
  - cbn [visitAll] in H.
    destruct (visit e call) as [e1|] eqn:Hv; [|discriminate].
    cbn [bind] in H.
    destruct (visit_grown e call e1 p nd Hv Hnd) as (nd1 & Hnd1 & Hg1).
    destruct (IH e1 e' p nd1 H Hnd1) as (nd' & Hnd' & Hg).
    exists nd'. split; [exact Hnd'|]. eapply grown_trans; eassumption.
Qed.

(** ** The run of Ast on a parsed file *)

Lemma Ast_run ParseFile src f :
  ParseFile src = inr f ->
  exists e k,
    visitAll initial (ast.Inspect f) = Returns e
    /\ st e = [] /\ rooted_inv k e
    /\ (forall name decls, f = ast.File name decls -> k = File)
    /\ Ast ParseFile src
       = Returns (mkLowered (root (mem e)) (def e) (heap (mem e)) (stdout e)).
Proof.
  intros Hp. destruct (root_lowered f) as (e & k & He & Hst & HQ & Hk).
  exists e, k. repeat (split; [assumption|]).
  unfold Ast. rewrite Hp, He. reflexivity.
Qed.

(** ** The definitions *)

Lemma definitions_keeps calls : forall n d name,
  is_Some (d !! name) -> is_Some (definitions calls n d !! name).
Proof.
  induction calls as [|call calls IH]; intros n d name H; [exact H|].
  cbn [definitions]. apply IH.
  destruct call as [[]|]; cbn [defines]; try exact H.
  destruct (decide (Name = name)) as [->|Hne].
  - rewrite lookup_insert_eq. eauto.
  - rewrite lookup_insert_ne by exact Hne. exact H.
Qed.

Lemma definitions_complete calls : forall n d recv name ty body,
  Some (ast.FuncDecl recv name ty body) ∈ calls ->
  is_Some (definitions calls n d !! name).
Proof.
  induction calls as [|call calls IH]; intros n d recv name ty body H.
  - apply elem_of_nil in H. contradiction.
  - apply elem_of_cons in H as [<-|H].
    + cbn [definitions defines]. apply definitions_keeps.
      rewrite lookup_insert_eq. eauto.
    + cbn [definitions]. eapply IH. exact H.
Qed.

Lemma definitions_sound calls : forall n d name p,
  definitions calls n d !! name = Some p ->
  d !! name = Some p
  \/ exists recv ty body, Some (ast.FuncDecl recv name ty body) ∈ calls.
Proof.
  induction calls as [|call calls IH]; intros n d name p H; [left; exact H|].
  cbn [definitions] in H. apply IH in H as [H|(recv & ty & body & H)].
  - destruct call as [[]|]; cbn [defines] in H; try (left; exact H).
    destruct (decide (Name = name)) as [->|Hne].
    + right. eexists _, _, _. apply list_elem_of_here.
    + rewrite lookup_insert_ne in H by exact Hne. left. exact H.
  - right. exists recv, ty, body. apply list_elem_of_further. exact H.
Qed.

Lemma def_visit e node e' :
  def_ok e -> visit e node = Returns e' -> def_ok e'.
Proof.
  intros Hok Hv.
  assert (Hold : forall name p, def e !! name = Some p ->
            exists nd, node_at e' p = Some nd /\ kind nd = FuncDecl
                       /\ action nd = Nop).
  { intros name p Hd. destruct (Hok name p Hd) as (nd & Hnd & Hk & Ha).
    destruct (visit_grown e node e' p nd Hv Hnd)
      as (nd' & Hnd' & _ & _ & Hk' & Ha' & _).
    exists nd'. split; [exact Hnd'|]. split; congruence. }
  destruct (visit_effects e node e' Hv) as (_ & _ & Hd).
  intros name p Hl. rewrite Hd in Hl.
  destruct node as [a|]; [|exact (Hold name p Hl)].
  destruct a; cbn [defines] in Hl; try exact (Hold name p Hl).
  destruct (decide (Name = name)) as [->|Hne].
  - rewrite lookup_insert_eq in Hl. injection Hl as <-.
    cbn [visit] in Hv.
    destruct (addChild_new_fields (mem e) (top (st e)) FuncDecl Nop)
      as (nd & Hnd & Hk & Ha & _).
    destruct (addChild (mem e) (top (st e)) FuncDecl Nop) as [n0 m].
    injection Hv as <-. exists nd. split; [exact Hnd|]. split; assumption.
  - rewrite lookup_insert_ne in Hl by exact Hne. exact (Hold name p Hl).
Qed.

Lemma def_visitAll calls : forall e e',
  def_ok e -> visitAll e calls = Returns e' -> def_ok e'.
Proof.
  induction calls as [|call calls IH]; intros e e' Hok H.
  - injection H as <-. exact Hok.
  - cbn [visitAll] in H.
    destruct (visit e call) as [e1|] eqn:Hv; [|discriminate].
    cbn [bind] in H. eapply IH; [|exact H]. eapply def_visit; eassumption.
Qed.

(** ** The arena follows the order of the calls *)

Lemma visit_uniform a :
  (exists k act f,
      k <> ForRangeStmt /\ emits k act f
      /\ forall e, exists d out,
           visit e (Some a) = Returns (pushed e k act f d out))
  \/ (forall e, visit e (Some a) = Returns (rangePushed e)).
Proof.
  destruct a;
    try (left; eexists _, _, (fun x => x);
         split; [|split];
         [|
          |intros e; cbn [visit]; rewrite pushChild_pushed;
           eexists _, _; reflexivity];
         [discriminate|apply emits_plain; in_plain]).
  - (* AssignStmt *)
    left. eexists _, _, (fun x => x). split; [|split];
      [| |intros e; cbn [visit]; rewrite pushChild_pushed;
          eexists _, _; reflexivity].
    + discriminate.
    + apply emits_plain. destruct (_ && _); in_plain.
  - (* BasicLit *)
    left. eexists _, _, _. split; [|split];
      [| |intros e; rewrite visit_BasicLit; eexists _, _; reflexivity].
    + discriminate.
    + apply emits_lit.
  - (* BinaryExpr *)
    left. eexists _, _, (fun x => x). split; [|split];
      [| |intros e; cbn [visit]; rewrite pushChild_pushed;
          eexists _, _; reflexivity].
    + discriminate.
    + apply emits_plain. destruct Op; in_plain.
  - (* BranchStmt *)
    left. eexists _, _, (fun x => x). split; [|split];
      [| |intros e; cbn [visit]; rewrite pushChild_pushed;
          eexists _, _; reflexivity].
    + destruct Tok; discriminate.
    + apply emits_plain. destruct Tok; in_plain.
  - (* ForStmt *)
    left. eexists _, _, (fun x => x). split; [|split];
      [| |intros e; cbn [visit]; rewrite pushChild_pushed;
          eexists _, _; reflexivity].
    + destruct Cond, Init, Post; discriminate.
    + apply emits_plain. destruct Cond, Init, Post; in_plain.
  - (* FuncDecl *)
    left. exists FuncDecl, Nop, (fun x => x).
    split; [discriminate|]. split; [apply emits_plain; in_plain|].
    intros e. cbn [visit].
    exists (<[Name := length (heap (mem e))]> (def e)), (stdout e).
    unfold pushed.
    pose proof (addChild_fst (mem e) (top (st e)) FuncDecl Nop) as Hn.
    destruct (addChild (mem e) (top (st e)) FuncDecl Nop) as [n m].
    simpl in Hn. subst n. rewrite update_id. reflexivity.
  - (* Ident *)
    left. exists Ident, Nop, (set_ident Name).
    split; [discriminate|]. split; [apply emits_ident|].
    intros e. cbn [visit]. exists (def e), (stdout e).
    unfold pushed.
    destruct (addChild (mem e) (top (st e)) Ident Nop) as [n m]. reflexivity.
  - (* IfStmt *)
    left. eexists _, _, (fun x => x). split; [|split];
      [| |intros e; cbn [visit]; rewrite pushChild_pushed;
          eexists _, _; reflexivity].
    + destruct Init, Else_; discriminate.
    + apply emits_plain. destruct Init, Else_; in_plain.
  - (* IncDecStmt *)
    left. eexists _, _, (fun x => x). split; [|split];
      [| |intros e; cbn [visit]; rewrite pushChild_pushed;
          eexists _, _; reflexivity].
    + discriminate.
    + apply emits_plain. destruct Tok; in_plain.
  - (* RangeStmt *)
    right. intros e. reflexivity.
  - (* Other *)
    left. exists Undef, Nop, (fun x => x).
    split; [discriminate|]. split; [apply emits_plain; in_plain|].
    intros e. cbn [visit]. eexists _, _.
    unfold pushChild, pushed. cbn [mem st def stdout].
    destruct (addChild (mem e) (top (st e)) Undef Nop) as [n m].
    rewrite update_id. reflexivity.
Qed.

Lemma tag_append c nd : tag (append_Child c nd) = tag nd.
Proof. reflexivity. Qed.

Lemma tags_old (e e' : env) :
  (forall p, (p < length (heap (mem e)))%nat ->
     node_at e' p = if decide (top (st e) = Some p)
                    then append_Child (length (heap (mem e))) <$> node_at e p
                    else node_at e p) ->
  forall i, (i < length (heap (mem e)))%nat ->
    (tag <$> heap (mem e')) !! i = (tag <$> heap (mem e)) !! i.
Proof.
  intros Hold i Hi. rewrite !list_lookup_fmap.
  fold (node_at e' i). fold (node_at e i). rewrite (Hold i Hi).
  destruct (decide _); [|reflexivity].
  destruct (node_at e i); reflexivity.
Qed.

Lemma emits_tag k act f m parent :
  emits k act f ->
  tag (f (fresh m parent k act))
  = tag (f (fresh (mem initial) (top (st initial)) k act)).
Proof. destruct 1; reflexivity. Qed.

Lemma pushed_tags e k act f d out :
  stack_ok e -> emits k act f ->
  tag <$> heap (mem (pushed e k act f d out))
  = (tag <$> heap (mem e))
    ++ [tag (f (fresh (mem initial) (top (st initial)) k act))].
Proof.
  intros Hs Hem. apply list_eq. intros i.
  destruct (lt_eq_lt_dec i (length (heap (mem e)))) as [[Hi| ->]|Hi].
  - rewrite (tags_old e _ (pushed_node_old e k act f d out) i Hi).
    rewrite lookup_app_l by (rewrite length_fmap; exact Hi). reflexivity.
  - rewrite list_lookup_fmap. fold (node_at (pushed e k act f d out)
                                      (length (heap (mem e)))).
    rewrite pushed_node_new by (apply top_fresh; exact Hs).
    rewrite lookup_app_r by (rewrite length_fmap; lia).
    rewrite length_fmap, Nat.sub_diag. cbn [fmap option_fmap option_map].
    rewrite (emits_tag k act f (mem e) (top (st e)) Hem). reflexivity.
  - rewrite !lookup_ge_None_2; [reflexivity| |].
    + rewrite length_app, length_fmap. cbn [length]. lia.
    + rewrite length_fmap, pushed_length. lia.
Qed.

Lemma rangePushed_tags e :
  stack_ok e ->
  tag <$> heap (mem (rangePushed e))
  = (tag <$> heap (mem e))
    ++ [(ForRangeStmt, Nop, "", NilCell); (RangeStmt, Range, "", NilCell)].
Proof.
  intros Hs. apply list_eq. intros i.
  destruct (lt_eq_lt_dec i (length (heap (mem e)))) as [[Hi|Hi]|Hi].
  - rewrite (tags_old e _ (rangePushed_node_old e) i Hi).
    rewrite lookup_app_l by (rewrite length_fmap; exact Hi). reflexivity.
  - subst i. rewrite list_lookup_fmap.
    fold (node_at (rangePushed e) (length (heap (mem e)))).
    rewrite rangePushed_node_parent by (apply top_fresh; exact Hs).
    rewrite lookup_app_r by (rewrite length_fmap; lia).
    rewrite length_fmap, Nat.sub_diag. reflexivity.
  - destruct (decide (i = S (length (heap (mem e))))) as [->|Hne].
    + rewrite list_lookup_fmap.
      fold (node_at (rangePushed e) (S (length (heap (mem e))))).
      rewrite rangePushed_node_child_exact.
      rewrite lookup_app_r by (rewrite length_fmap; lia).
      rewrite length_fmap.
      replace (S (length (heap (mem e))) - length (heap (mem e)))%nat
        with 1%nat by lia.
      reflexivity.
    + rewrite !lookup_ge_None_2; [reflexivity| |].
      * rewrite length_app, length_fmap. cbn [length]. lia.
      * rewrite length_fmap, rangePushed_length. lia.
Qed.

Lemma stack_ok_initial : stack_ok initial.
Proof. intros p Hp. apply elem_of_nil in Hp. contradiction. Qed.

Lemma visit_tags e node e' :
  stack_ok e -> visit e node = Returns e' ->
  tag <$> heap (mem e') = (tag <$> heap (mem e)) ++ created node.
Proof.
  intros Hs Hv. destruct node as [a|].
  - unfold created.
    destruct (visit_uniform a) as [(k & act & f & _ & Hem & Hall)|Hall].
    + destruct (Hall e) as (d & out & He).
      destruct (Hall initial) as (d0 & out0 & H0).
      rewrite H0. rewrite He in Hv. injection Hv as <-.
      rewrite (pushed_tags e) by assumption.
      rewrite (pushed_tags initial) by (apply stack_ok_initial || assumption).
      reflexivity.
    + rewrite (Hall initial). rewrite (Hall e) in Hv. injection Hv as <-.
      rewrite (rangePushed_tags e) by assumption.
      rewrite (rangePushed_tags initial) by apply stack_ok_initial.
      reflexivity.
  - unfold visit in Hv. destruct (pop (st e)) as [r|]; [|discriminate].
    simpl in Hv. injection Hv as <-. cbn [mem created].
    rewrite app_nil_r. reflexivity.
Qed.

Lemma visitAll_tags calls : forall e e',
  lowering_inv e -> visitAll e calls = Returns e' ->
  tag <$> heap (mem e') = (tag <$> heap (mem e)) ++ concat (created <$> calls).
Proof.
  induction calls as [|call calls IH]; intros e e' Hinv H.
  - injection H as <-. cbn. rewrite app_nil_r. reflexivity.
  - cbn [visitAll] in H.
    destruct (visit e call) as [e1|] eqn:Hv; [|discriminate].
    cbn [bind] in H.
    rewrite (IH e1 e' (inv_visit e Hinv call e1 Hv) H).
    rewrite (visit_tags e call e1 (proj1 Hinv) Hv).
    rewrite fmap_cons. cbn [concat]. rewrite app_assoc. reflexivity.
Qed.

(** * Properties of the code beyond the claims *)

(** ** The ancestor stack *)

(** X1.  The ancestor stack is last in, first out: after [push], [top]
    answers the pushed node and [pop] returns it and leaves the stack as
    it was before the push; popping after several pushes returns the
    nodes in the reverse order of the pushes. *)
Theorem nodestack_push_pop :
  forall s v w,
    top (push s v) = Some v
    /\ pop (push s v) = Returns (v, s)
    /\ (let* r1 := pop (push (push s v) w) in
        let* r2 := pop (snd r1) in
        Returns (fst r1, fst r2, snd r2)) = Returns (w, v, s).
Proof.
  intros s v w. split; [apply top_push|]. split; [apply pop_push|].
  rewrite pop_push. cbn [bind snd fst]. rewrite pop_push. reflexivity.
Qed.

(** X2.  On the empty stack [top] answers nil and [pop] panics with the
    index [-1] out of range; on every other stack [top] answers the last
    node pushed and [pop] returns that node and removes it. *)
Theorem nodestack_pop_top_cases :
  forall s,
    (s = [] /\ top s = None /\ pop s = Panics (PanicIndex (-1) 0))
    \/ (exists v s',
           s = push s' v /\ top s = Some v /\ pop s = Returns (v, s')).
Proof.
  intros s. destruct s as [|v s' _] using rev_ind.
  - left. repeat split.
  - right. exists v, s'. split; [reflexivity|].
    split; [apply top_push|apply pop_push].
Qed.

(** ** Ast returns *)

(** X3.  The visitor never pops an empty stack: on the calls that
    [ast.Inspect] makes for a syntax tree, from any state, it returns on
    every call and leaves the ancestor stack as it found it.  So [Ast]
    returns exactly when the parser accepts the source. *)
Theorem Ast_returns_iff_parsed :
  (forall n e,
      exists e', visitAll e (ast.Inspect n) = Returns e' /\ st e' = st e)
  /\ (forall ParseFile src,
         (exists l, Ast ParseFile src = Returns l)
         <-> (exists f, ParseFile src = inr f)).
Proof.
  split.
  - intros n e. apply balanced_Inspect.
  - intros ParseFile src. split.
    + intros (l & Hl). unfold Ast in Hl.
      destruct (ParseFile src) as [err|f]; [discriminate|]. eauto.
    + intros (f & Hf). destruct (Ast_returns ParseFile src f Hf) as (e & _ & ->).
      eauto.
Qed.

(** ** The tree Ast builds *)

(** X4.  The links of the arena [Ast] returns form a tree in the order
    of construction: the ancestor of a node is an earlier node that
    lists it among its children; every child of a node is a later node
    that has it as ancestor; and the children of a node stand in the
    order of their construction, so that no node is listed twice. *)
Theorem Ast_links_form_tree :
  forall ParseFile src f,
    ParseFile src = inr f ->
    exists l,
      Ast ParseFile src = Returns l
      /\ (forall i nd p,
            l_heap l !! i = Some nd -> anc nd = Some p ->
            (p < i)%nat
            /\ exists pn, l_heap l !! p = Some pn /\ i ∈ Child pn)
      /\ (forall p pn c,
            l_heap l !! p = Some pn -> c ∈ Child pn ->
            (p < c)%nat
            /\ exists cn, l_heap l !! c = Some cn /\ anc cn = Some p)
      /\ (forall p pn j1 j2 c1 c2,
            l_heap l !! p = Some pn -> (j1 < j2)%nat ->
            Child pn !! j1 = Some c1 -> Child pn !! j2 = Some c2 ->
            (c1 < c2)%nat).
Proof.
  intros ParseFile src f Hp.
  destruct (Ast_run ParseFile src f Hp) as (e & k & He & _ & _ & _ & ->).
  eexists. split; [reflexivity|]. cbn [l_heap].
  exact (tree_visitAll _ _ _ inv_initial tree_initial He).
Qed.

Lemma Ast_links_form_tree_witness :
  parseSample sampleSrc = inr sampleFile
  /\ exists l,
      Ast parseSample sampleSrc = Returns l
      /\ (forall i nd p,
            l_heap l !! i = Some nd -> anc nd = Some p ->
            (p < i)%nat
            /\ exists pn, l_heap l !! p = Some pn /\ i ∈ Child pn)
      /\ (forall p pn c,
            l_heap l !! p = Some pn -> c ∈ Child pn ->
            (p < c)%nat
            /\ exists cn, l_heap l !! c = Some cn /\ anc cn = Some p)
      /\ (forall p pn j1 j2 c1 c2,
            l_heap l !! p = Some pn -> (j1 < j2)%nat ->
            Child pn !! j1 = Some c1 -> Child pn !! j2 = Some c2 ->
            (c1 < c2)%nat).
Proof.
  split; [reflexivity|].
  exact (Ast_links_form_tree parseSample sampleSrc sampleFile eq_refl).
Defined.

(** X5.  The arena [Ast] returns has one root: the root pointer is the
    first node constructed, that node has no ancestor, and every other
    node has one.  When the syntax tree is a file, as the parser builds
    it, the root has kind [File]. *)
Theorem Ast_single_root :
  forall ParseFile src f,
    ParseFile src = inr f ->
    exists l r,
      Ast ParseFile src = Returns l
      /\ l_root l = Some 0%nat
      /\ l_heap l !! 0%nat = Some r /\ anc r = None
      /\ (forall i nd, l_heap l !! i = Some nd ->
            (anc nd = None <-> i = 0%nat))
      /\ (forall name decls, f = ast.File name decls -> kind r = File).
Proof.
  intros ParseFile src f Hp.
  destruct (Ast_run ParseFile src f Hp)
    as (e & k & _ & _ & (_ & Hroot & (r & Hr & Hanc & Hk) & Hall) & Hfile & ->).
  eexists _, r. split; [reflexivity|]. cbn [l_root l_heap].
  split; [exact Hroot|]. split; [exact Hr|]. split; [exact Hanc|].
  split.
  - intros i nd Hi. split; [apply (Hall i nd Hi)|].
    intros ->. unfold node_at in Hr. congruence.
  - intros name decls Hf. rewrite Hk. eapply Hfile. exact Hf.
Qed.

Lemma Ast_single_root_witness :
  parseSample sampleSrc = inr sampleFile
  /\ exists l r,
      Ast parseSample sampleSrc = Returns l
      /\ l_root l = Some 0%nat
      /\ l_heap l !! 0%nat = Some r /\ anc r = None
      /\ (forall i nd, l_heap l !! i = Some nd ->
            (anc nd = None <-> i = 0%nat))
      /\ kind r = File.
Proof.
  split; [reflexivity|].
  destruct (Ast_single_root parseSample sampleSrc sampleFile eq_refl)
    as (l & r & Hl & Hroot & Hr & Hanc & Hall & Hk).
  exists l, r. repeat (split; [assumption|]).
  exact (Hk _ _ eq_refl).
Defined.

(** X6.  [Ast] creates one node for every node of the syntax tree that
    [ast.Inspect] visits, and one more for every range statement: the
    size of the arena is the sum of [allocated] over the calls. *)
Theorem Ast_node_count :
  forall ParseFile src f,
    ParseFile src = inr f ->
    exists l,
      Ast ParseFile src = Returns l
      /\ length (l_heap l) = sum_list (allocated <$> ast.Inspect f).
Proof.
  intros ParseFile src f Hp.
  destruct (Ast_run ParseFile src f Hp) as (e & k & He & _ & _ & _ & ->).
  eexists. split; [reflexivity|]. cbn [l_heap].
  destruct (visitAll_effects _ _ _ He) as (Hl & _). exact Hl.
Qed.

Lemma Ast_node_count_witness :
  parseSample sampleSrc = inr sampleFile
  /\ exists l,
      Ast parseSample sampleSrc = Returns l
      /\ length (l_heap l) = sum_list (allocated <$> ast.Inspect sampleFile)
      /\ length (l_heap l) = 30%nat.
Proof.
  split; [reflexivity|].
  destruct (Ast_node_count parseSample sampleSrc sampleFile eq_refl)
    as (l & Hl & Hn).
  exists l. split; [exact Hl|]. split; [exact Hn|].
  rewrite Hn. reflexivity.
Defined.

(** X7.  The arena lists the nodes in the order in which [ast.Inspect]
    visits the syntax tree: the kind, the action, the identifier and the
    value of the nodes of the arena are, one call after the other, those
    of the nodes that the call creates on its own. *)
Theorem Ast_arena_follows_Inspect :
  forall ParseFile src f,
    ParseFile src = inr f ->
    exists l,
      Ast ParseFile src = Returns l
      /\ tag <$> l_heap l = concat (created <$> ast.Inspect f).
Proof.
  intros ParseFile src f Hp.
  destruct (Ast_run ParseFile src f Hp) as (e & k & He & _ & _ & _ & ->).
  eexists. split; [reflexivity|]. cbn [l_heap].
  exact (visitAll_tags _ _ _ inv_initial He).
Qed.

Lemma Ast_arena_follows_Inspect_witness :
  parseSample sampleSrc = inr sampleFile
  /\ exists l,
      Ast parseSample sampleSrc = Returns l
      /\ tag <$> l_heap l = concat (created <$> ast.Inspect sampleFile).
Proof.
  split; [reflexivity|].
  exact (Ast_arena_follows_Inspect parseSample sampleSrc sampleFile eq_refl).
Defined.

(** ** What holds of every node *)

(** X8.  Every node of the arena [Ast] returns has itself as [Start]
    and, as [run], the handler that [builtin] holds for its action. *)
Theorem Ast_start_and_run :
  forall ParseFile src f,
    ParseFile src = inr f ->
    exists l,
      Ast ParseFile src = Returns l
      /\ forall i nd, l_heap l !! i = Some nd ->
           Start nd = i /\ run nd = action nd.
Proof.
  intros ParseFile src f Hp.
  destruct (Ast_run ParseFile src f Hp) as (e & k & He & _ & _ & _ & ->).
  eexists. split; [reflexivity|]. cbn [l_heap].
  exact (start_run_lowered f e He).
Qed.

Lemma Ast_start_and_run_witness :
  parseSample sampleSrc = inr sampleFile
  /\ exists l,
      Ast parseSample sampleSrc = Returns l
      /\ forall i nd, l_heap l !! i = Some nd ->
           Start nd = i /\ run nd = action nd.
Proof.
  split; [reflexivity|].
  exact (Ast_start_and_run parseSample sampleSrc sampleFile eq_refl).
Defined.



Lemma named_spec k a :
  named (k, a) = true ->
  exists s t,
    Kind_String k = Returns s /\ Action_String a = Returns t
    /\ s ∈ kinds /\ t ∈ actions /\ s <> "" /\ t <> "".
Proof.
  unfold named. cbn [fst snd].
  destruct (Kind_String k) as [s|]; [|discriminate].
  destruct (Action_String a) as [t|]; [|discriminate].
  rewrite !andb_true_iff. intros [[[Hs Ht] Hsk] Hta].
  exists s, t. split; [reflexivity|]. split; [reflexivity|].
  split; [exact (bool_decide_eq_true_1 _ Hsk)|].
  split; [exact (bool_decide_eq_true_1 _ Hta)|].
  apply negb_true_iff in Hs, Ht. apply String.eqb_neq in Hs, Ht.
  split; assumption.
Qed.

(** X10.  The kind and the action of every node of the arena [Ast]
    returns have a name: on them [Kind.String] and [Action.String]
    return, without a panic, a non-empty entry of their table. *)
Theorem Ast_kinds_and_actions_have_names :
  forall ParseFile src f,
    ParseFile src = inr f ->
    exists l,
      Ast ParseFile src = Returns l
      /\ forall i nd, l_heap l !! i = Some nd ->
           exists s t,
             Kind_String (kind nd) = Returns s
             /\ Action_String (action nd) = Returns t
             /\ s ∈ kinds /\ t ∈ actions /\ s <> "" /\ t <> "".
Proof.
  intros ParseFile src f Hp.
  destruct (Ast_run ParseFile src f Hp) as (e & k & He & _ & _ & _ & ->).
  eexists. split; [reflexivity|]. cbn [l_heap].
  intros i nd Hi. apply named_spec.
  exact (pairs_lowered named f e named_pairs He i nd Hi).
Qed.

Lemma Ast_kinds_and_actions_have_names_witness :
  parseSample sampleSrc = inr sampleFile
  /\ exists l,
      Ast parseSample sampleSrc = Returns l
      /\ forall i nd, l_heap l !! i = Some nd ->
           exists s t,
             Kind_String (kind nd) = Returns s
             /\ Action_String (action nd) = Returns t
             /\ s ∈ kinds /\ t ∈ actions /\ s <> "" /\ t <> "".
Proof.
  split; [reflexivity|].
  exact (Ast_kinds_and_actions_have_names parseSample sampleSrc sampleFile
           eq_refl).
Defined.

Lemma existsb_elem_of (k : Z) (l : list Z) :
  existsb (Z.eqb k) l = true <-> k ∈ l.
Proof.
  rewrite existsb_exists. split.
  - intros (x & Hin & Heq). apply Z.eqb_eq in Heq. subst x.
    apply list_elem_of_In. exact Hin.
  - intros Hin. exists k. split; [apply list_elem_of_In; exact Hin|].
    apply Z.eqb_refl.
Qed.

Lemma implb_eqb (k c a d : Z) :
  implb (k =? c) (a =? d) = true -> k = c -> a = d.
Proof.
  intros H ->. rewrite Z.eqb_refl in H. apply Z.eqb_eq. exact H.
Qed.

Lemma consistent_spec k a :
  consistent (k, a) = true ->
  (k = CallExpr -> a = Call)
  /\ (k = CompositeLit -> a = ArrayLit)
  /\ (k = IndexExpr -> a = GetIndex)
  /\ (k = RangeStmt -> a = Range)
  /\ (k = ReturnStmt -> a = Return)
  /\ (a <> Nop ->
      k ∈ [AssignStmt; BinaryExpr; CallExpr; CompositeLit; IncDecStmt;
           IndexExpr; RangeStmt; ReturnStmt])
  /\ (k ∉ [BranchStmt; Fallthrough; ForStmt; Goto; IfStmt])
  /\ a <> Println.
Proof.
  unfold consistent. rewrite !andb_true_iff.
  intros [[[[[[[H1 H2] H3] H4] H5] H6] H7] H8].
  repeat (split; [eapply implb_eqb; eassumption|]).
  split; [|split].
  - intros Hne. apply existsb_elem_of.
    destruct (a =? Nop) eqn:Ha; [apply Z.eqb_eq in Ha; contradiction|].
    exact H6.
  - intros Hin. apply existsb_elem_of in Hin. rewrite Hin in H7.
    discriminate H7.
  - apply negb_true_iff in H8. apply Z.eqb_neq in H8. exact H8.
Qed.

(** X11.  In the arena [Ast] returns the action goes with the kind:
    call, composite literal, index, range and return nodes carry the
    action of their own, an action other than [Nop] occurs only in
    assignments, binary expressions, increments and those five, no node
    has one of the kinds [BranchStmt], [Fallthrough], [ForStmt], [Goto]
    and [IfStmt], and no node has the action [Println]. *)
Theorem Ast_kind_and_action_agree :
  forall ParseFile src f,
    ParseFile src = inr f ->
    exists l,
      Ast ParseFile src = Returns l
      /\ forall i nd, l_heap l !! i = Some nd ->
           (kind nd = CallExpr -> action nd = Call)
           /\ (kind nd = CompositeLit -> action nd = ArrayLit)
           /\ (kind nd = IndexExpr -> action nd = GetIndex)
           /\ (kind nd = RangeStmt -> action nd = Range)
           /\ (kind nd = ReturnStmt -> action nd = Return)
           /\ (action nd <> Nop ->
               kind nd ∈ [AssignStmt; BinaryExpr; CallExpr; CompositeLit;
                          IncDecStmt; IndexExpr; RangeStmt; ReturnStmt])
           /\ (kind nd ∉ [BranchStmt; Fallthrough; ForStmt; Goto; IfStmt])
           /\ action nd <> Println.
Proof.
  intros ParseFile src f Hp.
  destruct (Ast_run ParseFile src f Hp) as (e & k & He & _ & _ & _ & ->).
  eexists. split; [reflexivity|]. cbn [l_heap].
  intros i nd Hi. apply consistent_spec.
  exact (pairs_lowered consistent f e consistent_pairs He i nd Hi).
Qed.

Lemma Ast_kind_and_action_agree_witness :
  parseSample sampleSrc = inr sampleFile
  /\ exists l,
      Ast parseSample sampleSrc = Returns l
      /\ forall i nd, l_heap l !! i = Some nd ->
           (kind nd = CallExpr -> action nd = Call)
           /\ (kind nd = CompositeLit -> action nd = ArrayLit)
           /\ (kind nd = IndexExpr -> action nd = GetIndex)
           /\ (kind nd = RangeStmt -> action nd = Range)
           /\ (kind nd = ReturnStmt -> action nd = Return)
           /\ (action nd <> Nop ->
               kind nd ∈ [AssignStmt; BinaryExpr; CallExpr; CompositeLit;
                          IncDecStmt; IndexExpr; RangeStmt; ReturnStmt])
           /\ (kind nd ∉ [BranchStmt; Fallthrough; ForStmt; Goto; IfStmt])
           /\ action nd <> Println.
Proof.
  split; [reflexivity|].
  exact (Ast_kind_and_action_agree parseSample sampleSrc sampleFile eq_refl).
Defined.

(** ** Definitions and diagnostics *)

Lemma Inspect_head a : exists rest, ast.Inspect a = Some a :: rest.
Proof. destruct a; eexists; reflexivity. Qed.

Lemma elem_of_walkList a l : a ∈ l -> Some a ∈ ast.walkList ast.Inspect l.
Proof.
  unfold ast.walkList. induction l as [|b l IH]; intros H.
  - apply elem_of_nil in H. contradiction.
  - cbn [map concat]. apply elem_of_app.
    apply elem_of_cons in H as [<-|H].
    + left. destruct (Inspect_head a) as (rest & ->). apply list_elem_of_here.
    + right. apply IH. exact H.
Qed.

Lemma def_ok_initial : def_ok initial.
Proof. intros name p H. cbn in H. rewrite lookup_empty in H. discriminate. Qed.

(** X12.  The definitions [Ast] returns are the function declarations
    of the syntax tree: a name is defined exactly when [ast.Inspect]
    visits a function declaration of that name, every definition points
    to a node of the arena of kind [FuncDecl], and every function
    declared at the top level of a file is defined. *)
Theorem Ast_definitions :
  forall ParseFile src f,
    ParseFile src = inr f ->
    exists l,
      Ast ParseFile src = Returns l
      /\ (forall name p, l_def l !! name = Some p ->
            exists nd, l_heap l !! p = Some nd /\ kind nd = FuncDecl
                       /\ action nd = Nop)
      /\ (forall name,
            is_Some (l_def l !! name)
            <-> exists recv ty body,
                  Some (ast.FuncDecl recv name ty body) ∈ ast.Inspect f)
      /\ (forall pkg decls recv name ty body,
            f = ast.File pkg decls ->
            ast.FuncDecl recv name ty body ∈ decls ->
            is_Some (l_def l !! name)).
Proof.
  intros ParseFile src f Hp.
  destruct (Ast_run ParseFile src f Hp) as (e & k & He & _ & _ & _ & ->).
  eexists. split; [reflexivity|]. cbn [l_heap l_def].
  destruct (visitAll_effects _ _ _ He) as (_ & _ & Hd).
  split; [exact (def_visitAll _ _ _ def_ok_initial He)|].
  assert (Hiff : forall name,
            is_Some (def e !! name)
            <-> exists recv ty body,
                  Some (ast.FuncDecl recv name ty body) ∈ ast.Inspect f).
  { intros name. rewrite Hd. split.
    - intros [p Hl]. apply definitions_sound in Hl as [Hl|Hl]; [|exact Hl].
      cbn in Hl. rewrite lookup_empty in Hl. discriminate.
    - intros (recv & ty & body & Hin). eapply definitions_complete. exact Hin. }
  split; [exact Hiff|].
  intros pkg decls recv name ty body -> Hin. apply Hiff.
  exists recv, ty, body. cbn [ast.Inspect].
  apply list_elem_of_further. apply elem_of_app. left.
  apply elem_of_app. right. apply elem_of_walkList. exact Hin.
Qed.

Lemma Ast_definitions_witness :
  parseSample sampleSrc = inr sampleFile
  /\ exists l,
      Ast parseSample sampleSrc = Returns l
      /\ (forall name p, l_def l !! name = Some p ->
            exists nd, l_heap l !! p = Some nd /\ kind nd = FuncDecl
                       /\ action nd = Nop)
      /\ is_Some (l_def l !! "sum").
Proof.
  split; [reflexivity|].
  destruct (Ast_definitions parseSample sampleSrc sampleFile eq_refl)
    as (l & Hl & Hsound & _ & Htop).
  exists l. split; [exact Hl|]. split; [exact Hsound|].
  eapply Htop; [reflexivity|]. apply list_elem_of_here.
Defined.

(** X13.  [Ast] prints one line, [Unknown kind for T] with the type
    name of the node, for every node of the syntax tree that none of the
    cases of the visitor matches, in the order of the visit, and prints
    nothing else. *)
Theorem Ast_diagnostics :
  forall ParseFile src f,
    ParseFile src = inr f ->
    exists l,
      Ast ParseFile src = Returns l
      /\ l_stdout l = diagnostics (ast.Inspect f).
Proof.
  intros ParseFile src f Hp.
  destruct (Ast_run ParseFile src f Hp) as (e & k & He & _ & _ & _ & ->).
  eexists. split; [reflexivity|]. cbn [l_stdout].
  destruct (visitAll_effects _ _ _ He) as (_ & Ho & _). exact Ho.
Qed.

Lemma Ast_diagnostics_witness :
  parseDecl declSrc = inr declFile
  /\ exists l,
      Ast parseDecl declSrc = Returns l
      /\ l_stdout l = diagnostics (ast.Inspect declFile)
      /\ l_stdout l = [unknownKind "*ast.GenDecl";
                       unknownKind "*ast.ValueSpec"].
Proof.
  split; [reflexivity|].
  destruct (Ast_diagnostics parseDecl declSrc declFile eq_refl)
    as (l & Hl & Ho).
  exists l. split; [exact Hl|]. split; [exact Ho|].
  rewrite Ho. reflexivity.
Defined.

(** ** Single visits *)

(** X14.  A binary expression whose operator is none of [+], [&], [==],
    [>], [<] and [-] is lowered to a [BinaryExpr] node with the action
    [Nop], and only such an operator gives [Nop]. *)
Theorem binary_other_operators_Nop :
  forall e x op y,
    kind <$> lowered_node e (ast.BinaryExpr x op y) = Some BinaryExpr
    /\ (action <$> lowered_node e (ast.BinaryExpr x op y) = Some Nop
        <-> op <> token.ADD /\ op <> token.AND /\ op <> token.EQL
            /\ op <> token.GTR /\ op <> token.LSS /\ op <> token.SUB).
Proof.
  intros e x op y. split; [eapply lowered_kind; reflexivity|].
  assert (Hact :
    action <$> lowered_node e (ast.BinaryExpr x op y)
    = Some match op with
           | token.ADD => Add
           | token.AND => And
           | token.EQL => Equal
           | token.GTR => Greater
           | token.LSS => Lower
           | token.SUB => Sub
           | _ => 0
           end).
  { eapply lowered_action. reflexivity. }
  rewrite Hact.
  destruct op;
    (split;
     [ intros H; first [discriminate H | repeat split; discriminate]
     | intros (H1 & H2 & H3 & H4 & H5 & H6);
       first [reflexivity | congruence] ]).
Qed.

(** X15.  An increment or decrement statement is lowered to an
    [IncDecStmt] node whose action is [Inc] exactly for [++], [Dec]
    exactly for [--], and [Nop] for any other token. *)
Theorem incdec_actions :
  forall e x tok,
    kind <$> lowered_node e (ast.IncDecStmt x tok) = Some IncDecStmt
    /\ (action <$> lowered_node e (ast.IncDecStmt x tok) = Some Inc
        <-> tok = token.INC)
    /\ (action <$> lowered_node e (ast.IncDecStmt x tok) = Some Dec
        <-> tok = token.DEC)
    /\ (action <$> lowered_node e (ast.IncDecStmt x tok) = Some Nop
        <-> tok <> token.INC /\ tok <> token.DEC).
Proof.
  intros e x tok. split; [eapply lowered_kind; reflexivity|].
  assert (Hact :
    action <$> lowered_node e (ast.IncDecStmt x tok)
    = Some match tok with
           | token.INC => Inc
           | token.DEC => Dec
           | _ => 0
           end).
  { eapply lowered_action. reflexivity. }
  rewrite Hact.
  destruct tok;
    (split; [|split]);
    (split;
     [ intros H; first [discriminate H | reflexivity
                       | split; discriminate]
     | first [ intros H; discriminate H
             | intros H; reflexivity
             | intros (H1 & H2); congruence ] ]).
Qed.

(** X16.  The visit of a function declaration creates a [FuncDecl]
    node, pushes it, and binds the name of the function to it in the
    definitions, replacing an earlier binding of that name and leaving
    every other name as it was. *)
Theorem funcdecl_visit_defines :
  forall e recv name ty body,
    exists e' nd,
      visit e (Some (ast.FuncDecl recv name ty body)) = Returns e'
      /\ def e' !! name = Some (length (heap (mem e)))
      /\ (forall other, other <> name -> def e' !! other = def e !! other)
      /\ top (st e') = Some (length (heap (mem e)))
      /\ node_at e' (length (heap (mem e))) = Some nd
      /\ kind nd = FuncDecl /\ action nd = Nop.
Proof.
  intros e recv name ty body. cbn [visit].
  destruct (addChild_new_fields (mem e) (top (st e)) FuncDecl Nop)
    as (nd & Hnd & Hk & Ha & _).
  pose proof (addChild_fst (mem e) (top (st e)) FuncDecl Nop) as Hn.
  destruct (addChild (mem e) (top (st e)) FuncDecl Nop) as [n m].
  cbn [fst snd] in Hn, Hnd. subst n.
  eexists _, nd. split; [reflexivity|]. cbn [def st mem].
  split; [apply lookup_insert_eq|].
  split; [intros other Hne; apply lookup_insert_ne; congruence|].
  split; [apply top_push|].
  split; [exact Hnd|]. split; assumption.
Qed.

(** ** The names of kinds and actions *)

(** X17.  [Kind.String] panics for exactly one kind, the length of the
    table.  For a kind inside the table other than [Fallthrough] it
    returns the name the table holds, which is not empty; for
    [Fallthrough] and for every kind outside the table it returns
    [kind(n)] with the decimal number of the kind. *)
Theorem Kind_String_cases :
  forall k,
    ((exists p, Kind_String k = Panics p) <-> k = Z.of_nat (length kinds))
    /\ (0 <= k < Z.of_nat (length kinds) -> k <> Fallthrough ->
        exists s,
          kinds !! Z.to_nat k = Some s /\ s <> ""
          /\ Kind_String k = Returns s)
    /\ (k < 0 \/ Z.of_nat (length kinds) < k \/ k = Fallthrough ->
        Kind_String k = Returns ("kind(" +:+ strconv.Itoa k +:+ ")")).
Proof.
  intros k. split; [|split].
  - split.
    + intros (p & Hp).
      destruct (Z.lt_trichotomy k (Z.of_nat (length kinds))) as [Hlt|[Heq|Hgt]];
        [|exact Heq|].
      * destruct (Z_lt_le_dec k 0) as [Hneg|Hpos].
        -- rewrite Kind_String_outside in Hp by (left; exact Hneg).
           discriminate Hp.
        -- destruct (Kind_String_inside k (conj Hpos Hlt)) as (s & _ & Hs).
           rewrite Hs in Hp. discriminate Hp.
      * rewrite Kind_String_outside in Hp by (right; exact Hgt).
        discriminate Hp.
    + intros ->. vm_compute. eexists. reflexivity.
  - intros Hin Hne.
    destruct (Kind_String_inside k Hin) as (s & Hs & Hk).
    assert (Hall :
      forallb (fun i => (Z.of_nat i =? Fallthrough)
                        || negb (String.eqb (default "" (kinds !! i)) ""))
              (seq 0 (length kinds)) = true) by (vm_compute; reflexivity).
    rewrite forallb_forall in Hall.
    specialize (Hall (Z.to_nat k)). rewrite in_seq in Hall.
    specialize (Hall ltac:(lia)). rewrite Z2Nat.id, Hs in Hall by lia.
    cbn [default from_option] in Hall. unfold id in Hall.
    destruct (k =? Fallthrough) eqn:Hf; [apply Z.eqb_eq in Hf; contradiction|].
    cbn [orb] in Hall. apply negb_true_iff in Hall.
    exists s. split; [exact Hs|]. split; [apply String.eqb_neq; exact Hall|].
    rewrite Hk, Hall. reflexivity.
  - intros [Hlo|[Hhi|Hf]].
    + apply Kind_String_outside. left. exact Hlo.
    + apply Kind_String_outside. right. exact Hhi.
    + subst k. reflexivity.
Qed.

(** X18.  [Action.String] panics for exactly one action, the length of
    the table.  For an action inside the table it returns the name the
    table holds, which is not empty; for every action outside the table
    it returns [action(n)] with the decimal number of the action. *)
Theorem Action_String_cases :
  forall a,
    ((exists p, Action_String a = Panics p) <-> a = Z.of_nat (length actions))
    /\ (0 <= a < Z.of_nat (length actions) ->
        exists s,
          actions !! Z.to_nat a = Some s /\ s <> ""
          /\ Action_String a = Returns s)
    /\ (a < 0 \/ Z.of_nat (length actions) < a ->
        Action_String a = Returns ("action(" +:+ strconv.Itoa a +:+ ")")).
Proof.
  intros a. split; [|split].
  - split.
    + intros (p & Hp).
      destruct (Z.lt_trichotomy a (Z.of_nat (length actions)))
        as [Hlt|[Heq|Hgt]]; [|exact Heq|].
      * destruct (Z_lt_le_dec a 0) as [Hneg|Hpos].
        -- rewrite Action_String_outside in Hp by (left; exact Hneg).
           discriminate Hp.
        -- destruct (Action_String_inside a (conj Hpos Hlt)) as (s & _ & Hs).
           rewrite Hs in Hp. discriminate Hp.
      * rewrite Action_String_outside in Hp by (right; exact Hgt).
        discriminate Hp.
    + intros ->. vm_compute. eexists. reflexivity.
  - intros Hin.
    destruct (Action_String_inside a Hin) as (s & Hs & Hk).
    assert (Hall :
      forallb (fun i => negb (String.eqb (default "" (actions !! i)) ""))
              (seq 0 (length actions)) = true) by (vm_compute; reflexivity).
    rewrite forallb_forall in Hall.
    specialize (Hall (Z.to_nat a)). rewrite in_seq in Hall.
    specialize (Hall ltac:(lia)). rewrite Hs in Hall.
    cbn [default from_option] in Hall. unfold id in Hall. apply negb_true_iff in Hall.
    exists s. split; [exact Hs|]. split; [apply String.eqb_neq; exact Hall|].
    rewrite Hk, Hall. reflexivity.
  - apply Action_String_outside.
Qed.

(** X19.  Inside the table, different kinds print differently: the
    kind can be told from what [Kind.String] returns. *)
Theorem kind_names_distinct :
  forall k1 k2,
    0 <= k1 < Z.of_nat (length kinds) ->
    0 <= k2 < Z.of_nat (length kinds) ->
    k1 <> k2 ->
    Kind_String k1 <> Kind_String k2.
Proof.
  intros k1 k2 H1 H2 Hne Heq.
  assert (Hall :
    forallb (fun i =>
      forallb (fun j =>
        match Kind_String (Z.of_nat i), Kind_String (Z.of_nat j) with
        | Returns s, Returns t => negb (String.eqb s t)
        | _, _ => false
        end || (i =? j)%nat)
        (seq 0 (length kinds)))
      (seq 0 (length kinds)) = true) by (vm_compute; reflexivity).
  rewrite forallb_forall in Hall.
  specialize (Hall (Z.to_nat k1)). rewrite in_seq in Hall.
  specialize (Hall ltac:(lia)).
  rewrite forallb_forall in Hall.
  specialize (Hall (Z.to_nat k2)). rewrite in_seq in Hall.
  specialize (Hall ltac:(lia)).
  rewrite !Z2Nat.id, Heq in Hall by lia.
  apply orb_true_iff in Hall as [Hall|Hall].
  - destruct (Kind_String k2) as [s|]; [|discriminate Hall].
    rewrite String.eqb_refl in Hall. discriminate Hall.
  - apply Nat.eqb_eq in Hall. lia.
Qed.

Lemma kind_names_distinct_witness :
  0 <= Break < Z.of_nat (length kinds)
  /\ 0 <= Continue < Z.of_nat (length kinds)
  /\ Break <> Continue
  /\ Kind_String Break <> Kind_String Continue.
Proof.
  assert (H1 : 0 <= Break < Z.of_nat (length kinds)) by (vm_compute; split; [discriminate|reflexivity]).
  assert (H2 : 0 <= Continue < Z.of_nat (length kinds)) by (vm_compute; split; [discriminate|reflexivity]).
  assert (H3 : Break <> Continue) by discriminate.
  split; [exact H1|]. split; [exact H2|]. split; [exact H3|].
  exact (kind_names_distinct Break Continue H1 H2 H3).
Defined.

(** X20.  Inside the table, two different actions print the same
    exactly when they are [Assign] and [AssignX], which both print as
    [=]: the action cannot always be told from what [Action.String]
    returns. *)
Theorem action_names_distinct_but_assign :
  forall a1 a2,
    0 <= a1 < Z.of_nat (length actions) ->
    0 <= a2 < Z.of_nat (length actions) ->
    a1 <> a2 ->
    (Action_String a1 = Action_String a2
     <-> (a1 = Assign /\ a2 = AssignX) \/ (a1 = AssignX /\ a2 = Assign)).
Proof.
  intros a1 a2 H1 H2 Hne.
  assert (Hall :
    forallb (fun i =>
      forallb (fun j =>
        (i =? j)%nat
        || eqb match Action_String (Z.of_nat i), Action_String (Z.of_nat j) with
               | Returns s, Returns t => String.eqb s t
               | _, _ => true
               end
               (((Z.of_nat i =? Assign) && (Z.of_nat j =? AssignX))
                || ((Z.of_nat i =? AssignX) && (Z.of_nat j =? Assign))))
        (seq 0 (length actions)))
      (seq 0 (length actions)) = true) by (vm_compute; reflexivity).
  rewrite forallb_forall in Hall.
  specialize (Hall (Z.to_nat a1)). rewrite in_seq in Hall.
  specialize (Hall ltac:(lia)).
  rewrite forallb_forall in Hall.
  specialize (Hall (Z.to_nat a2)). rewrite in_seq in Hall.
  specialize (Hall ltac:(lia)).
  rewrite !Z2Nat.id in Hall by lia.
  apply orb_true_iff in Hall as [Hall|Hall];
    [apply Nat.eqb_eq in Hall; lia|].
  apply eqb_prop in Hall.
  destruct (Action_String_inside a1 H1) as (s1 & _ & Hs1).
  destruct (Action_String_inside a2 H2) as (s2 & _ & Hs2).
  rewrite Hs1, Hs2 in Hall |- *.
  split.
  - intros Heq. injection Heq as Heq. rewrite Heq, String.eqb_refl in Hall.
    symmetry in Hall. apply orb_true_iff in Hall as [Hall|Hall];
      apply andb_true_iff in Hall as [Ha Hb];
      apply Z.eqb_eq in Ha, Hb; auto.
  - intros Hor.
    assert (Ht : ((a1 =? Assign) && (a2 =? AssignX))
                 || ((a1 =? AssignX) && (a2 =? Assign)) = true).
    { destruct Hor as [[-> ->]|[-> ->]]; reflexivity. }
    rewrite Ht in Hall. apply String.eqb_eq in Hall. rewrite Hall.
    reflexivity.
Qed.

Lemma action_names_distinct_but_assign_witness :
  0 <= Assign < Z.of_nat (length actions)
  /\ 0 <= AssignX < Z.of_nat (length actions)
  /\ Assign <> AssignX
  /\ Action_String Assign = Action_String AssignX.
Proof.
  assert (H1 : 0 <= Assign < Z.of_nat (length actions)) by (vm_compute; split; [discriminate|reflexivity]).
  assert (H2 : 0 <= AssignX < Z.of_nat (length actions)) by (vm_compute; split; [discriminate|reflexivity]).
  assert (H3 : Assign <> AssignX) by discriminate.
  split; [exact H1|]. split; [exact H2|]. split; [exact H3|].
  apply (action_names_distinct_but_assign Assign AssignX H1 H2 H3).
  left. split; reflexivity.
Defined.

(** ** Visits and the nodes already there *)

Lemma stack_ok_fileEnv : stack_ok fileEnv.
Proof.
  intros p Hp. apply list_elem_of_singleton in Hp. subst p.
  eexists. split; [reflexivity|]. discriminate.
Qed.

(** X21.  The visitor never rewrites a node: whatever calls follow, a
    node of the arena stays where it is and keeps every field, except
    that children are appended to its list of children. *)
Theorem nodes_only_grow :
  forall calls e e' p nd,
    visitAll e calls = Returns e' ->
    node_at e p = Some nd ->
    exists nd',
      node_at e' p = Some nd'
      /\ anc nd' = anc nd /\ index nd' = index nd /\ kind nd' = kind nd
      /\ action nd' = action nd /\ ident nd' = ident nd /\ val nd' = val nd
      /\ run nd' = run nd /\ Start nd' = Start nd
      /\ Child nd `prefix_of` Child nd'.
Proof.
  intros calls e e' p nd Hv Hnd.
  exact (visitAll_grown calls e e' p nd Hv Hnd).
Qed.

Lemma nodes_only_grow_witness :
  exists e' nd nd',
    visitAll fileEnv [Some (ast.Ident "main"); None] = Returns e'
    /\ node_at fileEnv 0%nat = Some nd
    /\ node_at e' 0%nat = Some nd'
    /\ kind nd' = kind nd
    /\ Child nd `prefix_of` Child nd'
    /\ Child nd = [] /\ Child nd' = [1%nat].
Proof.
  destruct (visitAll fileEnv [Some (ast.Ident "main"); None]) as [e'|] eqn:Hv;
    [|vm_compute in Hv; discriminate Hv].
  destruct (node_at fileEnv 0%nat) as [nd|] eqn:Hnd;
    [|vm_compute in Hnd; discriminate Hnd].
  destruct (nodes_only_grow _ _ _ _ _ Hv Hnd)
    as (nd' & Hnd' & _ & _ & Hk & _ & _ & _ & _ & _ & Hc).
  exists e', nd, nd'. split; [reflexivity|]. split; [reflexivity|].
  split; [exact Hnd'|]. split; [exact Hk|]. split; [exact Hc|].
  vm_compute in Hv. injection Hv as <-.
  vm_compute in Hnd. injection Hnd as <-.
  vm_compute in Hnd'. injection Hnd' as <-.
  split; reflexivity.
Defined.

(** X22.  The visit of a syntax node pushes the node created last; the
    first node it creates has the top of the ancestor stack as its
    ancestor and is appended as the last child of that node, or becomes
    the root when the stack is empty. *)
Theorem visit_links_to_top :
  forall e a,
    stack_ok e ->
    exists e' nd,
      visit e (Some a) = Returns e'
      /\ st e' = push (st e) (length (heap (mem e')) - 1)%nat
      /\ node_at e' (length (heap (mem e))) = Some nd
      /\ anc nd = top (st e)
      /\ (forall p, top (st e) = Some p ->
            exists pn, node_at e' p = Some pn
                       /\ last (Child pn) = Some (length (heap (mem e))))
      /\ (top (st e) = None -> root (mem e') = Some (length (heap (mem e)))).
Proof.
  intros e a Hs. pose proof (top_fresh e Hs) as Hfresh.
  assert (Hparent : forall e' : env,
    (forall q, (q < length (heap (mem e)))%nat ->
       node_at e' q = if decide (top (st e) = Some q)
                      then append_Child (length (heap (mem e))) <$> node_at e q
                      else node_at e q) ->
    forall p, top (st e) = Some p ->
      exists pn, node_at e' p = Some pn
                 /\ last (Child pn) = Some (length (heap (mem e)))).
  { intros e' Hold p Hp.
    destruct (top_valid e p Hs Hp) as (Hlt & pn & Hpn & _).
    rewrite (Hold p Hlt), Hpn.
    destruct (decide (top (st e) = Some p)); [|contradiction].
    eexists. split; [reflexivity|]. apply last_snoc. }
  destruct (visit_Some e a) as [(k & act & f & d & out & _ & Hf & ->)| ->].
  - eexists _, _. split; [reflexivity|].
    split; [rewrite pushed_st, pushed_length; unfold push; f_equal; f_equal; lia|].
    split; [apply pushed_node_new; exact Hfresh|].
    split.
    { destruct (Hf (fresh (mem e) (top (st e)) k act)) as (-> & _).
      reflexivity. }
    split; [apply Hparent; apply pushed_node_old|].
    intros Hnone. rewrite pushed_mem. unfold update. cbn [root].
    rewrite addChild_root, Hnone. reflexivity.
  - eexists _, _. split; [reflexivity|].
    split; [rewrite rangePushed_st, rangePushed_length; unfold push;
            f_equal; f_equal; lia|].
    split; [apply rangePushed_node_parent; exact Hfresh|].
    split; [reflexivity|].
    split; [apply Hparent; apply rangePushed_node_old|].
    intros Hnone. rewrite rangePushed_mem, addChild_root, addChild_root, Hnone.
    reflexivity.
Qed.

Lemma visit_links_to_top_witness :
  stack_ok fileEnv
  /\ exists e' nd pn,
      visit fileEnv (Some (ast.Ident "main")) = Returns e'
      /\ st e' = [0; 1]%nat
      /\ node_at e' 1%nat = Some nd /\ anc nd = Some 0%nat
      /\ node_at e' 0%nat = Some pn /\ last (Child pn) = Some 1%nat.
Proof.
  split; [exact stack_ok_fileEnv|].
  destruct (visit_links_to_top fileEnv (ast.Ident "main") stack_ok_fileEnv)
    as (e' & nd & Hv & Hst & Hnd & Hanc & Hpar & _).
  destruct (Hpar 0%nat eq_refl) as (pn & Hpn & Hlast).
  exists e', nd, pn. split; [exact Hv|].
  split; [rewrite Hst; vm_compute in Hv; injection Hv as <-; reflexivity|].
  split; [exact Hnd|]. split; [exact Hanc|]. split; [exact Hpn|exact Hlast].
Defined.

(** ** Identifiers and literals are leaves *)

Lemma created_nonleaf a :
  leaf a = false ->
  Forall (fun t => leafkind (fst (fst (fst t))) = false) (created (Some a)).
Proof.
  destruct a; intros Hl; try discriminate Hl; clear Hl;
    vm_compute;
    repeat match goal with
           | |- context [match ?x with _ => _ end] => destruct x
           end;
    repeat constructor.
Qed.

Lemma new_nodes_nonleaf e a e1 i nd :
  stack_ok e -> leaf a = false -> visit e (Some a) = Returns e1 ->
  node_at e1 i = Some nd -> (length (heap (mem e)) <= i)%nat ->
  leafkind (kind nd) = false.
Proof.
  intros Hs Hl Hv Hnd Hi.
  pose proof (visit_tags e (Some a) e1 Hs Hv) as Ht.
  assert (Hlk : (tag <$> heap (mem e1)) !! i = Some (tag nd)).
  { rewrite list_lookup_fmap. fold (node_at e1 i). rewrite Hnd. reflexivity. }
  rewrite Ht in Hlk.
  rewrite lookup_app_r in Hlk by (rewrite length_fmap; exact Hi).
  pose proof (created_nonleaf a Hl) as Hall.
  rewrite Forall_lookup in Hall. exact (Hall _ _ Hlk).
Qed.

Lemma inner_step e a e1 :
  inner_ok e -> visit e (Some a) = Returns e1 ->
  lowering_inv e1
  /\ (forall p, p ∈ st e ->
        exists pn, node_at e1 p = Some pn /\ leafkind (kind pn) = false)
  /\ (forall i nd p, node_at e1 i = Some nd -> anc nd = Some p ->
        exists pn, node_at e1 p = Some pn /\ leafkind (kind pn) = false)
  /\ exists n, st e1 = st e ++ [n]
               /\ (length (heap (mem e)) <= n)%nat
               /\ is_Some (node_at e1 n).
Proof.
  intros (Hinv & Hst & Hanc) Hv.
  pose proof (proj1 Hinv) as Hs.
  pose proof (top_fresh e Hs) as Hfresh.
  assert (Hkeep : forall p pn, node_at e p = Some pn ->
            leafkind (kind pn) = false ->
            exists pn', node_at e1 p = Some pn'
                        /\ leafkind (kind pn') = false).
  { intros p pn Hpn Hk.
    destruct (visit_grown e (Some a) e1 p pn Hv Hpn)
      as (pn' & Hpn' & _ & _ & Hk' & _).
    exists pn'. split; [exact Hpn'|]. rewrite Hk'. exact Hk. }
  assert (Hstack : forall p, p ∈ st e ->
            exists pn, node_at e1 p = Some pn /\ leafkind (kind pn) = false).
  { intros p Hp. destruct (Hst p Hp) as (pn & Hpn & Hk). eauto. }
  assert (Htop : forall p, top (st e) = Some p ->
            exists pn, node_at e1 p = Some pn /\ leafkind (kind pn) = false).
  { intros p Hp. apply Hstack. apply top_elem. exact Hp. }
  assert (Hold : forall i nd p,
            (i < length (heap (mem e)))%nat ->
            node_at e1 i = Some nd -> anc nd = Some p ->
            exists pn, node_at e1 p = Some pn /\ leafkind (kind pn) = false).
  { intros i nd p Hi Hnd Ha.
    destruct (lookup_lt_is_Some_2 (heap (mem e)) i Hi) as [nd0 Hnd0].
    destruct (visit_grown e (Some a) e1 i nd0 Hv Hnd0)
      as (nd' & Hnd' & Ha' & _).
    rewrite Hnd in Hnd'. injection Hnd' as <-.
    destruct (Hanc i nd0 p Hnd0 ltac:(congruence)) as (pn & Hpn & Hk). eauto. }
  split; [exact (inv_visit e Hinv (Some a) e1 Hv)|].
  split; [exact Hstack|].
  destruct (visit_Some e a) as [(k & act & f & d & out & _ & Hf & Heq)|Heq];
    rewrite Heq in Hv; injection Hv as <-.
  - split.
    + intros i nd p Hnd Ha.
      pose proof (node_at_lt _ _ _ Hnd) as Hlt. rewrite pushed_length in Hlt.
      destruct (decide (i = length (heap (mem e)))) as [->|Hne];
        [|apply (Hold i nd p); [lia|exact Hnd|exact Ha]].
      rewrite pushed_node_new in Hnd by exact Hfresh. injection Hnd as <-.
      destruct (Hf (fresh (mem e) (top (st e)) k act)) as (Ha' & _).
      rewrite Ha' in Ha. cbn [fresh anc] in Ha. apply Htop. exact Ha.
    + exists (length (heap (mem e))). split; [apply pushed_st|].
      split; [lia|]. rewrite pushed_node_new by exact Hfresh. eauto.
  - split.
    + intros i nd p Hnd Ha.
      pose proof (node_at_lt _ _ _ Hnd) as Hlt.
      rewrite rangePushed_length in Hlt.
      destruct (decide (i = S (length (heap (mem e))))) as [->|Hne1].
      { destruct (rangePushed_node_child e) as (cn & Hcn & _ & _ & Hc & _).
        rewrite Hcn in Hnd. injection Hnd as <-.
        rewrite Hc in Ha. injection Ha as <-.
        rewrite rangePushed_node_parent by exact Hfresh.
        eexists. split; [reflexivity|]. reflexivity. }
      destruct (decide (i = length (heap (mem e)))) as [->|Hne2];
        [|apply (Hold i nd p); [lia|exact Hnd|exact Ha]].
      rewrite rangePushed_node_parent in Hnd by exact Hfresh.
      injection Hnd as <-. cbn [append_Child fresh anc] in Ha.
      apply Htop. exact Ha.
    + exists (S (length (heap (mem e)))). split; [apply rangePushed_st|].
      split; [lia|].
      destruct (rangePushed_node_child e) as (cn & Hcn & _). eauto.
Qed.

Lemma keeps_nil Q : keeps Q [].
Proof. intros e HQ. exists e. auto. Qed.

Lemma keeps_app Q l1 l2 : keeps Q l1 -> keeps Q l2 -> keeps Q (l1 ++ l2).
Proof.
  intros H1 H2 e HQ. rewrite visitAll_app.
  destruct (H1 e HQ) as (e1 & -> & Hs1 & HQ1). cbn [bind].
  destruct (H2 e1 HQ1) as (e2 & -> & Hs2 & HQ2).
  exists e2. split; [reflexivity|]. split; [congruence|assumption].
Qed.

Lemma inner_pop e s n e' :
  st e = s ++ [n] ->
  lowering_inv e ->
  (forall p, p ∈ s ->
     exists pn, node_at e p = Some pn /\ leafkind (kind pn) = false) ->
  (forall i nd p, node_at e i = Some nd -> anc nd = Some p ->
     exists pn, node_at e p = Some pn /\ leafkind (kind pn) = false) ->
  visit e None = Returns e' ->
  st e' = s /\ inner_ok e'.
Proof.
  intros Hs Hinv Hst Hanc Hv.
  pose proof (inv_visit e Hinv None e' Hv) as Hinv'.
  unfold visit in Hv. rewrite Hs in Hv. fold (push s n) in Hv.
  rewrite pop_push in Hv. cbn [bind snd] in Hv. injection Hv as <-.
  split; [reflexivity|]. split; [exact Hinv'|]. split; assumption.
Qed.

Lemma keeps_wrap a l :
  leaf a = false -> keeps inner_ok l ->
  keeps inner_ok (Some a :: l ++ [None]).
Proof.
  intros Hl Hkeep e HQ. cbn [visitAll app].
  destruct (visit_Some_st e a) as (e1 & n0 & Hv & _). rewrite Hv. cbn [bind].
  destruct (inner_step e a e1 HQ Hv)
    as (Hinv1 & Hst1 & Hanc1 & n & Hs1 & Hn & [nd Hnd]).
  pose proof (new_nodes_nonleaf e a e1 n nd (proj1 (proj1 HQ)) Hl Hv Hnd Hn)
    as Hk.
  assert (HQ1 : inner_ok e1).
  { split; [exact Hinv1|]. split; [|exact Hanc1].
    intros p Hp. rewrite Hs1 in Hp. apply elem_of_app in Hp as [Hp|Hp].
    - apply Hst1. exact Hp.
    - apply list_elem_of_singleton in Hp. subst p. eauto. }
  rewrite visitAll_app.
  destruct (Hkeep e1 HQ1) as (e2 & -> & Hs2 & (Hinv2 & Hst2 & Hanc2)).
  cbn [bind visitAll].
  destruct (visit_None_st e2 (st e) n ltac:(congruence)) as (e3 & Hv3 & Hs3).
  rewrite Hv3. cbn [bind]. exists e3. split; [reflexivity|].
  split; [exact Hs3|].
  apply (inner_pop e2 (st e) n e3 ltac:(congruence) Hinv2); [|exact Hanc2|exact Hv3].
  intros p Hp. apply Hst2. rewrite Hs2, Hs1. apply elem_of_app. left. exact Hp.
Qed.

Lemma keeps_leaf a : keeps inner_ok (Some a :: [] ++ [None]).
Proof.
  intros e HQ. cbn [visitAll app].
  destruct (visit_Some_st e a) as (e1 & n0 & Hv & _). rewrite Hv. cbn [bind].
  destruct (inner_step e a e1 HQ Hv)
    as (Hinv1 & Hst1 & Hanc1 & n & Hs1 & _).
  destruct (visit_None_st e1 (st e) n Hs1) as (e3 & Hv3 & Hs3).
  rewrite Hv3. cbn [bind]. exists e3. split; [reflexivity|].
  split; [exact Hs3|].
  apply (inner_pop e1 (st e) n e3 Hs1 Hinv1 Hst1 Hanc1 Hv3).
Qed.

Lemma keeps_ident name : keeps inner_ok [Some (ast.Ident name); None].
Proof. apply (keeps_leaf (ast.Ident name)). Qed.

Lemma keeps_walkList {A} (f : A -> list (option ast.Node)) l :
  (forall x, keeps inner_ok (f x)) -> keeps inner_ok (ast.walkList f l).
Proof.
  intros H. unfold ast.walkList. induction l as [|x l IH]; simpl.
  - apply keeps_nil.
  - apply keeps_app; [apply H|apply IH].
Qed.

Lemma keeps_walkOpt {A} (f : A -> list (option ast.Node)) o :
  (forall x, keeps inner_ok (f x)) -> keeps inner_ok (ast.walkOpt f o).
Proof.
  intros H. destruct o as [x|]; simpl; [apply H|apply keeps_nil].
Qed.

Lemma keeps_walkList_all l :
  list_all ast.Node (fun n => keeps inner_ok (ast.Inspect n)) l ->
  keeps inner_ok (ast.walkList ast.Inspect l).
Proof.
  induction 1 as [|a Ha l Hl IH]; unfold ast.walkList; cbn [map concat].
  - apply keeps_nil.
  - apply keeps_app; assumption.
Qed.

Lemma keeps_walkOpt_all o :
  option_all ast.Node (fun n => keeps inner_ok (ast.Inspect n)) o ->
  keeps inner_ok (ast.walkOpt ast.Inspect o).
Proof.
  destruct 1; unfold ast.walkOpt; [assumption|apply keeps_nil].
Qed.

Lemma keeps_Inspect n : keeps inner_ok (ast.Inspect n).
Proof.
  induction n; cbn [ast.Inspect];
    first [ apply keeps_leaf
          | apply keeps_wrap; [reflexivity|] ];
    repeat first
      [ apply keeps_nil
      | apply keeps_ident
      | assumption
      | apply keeps_app
      | apply keeps_walkList_all; assumption
      | apply keeps_walkOpt_all; assumption
      | apply keeps_walkList; intros; apply keeps_ident
      | apply keeps_walkOpt; intros; apply keeps_ident ].
Qed.

Lemma inner_ok_initial : inner_ok initial.
Proof.
  split; [apply inv_initial|]. split.
  - intros p Hp. apply elem_of_nil in Hp. contradiction.
  - intros i nd p Hnd. discriminate Hnd.
Qed.

(** X23.  In the arena [Ast] returns, the nodes of identifiers and of
    basic literals are leaves: they have no children, and no node has
    one of them as its ancestor. *)
Theorem Ast_identifiers_and_literals_are_leaves :
  forall ParseFile src f,
    ParseFile src = inr f ->
    exists l,
      Ast ParseFile src = Returns l
      /\ (forall i nd, l_heap l !! i = Some nd ->
            kind nd = Ident \/ kind nd = BasicLit -> Child nd = [])
      /\ (forall i nd p pn, l_heap l !! i = Some nd -> anc nd = Some p ->
            l_heap l !! p = Some pn ->
            kind pn <> Ident /\ kind pn <> BasicLit).
Proof.
  intros ParseFile src f Hp.
  destruct (Ast_run ParseFile src f Hp) as (e & k & He & _ & _ & _ & ->).
  eexists. split; [reflexivity|]. cbn [l_heap].
  destruct (keeps_Inspect f initial inner_ok_initial)
    as (e' & He' & _ & (Hinv & _ & Hanc)).
  rewrite He in He'. injection He' as <-.
  assert (Hparent : forall i nd p pn,
            heap (mem e) !! i = Some nd -> anc nd = Some p ->
            heap (mem e) !! p = Some pn ->
            kind pn <> Ident /\ kind pn <> BasicLit).
  { intros i nd p pn Hnd Ha Hpn.
    destruct (Hanc i nd p Hnd Ha) as (pn' & Hpn' & Hk).
    unfold node_at in Hpn'. rewrite Hpn in Hpn'. injection Hpn' as <-.
    unfold leafkind in Hk. apply orb_false_iff in Hk as [H1 H2].
    apply Z.eqb_neq in H1, H2. split; assumption. }
  split; [|exact Hparent].
  intros i nd Hnd Hk.
  destruct (Child nd) as [|c cs] eqn:Hc; [reflexivity|exfalso].
  destruct (tree_visitAll _ _ _ inv_initial tree_initial He) as (_ & T2 & _).
  destruct (T2 i nd c Hnd ltac:(rewrite Hc; apply list_elem_of_here))
    as (_ & cn & Hcn & Hca).
  destruct (Hparent c cn i nd Hcn Hca Hnd) as [H1 H2].
  destruct Hk; contradiction.
Qed.

Lemma Ast_identifiers_and_literals_are_leaves_witness :
  parseSample sampleSrc = inr sampleFile
  /\ exists l,
      Ast parseSample sampleSrc = Returns l
      /\ (forall i nd, l_heap l !! i = Some nd ->
            kind nd = Ident \/ kind nd = BasicLit -> Child nd = [])
      /\ (forall i nd p pn, l_heap l !! i = Some nd -> anc nd = Some p ->
            l_heap l !! p = Some pn ->
            kind pn <> Ident /\ kind pn <> BasicLit).
Proof.
  split; [reflexivity|].
  exact (Ast_identifiers_and_literals_are_leaves parseSample sampleSrc
           sampleFile eq_refl).
Defined.
